(** * Event streams of firefly-fabconnect: a shallow embedding

    The development follows [internal/events]: the stream structure
    with its constructor and its update, suspend, resume and stop
    operations, the three goroutines of a stream (poller, dispatcher,
    processor) as one loop iteration each, and the subscription manager
    that owns the streams and the key-value store.

    Conventions.
    - [uint64] values are [Z] with the wrap-around written out ([wrap64]).
    - Strings are byte strings; [ToLower] lowers the letters A to Z of a
      string of ASCII bytes, and on any other string is the mapping of
      the Go library, which is a parameter.
    - [int64] values are [Z] with the wrap-around of two's complement
      ([wrap_int64]).
    - A Go channel that is only ever closed is its open/closed state.
    - A call that can panic, or wait for ever, returns an [outcome].
    - The mutex [batchCond.L] is the atomicity of one definition; what
      another goroutine may do in between is an explicit argument. *)

From Stdlib Require Import ZArith Lia Bool Ascii String.
From Stdlib.Strings Require Import Byte.
From stdpp Require Import base option list gmap strings fin_maps.

Local Open Scope Z_scope.

(** ** Outcomes of a call *)

Inductive outcome (A : Type) : Type :=
| Returned (a : A)
| Panicked (reason : string)
| Blocked.
Arguments Returned {A} a.
Arguments Panicked {A} reason.
Arguments Blocked {A}.

#[export] Instance outcome_ret : MRet outcome := fun A a => Returned a.
#[export] Instance outcome_bind : MBind outcome := fun A B f m =>
  match m with
  | Returned a => f a
  | Panicked r => Panicked r
  | Blocked => Blocked
  end.

(** ** Machine integers *)

Definition wrap64 (z : Z) : Z := z mod 2 ^ 64.

(** The value of an integer in [int64], as a conversion to
    [time.Duration] or a product of two durations leaves it. *)
Definition wrap_int64 (z : Z) : Z := (z + 2 ^ 63) mod 2 ^ 64 - 2 ^ 63.

(** ** Strings *)

Definition is_upper (c : ascii) : bool :=
  ((65 <=? nat_of_ascii c) && (nat_of_ascii c <=? 90))%nat.

Definition lowerAscii (c : ascii) : ascii :=
  if is_upper c then ascii_of_nat (nat_of_ascii c + 32) else c.

(** The bytes of a string with the letters A to Z lowered. *)
Fixpoint lowerBytes (s : string) : string :=
  match s with
  | EmptyString => EmptyString
  | String c r => String (lowerAscii c) (lowerBytes r)
  end.

(** Every byte is below [utf8.RuneSelf]. *)
Fixpoint isASCII (s : string) : bool :=
  match s with
  | EmptyString => true
  | String c r => (nat_of_ascii c <? 128)%nat && isASCII r
  end.

(** Two characters that are the same letter, whatever their case. *)
Definition same_letter (c d : ascii) : bool :=
  (nat_of_ascii c =? nat_of_ascii d)%nat
  || (is_upper c && (nat_of_ascii d =? nat_of_ascii c + 32)%nat)
  || (is_upper d && (nat_of_ascii c =? nat_of_ascii d + 32)%nat).

(** Comparison of two strings that ignores the case of the letters. *)
Fixpoint EqualFold (s t : string) : bool :=
  match s, t with
  | EmptyString, EmptyString => true
  | String c s', String d t' => same_letter c d && EqualFold s' t'
  | _, _ => false
  end.

(** ** Errors

    The message catalogue of the [errors] package is one constructor per
    message used by the streams. *)

Inductive error : Type :=
| EventStreamsNoID
| EventStreamsInvalidActionType (t : string)
| EventStreamsInvalidDistributionMode (m : string)
| EventStreamsCannotUpdateType
| EventStreamsWebhookNoURL
| EventStreamsWebhookInvalidURL
| EventStreamsWebhookResumeActive (suspended : bool)
| EventStreamsStreamNotFound (id : string)
| EventStreamsCreateStreamStoreFailed
| RESTGatewayEventStreamInvalid
| ActionNotConfigured.

Record RestError : Type := NewRestError { Message : error; StatusCode : Z }.

(** ** The stream specification *)

Definition DistributionModeBroadcast : string := "broadcast".
Definition DistributionModeWLD : string := "workloadDistribution".
Definition ErrorHandlingBlock : string := "block".
Definition ErrorHandlingSkip : string := "skip".
Definition MaxBatchSize : Z := 1000.
Definition DefaultTimestampCacheSize : Z := 1000.

Record webhookActionInfo : Type := {
  URL : string;
  Headers : gmap string string;
  TLSkipHostVerify : bool;
  RequestTimeoutSec : Z;
}.

Record webSocketActionInfo : Type := {
  Topic : string;
  DistributionMode : string;
}.

Record StreamInfo : Type := {
  CreatedISO8601 : string;
  ID : string;
  Name : string;
  Path : string;
  Suspended : bool;
  Type_ : string;
  BatchSize : Z;
  BatchTimeoutMS : Z;
  ErrorHandling : string;
  RetryTimeoutSec : Z;
  BlockedRetryDelaySec : Z;
  Webhook : option webhookActionInfo;
  WebSocket : option webSocketActionInfo;
  Timestamps : bool;
  TimestampCacheSize : Z;
}.

Definition GetID (spec : StreamInfo) : string := ID spec.

(** Field assignments [spec.F = v]. *)

Definition set_Name (v : string) (s : StreamInfo) : StreamInfo :=
  {| CreatedISO8601 := CreatedISO8601 s; ID := ID s; Name := v; Path := Path s;
     Suspended := Suspended s; Type_ := Type_ s; BatchSize := BatchSize s;
     BatchTimeoutMS := BatchTimeoutMS s; ErrorHandling := ErrorHandling s;
     RetryTimeoutSec := RetryTimeoutSec s;
     BlockedRetryDelaySec := BlockedRetryDelaySec s; Webhook := Webhook s;
     WebSocket := WebSocket s; Timestamps := Timestamps s;
     TimestampCacheSize := TimestampCacheSize s |}.

Definition set_Suspended (v : bool) (s : StreamInfo) : StreamInfo :=
  {| CreatedISO8601 := CreatedISO8601 s; ID := ID s; Name := Name s; Path := Path s;
     Suspended := v; Type_ := Type_ s; BatchSize := BatchSize s;
     BatchTimeoutMS := BatchTimeoutMS s; ErrorHandling := ErrorHandling s;
     RetryTimeoutSec := RetryTimeoutSec s;
     BlockedRetryDelaySec := BlockedRetryDelaySec s; Webhook := Webhook s;
     WebSocket := WebSocket s; Timestamps := Timestamps s;
     TimestampCacheSize := TimestampCacheSize s |}.

Definition set_Type (v : string) (s : StreamInfo) : StreamInfo :=
  {| CreatedISO8601 := CreatedISO8601 s; ID := ID s; Name := Name s; Path := Path s;
     Suspended := Suspended s; Type_ := v; BatchSize := BatchSize s;
     BatchTimeoutMS := BatchTimeoutMS s; ErrorHandling := ErrorHandling s;
     RetryTimeoutSec := RetryTimeoutSec s;
     BlockedRetryDelaySec := BlockedRetryDelaySec s; Webhook := Webhook s;
     WebSocket := WebSocket s; Timestamps := Timestamps s;
     TimestampCacheSize := TimestampCacheSize s |}.

Definition set_BatchSize (v : Z) (s : StreamInfo) : StreamInfo :=
  {| CreatedISO8601 := CreatedISO8601 s; ID := ID s; Name := Name s; Path := Path s;
     Suspended := Suspended s; Type_ := Type_ s; BatchSize := v;
     BatchTimeoutMS := BatchTimeoutMS s; ErrorHandling := ErrorHandling s;
     RetryTimeoutSec := RetryTimeoutSec s;
     BlockedRetryDelaySec := BlockedRetryDelaySec s; Webhook := Webhook s;
     WebSocket := WebSocket s; Timestamps := Timestamps s;
     TimestampCacheSize := TimestampCacheSize s |}.

Definition set_BatchTimeoutMS (v : Z) (s : StreamInfo) : StreamInfo :=
  {| CreatedISO8601 := CreatedISO8601 s; ID := ID s; Name := Name s; Path := Path s;
     Suspended := Suspended s; Type_ := Type_ s; BatchSize := BatchSize s;
     BatchTimeoutMS := v; ErrorHandling := ErrorHandling s;
     RetryTimeoutSec := RetryTimeoutSec s;
     BlockedRetryDelaySec := BlockedRetryDelaySec s; Webhook := Webhook s;
     WebSocket := WebSocket s; Timestamps := Timestamps s;
     TimestampCacheSize := TimestampCacheSize s |}.

Definition set_ErrorHandling (v : string) (s : StreamInfo) : StreamInfo :=
  {| CreatedISO8601 := CreatedISO8601 s; ID := ID s; Name := Name s; Path := Path s;
     Suspended := Suspended s; Type_ := Type_ s; BatchSize := BatchSize s;
     BatchTimeoutMS := BatchTimeoutMS s; ErrorHandling := v;
     RetryTimeoutSec := RetryTimeoutSec s;
     BlockedRetryDelaySec := BlockedRetryDelaySec s; Webhook := Webhook s;
     WebSocket := WebSocket s; Timestamps := Timestamps s;
     TimestampCacheSize := TimestampCacheSize s |}.

Definition set_BlockedRetryDelaySec (v : Z) (s : StreamInfo) : StreamInfo :=
  {| CreatedISO8601 := CreatedISO8601 s; ID := ID s; Name := Name s; Path := Path s;
     Suspended := Suspended s; Type_ := Type_ s; BatchSize := BatchSize s;
     BatchTimeoutMS := BatchTimeoutMS s; ErrorHandling := ErrorHandling s;
     RetryTimeoutSec := RetryTimeoutSec s;
     BlockedRetryDelaySec := v; Webhook := Webhook s;
     WebSocket := WebSocket s; Timestamps := Timestamps s;
     TimestampCacheSize := TimestampCacheSize s |}.

Definition set_Webhook (v : option webhookActionInfo) (s : StreamInfo) : StreamInfo :=
  {| CreatedISO8601 := CreatedISO8601 s; ID := ID s; Name := Name s; Path := Path s;
     Suspended := Suspended s; Type_ := Type_ s; BatchSize := BatchSize s;
     BatchTimeoutMS := BatchTimeoutMS s; ErrorHandling := ErrorHandling s;
     RetryTimeoutSec := RetryTimeoutSec s;
     BlockedRetryDelaySec := BlockedRetryDelaySec s; Webhook := v;
     WebSocket := WebSocket s; Timestamps := Timestamps s;
     TimestampCacheSize := TimestampCacheSize s |}.

Definition set_WebSocket (v : option webSocketActionInfo) (s : StreamInfo) : StreamInfo :=
  {| CreatedISO8601 := CreatedISO8601 s; ID := ID s; Name := Name s; Path := Path s;
     Suspended := Suspended s; Type_ := Type_ s; BatchSize := BatchSize s;
     BatchTimeoutMS := BatchTimeoutMS s; ErrorHandling := ErrorHandling s;
     RetryTimeoutSec := RetryTimeoutSec s;
     BlockedRetryDelaySec := BlockedRetryDelaySec s; Webhook := Webhook s;
     WebSocket := v; Timestamps := Timestamps s;
     TimestampCacheSize := TimestampCacheSize s |}.

Definition set_Timestamps (v : bool) (s : StreamInfo) : StreamInfo :=
  {| CreatedISO8601 := CreatedISO8601 s; ID := ID s; Name := Name s; Path := Path s;
     Suspended := Suspended s; Type_ := Type_ s; BatchSize := BatchSize s;
     BatchTimeoutMS := BatchTimeoutMS s; ErrorHandling := ErrorHandling s;
     RetryTimeoutSec := RetryTimeoutSec s;
     BlockedRetryDelaySec := BlockedRetryDelaySec s; Webhook := Webhook s;
     WebSocket := WebSocket s; Timestamps := v;
     TimestampCacheSize := TimestampCacheSize s |}.

Definition set_TimestampCacheSize (v : Z) (s : StreamInfo) : StreamInfo :=
  {| CreatedISO8601 := CreatedISO8601 s; ID := ID s; Name := Name s; Path := Path s;
     Suspended := Suspended s; Type_ := Type_ s; BatchSize := BatchSize s;
     BatchTimeoutMS := BatchTimeoutMS s; ErrorHandling := ErrorHandling s;
     RetryTimeoutSec := RetryTimeoutSec s;
     BlockedRetryDelaySec := BlockedRetryDelaySec s; Webhook := Webhook s;
     WebSocket := WebSocket s; Timestamps := Timestamps s;
     TimestampCacheSize := v |}.

Definition validateWebSocket (w : webSocketActionInfo) : option error :=
  if negb (String.eqb (DistributionMode w) "")
     && negb (String.eqb (DistributionMode w) DistributionModeBroadcast)
     && negb (String.eqb (DistributionMode w) DistributionModeWLD)
  then Some (EventStreamsInvalidDistributionMode (DistributionMode w))
  else None.

(** ** Events

    Modelled from the spec: [api.EventEntry] is declared in a package
    that is not part of the sources; the fields are those the spec lists
    for the transient event entry. *)

Record EventEntry : Type := {
  SubID : string;
  BlockNumber : Z;
  TransactionId : string;
  TransactionIndex : Z;
  EventName : string;
}.

(** [eventData] pairs the entry with its [batchComplete] closure; calling
    the closure is the effect [BatchComplete]. *)
Record eventData : Type := { event : EventEntry }.

(** What a goroutine does to the outside of the stream. *)
Inductive effect : Type :=
| Accepted (e : eventData)
| Attempted (batchNumber attempt : Z) (events : list EventEntry)
| Processed (events : list eventData)
| BatchComplete (e : EventEntry)
| SubscriptionsStale.

(** ** The stream *)

Inductive chan : Type := chanOpen | chanClosed.

Definition is_closed (c : chan) : bool :=
  match c with chanClosed => true | chanOpen => false end.

Inductive goroutine : Type :=
| goEventPoller
| goBatchProcessor
| goBatchDispatcher (currentBatch : list eventData).

Inductive eventStreamAction : Type := webhookAction | webSocketAction.

(** The fields of [eventStream] that carry state.  [sm] is the manager,
    passed to the definitions that need it; [batchCond] is the
    atomicity of a definition; the retry delays only set waiting times.
    The action keeps a pointer into [spec], so its configuration is read
    from [spec].  [goroutines] is the set of goroutines started by
    [startEventHandlers] that have not returned, the dispatcher with its
    local [currentBatch]. *)
Record eventStream : Type := {
  spec : StreamInfo;
  allowPrivateIPs : bool;
  eventStream_chan : chan;
  stopped : bool;
  processorDone : bool;
  pollingInterval : Z;
  pollerDone : bool;
  inFlight : Z;
  batchQueue : list (list eventData);
  batchCount : Z;
  updateInProgress : bool;
  updateInterrupt : chan;
  updateWG : Z;
  action : eventStreamAction;
  goroutines : list goroutine;
}.

Definition set_spec (v : StreamInfo) (a : eventStream) : eventStream :=
  {| spec := v; allowPrivateIPs := allowPrivateIPs a;
     eventStream_chan := eventStream_chan a; stopped := stopped a;
     processorDone := processorDone a; pollingInterval := pollingInterval a;
     pollerDone := pollerDone a; inFlight := inFlight a;
     batchQueue := batchQueue a; batchCount := batchCount a;
     updateInProgress := updateInProgress a;
     updateInterrupt := updateInterrupt a; updateWG := updateWG a;
     action := action a; goroutines := goroutines a |}.

Definition set_eventStream_chan (v : chan) (a : eventStream) : eventStream :=
  {| spec := spec a; allowPrivateIPs := allowPrivateIPs a;
     eventStream_chan := v; stopped := stopped a;
     processorDone := processorDone a; pollingInterval := pollingInterval a;
     pollerDone := pollerDone a; inFlight := inFlight a;
     batchQueue := batchQueue a; batchCount := batchCount a;
     updateInProgress := updateInProgress a;
     updateInterrupt := updateInterrupt a; updateWG := updateWG a;
     action := action a; goroutines := goroutines a |}.

Definition set_stopped (v : bool) (a : eventStream) : eventStream :=
  {| spec := spec a; allowPrivateIPs := allowPrivateIPs a;
     eventStream_chan := eventStream_chan a; stopped := v;
     processorDone := processorDone a; pollingInterval := pollingInterval a;
     pollerDone := pollerDone a; inFlight := inFlight a;
     batchQueue := batchQueue a; batchCount := batchCount a;
     updateInProgress := updateInProgress a;
     updateInterrupt := updateInterrupt a; updateWG := updateWG a;
     action := action a; goroutines := goroutines a |}.

Definition set_processorDone (v : bool) (a : eventStream) : eventStream :=
  {| spec := spec a; allowPrivateIPs := allowPrivateIPs a;
     eventStream_chan := eventStream_chan a; stopped := stopped a;
     processorDone := v; pollingInterval := pollingInterval a;
     pollerDone := pollerDone a; inFlight := inFlight a;
     batchQueue := batchQueue a; batchCount := batchCount a;
     updateInProgress := updateInProgress a;
     updateInterrupt := updateInterrupt a; updateWG := updateWG a;
     action := action a; goroutines := goroutines a |}.

Definition set_pollerDone (v : bool) (a : eventStream) : eventStream :=
  {| spec := spec a; allowPrivateIPs := allowPrivateIPs a;
     eventStream_chan := eventStream_chan a; stopped := stopped a;
     processorDone := processorDone a; pollingInterval := pollingInterval a;
     pollerDone := v; inFlight := inFlight a;
     batchQueue := batchQueue a; batchCount := batchCount a;
     updateInProgress := updateInProgress a;
     updateInterrupt := updateInterrupt a; updateWG := updateWG a;
     action := action a; goroutines := goroutines a |}.

Definition set_inFlight (v : Z) (a : eventStream) : eventStream :=
  {| spec := spec a; allowPrivateIPs := allowPrivateIPs a;
     eventStream_chan := eventStream_chan a; stopped := stopped a;
     processorDone := processorDone a; pollingInterval := pollingInterval a;
     pollerDone := pollerDone a; inFlight := v;
     batchQueue := batchQueue a; batchCount := batchCount a;
     updateInProgress := updateInProgress a;
     updateInterrupt := updateInterrupt a; updateWG := updateWG a;
     action := action a; goroutines := goroutines a |}.

Definition set_batchQueue (v : list (list eventData)) (a : eventStream) : eventStream :=
  {| spec := spec a; allowPrivateIPs := allowPrivateIPs a;
     eventStream_chan := eventStream_chan a; stopped := stopped a;
     processorDone := processorDone a; pollingInterval := pollingInterval a;
     pollerDone := pollerDone a; inFlight := inFlight a;
     batchQueue := v; batchCount := batchCount a;
     updateInProgress := updateInProgress a;
     updateInterrupt := updateInterrupt a; updateWG := updateWG a;
     action := action a; goroutines := goroutines a |}.

Definition set_batchCount (v : Z) (a : eventStream) : eventStream :=
  {| spec := spec a; allowPrivateIPs := allowPrivateIPs a;
     eventStream_chan := eventStream_chan a; stopped := stopped a;
     processorDone := processorDone a; pollingInterval := pollingInterval a;
     pollerDone := pollerDone a; inFlight := inFlight a;
     batchQueue := batchQueue a; batchCount := v;
     updateInProgress := updateInProgress a;
     updateInterrupt := updateInterrupt a; updateWG := updateWG a;
     action := action a; goroutines := goroutines a |}.

Definition set_updateInProgress (v : bool) (a : eventStream) : eventStream :=
  {| spec := spec a; allowPrivateIPs := allowPrivateIPs a;
     eventStream_chan := eventStream_chan a; stopped := stopped a;
     processorDone := processorDone a; pollingInterval := pollingInterval a;
     pollerDone := pollerDone a; inFlight := inFlight a;
     batchQueue := batchQueue a; batchCount := batchCount a;
     updateInProgress := v;
     updateInterrupt := updateInterrupt a; updateWG := updateWG a;
     action := action a; goroutines := goroutines a |}.

Definition set_updateInterrupt (v : chan) (a : eventStream) : eventStream :=
  {| spec := spec a; allowPrivateIPs := allowPrivateIPs a;
     eventStream_chan := eventStream_chan a; stopped := stopped a;
     processorDone := processorDone a; pollingInterval := pollingInterval a;
     pollerDone := pollerDone a; inFlight := inFlight a;
     batchQueue := batchQueue a; batchCount := batchCount a;
     updateInProgress := updateInProgress a;
     updateInterrupt := v; updateWG := updateWG a;
     action := action a; goroutines := goroutines a |}.

Definition set_updateWG (v : Z) (a : eventStream) : eventStream :=
  {| spec := spec a; allowPrivateIPs := allowPrivateIPs a;
     eventStream_chan := eventStream_chan a; stopped := stopped a;
     processorDone := processorDone a; pollingInterval := pollingInterval a;
     pollerDone := pollerDone a; inFlight := inFlight a;
     batchQueue := batchQueue a; batchCount := batchCount a;
     updateInProgress := updateInProgress a;
     updateInterrupt := updateInterrupt a; updateWG := v;
     action := action a; goroutines := goroutines a |}.

Definition set_goroutines (v : list goroutine) (a : eventStream) : eventStream :=
  {| spec := spec a; allowPrivateIPs := allowPrivateIPs a;
     eventStream_chan := eventStream_chan a; stopped := stopped a;
     processorDone := processorDone a; pollingInterval := pollingInterval a;
     pollerDone := pollerDone a; inFlight := inFlight a;
     batchQueue := batchQueue a; batchCount := batchCount a;
     updateInProgress := updateInProgress a;
     updateInterrupt := updateInterrupt a; updateWG := updateWG a;
     action := action a; goroutines := v |}.

(** [sync.WaitGroup]: a counter; [Done] below zero panics. *)
Definition wgAdd (n : Z) (a : eventStream) : eventStream :=
  set_updateWG (updateWG a + n) a.

Definition wgDone (a : eventStream) : outcome eventStream :=
  if updateWG a <? 1 then Panicked "sync: negative WaitGroup counter"
  else Returned (set_updateWG (updateWG a - 1) a).

(** The statement [go f()]. *)
Definition go (g : goroutine) (a : eventStream) : eventStream :=
  set_goroutines (goroutines a ++ [g]) a.

(** ** What lies outside the sources

    [url.Parse] of the Go library, the two action constructors, which
    are defined with the webhook and WebSocket actions, and the
    mapping of [unicode.ToLower] over the runes of a string that has a
    byte outside ASCII, which rests on the Unicode tables of the Go
    library.  A constructor sees the sub-configuration of its type and
    either rejects it or returns it as it leaves it in place. *)
Class Externals : Type := {
  urlParse : string -> bool;
  newWebhookAction : option webhookActionInfo -> error + webhookActionInfo;
  newWebSocketAction :
    option webSocketActionInfo -> error + option webSocketActionInfo;
  unicodeToLower : string -> string;
}.

(** [strings.ToLower]: a string of ASCII bytes has its letters A to Z
    lowered, byte by byte; any other string is mapped rune by rune. *)
Definition ToLower `{Externals} (s : string) : string :=
  if isASCII s then lowerBytes s else unicodeToLower s.

(** Modelled from the spec: [conf.EventstreamConf], with the two keys
    the streams read. *)
Record EventstreamConf : Type := {
  PollingIntervalSec : Z;
  WebhooksAllowPrivateIPs : bool;
}.

Definition second : Z := 1000000000.
Definition millisecond : Z := 1000000.

Definition startEventHandlers (resume : bool) (a : eventStream) : eventStream :=
  let a := set_updateInterrupt chanOpen a in
  let a := set_updateWG 0 a in
  let a := wgAdd 1 a in
  let a := go goEventPoller a in
  let a := wgAdd 1 a in
  let a := go goBatchProcessor a in
  if negb resume then
    let a := wgAdd 1 a in
    go (goBatchDispatcher []) a
  else a.

(** The defaults written into [spec] by the constructor. *)
Definition normalise `{Externals} (spec : StreamInfo) : StreamInfo :=
  let spec :=
    if BatchSize spec =? 0 then set_BatchSize 1 spec
    else if BatchSize spec >? MaxBatchSize then set_BatchSize MaxBatchSize spec
    else spec in
  let spec :=
    if BatchTimeoutMS spec =? 0 then set_BatchTimeoutMS 5000 spec else spec in
  let spec :=
    if BlockedRetryDelaySec spec =? 0 then set_BlockedRetryDelaySec 30 spec
    else spec in
  let spec :=
    if String.eqb (ToLower (ErrorHandling spec)) ErrorHandlingBlock
    then set_ErrorHandling ErrorHandlingBlock spec
    else set_ErrorHandling ErrorHandlingSkip spec in
  if TimestampCacheSize spec =? 0
  then set_TimestampCacheSize DefaultTimestampCacheSize spec
  else spec.

Section Stream.
Context `{Externals}.

Definition newEventStream (conf : EventstreamConf) (spec : option StreamInfo)
  : error + eventStream :=
  match spec with
  | None => inl EventStreamsNoID
  | Some spec =>
    if String.eqb (GetID spec) "" then inl EventStreamsNoID else
    let spec := normalise spec in
    let interval := wrap_int64 (PollingIntervalSec conf * second) in
    let interval := if interval =? 0 then 10 * millisecond else interval in
    let spec := set_Type (ToLower (Type_ spec)) spec in
    let mk (spec : StreamInfo) (act : eventStreamAction) : eventStream :=
      {| spec := spec;
         allowPrivateIPs := WebhooksAllowPrivateIPs conf;
         eventStream_chan := chanOpen;
         stopped := false; processorDone := false;
         pollingInterval := interval;
         pollerDone := false; inFlight := 0;
         batchQueue := []; batchCount := 0;
         updateInProgress := false;
         updateInterrupt := chanOpen; updateWG := 0;
         action := act; goroutines := [] |} in
    if String.eqb (Type_ spec) "webhook" then
      match newWebhookAction (Webhook spec) with
      | inl err => inl err
      | inr w =>
        inr (startEventHandlers false (mk (set_Webhook (Some w) spec) webhookAction))
      end
    else if String.eqb (Type_ spec) "websocket" then
      match from_option validateWebSocket None (WebSocket spec) with
      | Some err => inl err
      | None =>
        match newWebSocketAction (WebSocket spec) with
        | inl err => inl err
        | inr w =>
          inr (startEventHandlers false (mk (set_WebSocket w spec) webSocketAction))
        end
      end
    else inl (EventStreamsInvalidActionType (Type_ spec))
  end.

(** [preUpdateStream] sets the flag; the broadcast wakes the processor. *)
Definition preUpdateStream (a : eventStream) : eventStream :=
  set_updateInProgress true a.

Definition postUpdateStream (a : eventStream) : eventStream :=
  let a := set_pollerDone false a in
  let a := set_processorDone false a in
  let a := set_updateInProgress false a in
  startEventHandlers false a.

(** The built-in [close] panics on a closed channel. *)
Definition close_updateInterrupt (a : eventStream) : outcome eventStream :=
  match updateInterrupt a with
  | chanClosed => Panicked "close of closed channel"
  | chanOpen => Returned (set_updateInterrupt chanClosed a)
  end.

Definition stop (a : eventStream) : outcome eventStream :=
  let a := set_stopped true a in
  match eventStream_chan a with
  | chanClosed => Panicked "close of closed channel"
  | chanOpen => Returned (set_eventStream_chan chanClosed a)
  end.

Definition suspend (a : eventStream) : eventStream :=
  set_spec (set_Suspended true (spec a)) a.

Definition resume (a : eventStream) : eventStream * option error :=
  if negb (processorDone a) || negb (pollerDone a) then
    (a, Some (EventStreamsWebhookResumeActive (Suspended (spec a))))
  else
    let a := set_spec (set_Suspended false (spec a)) a in
    let a := set_processorDone false a in
    let a := set_pollerDone false a in
    (startEventHandlers true a, None).

Definition isBlocked (a : eventStream) : bool :=
  BatchSize (spec a) <=? inFlight a.

Definition suspendOrStop (a : eventStream) : bool :=
  Suspended (spec a) || stopped a.

(** [handleEvent] sends on [a.eventStream]: a panic once the channel is
    closed, otherwise the receive that a dispatcher takes. *)
Definition handleEvent (e : eventData) (a : eventStream) : outcome eventData :=
  if is_closed (eventStream_chan a)
  then Panicked "send on closed channel"
  else Returned e.

End Stream.

(** ** Calls that race with a goroutine

    [suspend], [stop] and the first statements of [update] only take the
    lock for a moment; a goroutine sees their effect at its next read of
    the flags. *)

Inductive control : Type := ctlSuspend | ctlStop | ctlUpdate.

(** [update], up to [close(a.updateInterrupt)]. *)
Definition update_interrupt (a : eventStream) : outcome eventStream :=
  close_updateInterrupt (preUpdateStream a).

Definition interfere1 (c : control) (a : eventStream) : outcome eventStream :=
  match c with
  | ctlSuspend => Returned (suspend a)
  | ctlStop => stop a
  | ctlUpdate => update_interrupt a
  end.

Fixpoint interfere (cs : list control) (a : eventStream) : outcome eventStream :=
  match cs with
  | [] => Returned a
  | c :: cs' => a' ← interfere1 c a; interfere cs' a'
  end.

(** The two cases of a [select] between [updateInterrupt] and a timer. *)
Inductive wake : Type := wakeInterrupt | wakeTimer.

(** [Some true]: the timer case ran; [Some false]: the interrupt case. *)
Definition select_wake (w : wake) (a : eventStream) : outcome bool :=
  match w with
  | wakeTimer => Returned true
  | wakeInterrupt =>
    if is_closed (updateInterrupt a) then Returned false else Blocked
  end.

(** ** The processor *)

(** One turn of the loop of [performActionWithRetry] as the environment
    decides it: the calls landing before the loop test, the [select]
    (from the second attempt on), whether [attemptBatch] failed, and
    whether [time.Until(endTime) < 0]. *)
Record retry_env : Type := {
  retry_before : list control;
  retry_wake : wake;
  retry_failed : bool;
  retry_expired : bool;
}.

(** The loop, entered with [complete = false]; [err] is the named
    result, [true] for a non-nil error. *)
Fixpoint retryLoop (env : list retry_env) (batchNumber attempt : Z)
    (events : list EventEntry) (err : bool) (a : eventStream)
  : outcome (eventStream * bool * list effect) :=
  match env with
  | [] => if suspendOrStop a then Returned (a, err, []) else Blocked
  | r :: env' =>
    a ← interfere (retry_before r) a;
    if suspendOrStop a then Returned (a, err, []) else
    timer ← (if attempt >? 0 then select_wake (retry_wake r) a else Returned true);
    if negb timer then Returned (a, err, []) else
    let attempt := wrap64 (attempt + 1) in
    let err := retry_failed r in
    let complete := negb err || retry_expired r in
    if complete then Returned (a, err, [Attempted batchNumber attempt events])
    else
      '(a', err', effs) ← retryLoop env' batchNumber attempt events err a;
      Returned (a', err', Attempted batchNumber attempt events :: effs)
  end.

Definition performActionWithRetry (env : list retry_env) (batchNumber : Z)
    (events : list EventEntry) (a : eventStream)
  : outcome (eventStream * bool * list effect) :=
  '(a, err, effs) ← retryLoop env batchNumber 0 events false a;
  a ← wgDone a;
  Returned (a, err, effs).

(** One turn of the loop of [processBatch]. *)
Record attempt_env : Type := {
  attempt_before : list control;
  attempt_wake : wake;
  attempt_retries : list retry_env;
}.

Record batch_env : Type := {
  batch_attempts : list attempt_env;
  batch_after : list control;
}.

(** How the loop of [processBatch] is left: its test fails, with
    [processed] as it stands, or the interrupt case returns. *)
Inductive loop_exit : Type := loopDone (processed : bool) | loopReturn.

Fixpoint attemptLoop (env : list attempt_env) (batchNumber attempt : Z)
    (events : list eventData) (a : eventStream)
  : outcome (eventStream * loop_exit * list effect) :=
  match env with
  | [] => if suspendOrStop a then Returned (a, loopDone false, []) else Blocked
  | t :: env' =>
    a ← interfere (attempt_before t) a;
    if suspendOrStop a then Returned (a, loopDone false, []) else
    timer ← (if attempt >? 0 then select_wake (attempt_wake t) a else Returned true);
    if negb timer then Returned (a, loopReturn, []) else
    let attempt := attempt + 1 in
    let a := wgAdd 1 a in
    '(a, err, effs) ←
      performActionWithRetry (attempt_retries t) batchNumber (event <$> events) a;
    let processed :=
      negb err || String.eqb (ErrorHandling (spec a)) ErrorHandlingSkip in
    if processed then Returned (a, loopDone true, effs)
    else
      '(a', ex, effs') ← attemptLoop env' batchNumber attempt events a;
      Returned (a', ex, effs ++ effs')
  end.

(** The map [cbs] of [processBatch]. *)
Definition callbacks (events : list eventData) : gmap string eventData :=
  foldl (fun cbs e => <[SubID (event e) := e]> cbs) ∅ events.

Definition processBatch (env : batch_env) (batchNumber : Z)
    (events : list eventData) (a : eventStream)
  : outcome (eventStream * list effect) :=
  match events with
  | [] => a ← wgDone a; Returned (a, [])
  | _ :: _ =>
    '(a, ex, effs) ← attemptLoop (batch_attempts env) batchNumber 0 events a;
    match ex with
    | loopReturn => a ← wgDone a; Returned (a, effs)
    | loopDone processed =>
      let a :=
        if processed
        then set_inFlight (wrap64 (inFlight a - Z.of_nat (length events))) a
        else a in
      let effs := effs ++ (if processed then [Processed events] else []) in
      a ← interfere (batch_after env) a;
      if suspendOrStop a then a ← wgDone a; Returned (a, effs) else
      let cbs := callbacks events in
      a ← wgDone a;
      Returned (a, effs ++ ((fun e => BatchComplete (event e.2)) <$> map_to_list cbs))
    end
  end.

(** One turn of the loop of [batchProcessor]; the boolean tells whether
    the goroutine goes on.  Waiting on the condition variable is
    [Blocked]. *)
Definition batchProcessor (env : batch_env) (a : eventStream)
  : outcome (eventStream * bool * list effect) :=
  if suspendOrStop a then Returned (set_processorDone true a, false, []) else
  match batchQueue a with
  | [] =>
    if updateInProgress a then
      match updateInterrupt a with
      | chanOpen => Blocked
      | chanClosed => a ← wgDone a; Returned (set_processorDone true a, false, [])
      end
    else Blocked
  | batch :: rest =>
    let a := set_batchCount (wrap64 (batchCount a + 1)) a in
    let batchNumber := batchCount a in
    let a := set_batchQueue rest a in
    let a := wgAdd 1 a in
    '(a, effs) ← processBatch env batchNumber batch a;
    Returned (a, true, effs)
  end.

(** ** The dispatcher *)

(** The case of the [select] that runs: the batch timeout, a receive
    from [a.eventStream] ([None] for the nil of a closed channel), or the
    interrupt. *)
Inductive receive : Type :=
| recvTimeout
| recvEvent (e : option eventData)
| recvInterrupt.

(** One turn of the loop of [batchDispatcher] on its local
    [currentBatch]; [None] when the goroutine returns. *)
Definition batchDispatcher (r : receive) (currentBatch : list eventData)
    (a : eventStream)
  : outcome (eventStream * option (list eventData) * list effect) :=
  sel ← match r with
        | recvTimeout =>
          match currentBatch with
          | [] => Blocked
          | _ :: _ => Returned (Some (true, currentBatch, []))
          end
        | recvEvent None => Returned None
        | recvEvent (Some e) =>
          if is_closed (eventStream_chan a) then Blocked
          else Returned (Some (false, currentBatch ++ [e], [Accepted e]))
        | recvInterrupt =>
          if is_closed (updateInterrupt a) then Returned None else Blocked
        end;
  match sel with
  | None => a ← wgDone a; Returned (a, None, [])
  | Some (timeout, currentBatch, effs) =>
    if timeout || (Z.of_nat (length currentBatch) =? BatchSize (spec a)) then
      let a := if negb timeout then set_inFlight (wrap64 (inFlight a + 1)) a else a in
      let a := set_batchQueue (batchQueue a ++ [currentBatch]) a in
      Returned (a, Some [], effs)
    else
      Returned (set_inFlight (wrap64 (inFlight a + 1)) a, Some currentBatch, effs)
  end.

(** ** The poller, as far as the stream is concerned

    One turn of the loop of [eventPoller]: the loop test, the work on
    the subscriptions and the checkpoint (which is on the manager, see
    [pollSubscriptions] and [recordCheckpoint]), the [select]. *)
Definition eventPoller (w : wake) (a : eventStream)
  : outcome (eventStream * bool * list effect) :=
  let leave (a : eventStream) : outcome (eventStream * bool * list effect) :=
    a ← wgDone (set_pollerDone true a);
    Returned (a, false, [SubscriptionsStale]) in
  if suspendOrStop a then leave a else
  timer ← select_wake w a;
  if negb timer then leave a else Returned (a, true, []).

(** ** Scheduling *)

Inductive step : Type :=
| stepPoller (n : nat) (w : wake)
| stepDispatcher (n : nat) (r : receive)
| stepProcessor (n : nat) (env : batch_env).

Definition retire (n : nat) (a : eventStream) : eventStream :=
  set_goroutines (delete n (goroutines a)) a.

(** One turn of the loop of the [n]-th goroutine. *)
Definition iterate (s : step) (a : eventStream) : outcome (eventStream * list effect) :=
  match s with
  | stepPoller n w =>
    match goroutines a !! n with
    | Some goEventPoller =>
      '(a, continues, effs) ← eventPoller w a;
      Returned (if continues : bool then a else retire n a, effs)
    | _ => Blocked
    end
  | stepDispatcher n r =>
    match goroutines a !! n with
    | Some (goBatchDispatcher currentBatch) =>
      '(a, local, effs) ← batchDispatcher r currentBatch a;
      Returned (match local with
                | Some currentBatch =>
                  set_goroutines (<[n := goBatchDispatcher currentBatch]> (goroutines a)) a
                | None => retire n a
                end, effs)
    | _ => Blocked
    end
  | stepProcessor n env =>
    match goroutines a !! n with
    | Some goBatchProcessor =>
      '(a, continues, effs) ← batchProcessor env a;
      Returned (if continues : bool then a else retire n a, effs)
    | _ => Blocked
    end
  end.

Fixpoint run (sched : list step) (a : eventStream) : outcome (eventStream * list effect) :=
  match sched with
  | [] => Returned (a, [])
  | s :: sched' =>
    '(a, effs) ← iterate s a;
    '(a', effs') ← run sched' a;
    Returned (a', effs ++ effs')
  end.

(** ** Update *)

Section Update.
Context `{Externals}.

(** [update], the webhook block. *)
Definition update_webhook (newSpec : StreamInfo) (a : eventStream)
  : outcome (eventStream * option error) :=
  match Webhook newSpec with
  | Some w =>
    if String.eqb (Type_ (spec a)) "webhook" then
      if String.eqb (URL w) "" then Returned (a, Some EventStreamsWebhookNoURL)
      else if negb (urlParse (URL w)) then
        Returned (a, Some EventStreamsWebhookInvalidURL)
      else
        let timeout :=
          if RequestTimeoutSec w =? 0 then 120 else RequestTimeoutSec w in
        match Webhook (spec a) with
        | None => Panicked "nil pointer dereference"
        | Some _ =>
          let w' := {| URL := URL w; RequestTimeoutSec := timeout;
                       TLSkipHostVerify := TLSkipHostVerify w;
                       Headers := Headers w |} in
          Returned (set_spec (set_Webhook (Some w') (spec a)) a, None)
        end
    else Returned (a, None)
  | None => Returned (a, None)
  end.

(** [update], the WebSocket block: the topic is assigned before the
    distribution mode is validated. *)
Definition update_websocket (newSpec : StreamInfo) (a : eventStream)
  : outcome (eventStream * option error) :=
  match WebSocket newSpec with
  | Some w =>
    if String.eqb (Type_ (spec a)) "websocket" then
      match WebSocket (spec a) with
      | None => Panicked "nil pointer dereference"
      | Some cur =>
        let cur := {| Topic := Topic w; DistributionMode := DistributionMode cur |} in
        let a := set_spec (set_WebSocket (Some cur) (spec a)) a in
        match validateWebSocket w with
        | Some err => Returned (a, Some err)
        | None =>
          let cur := {| Topic := Topic cur; DistributionMode := DistributionMode w |} in
          Returned (set_spec (set_WebSocket (Some cur) (spec a)) a, None)
        end
      end
    else Returned (a, None)
  | None => Returned (a, None)
  end.

(** [update], the assignments of the plain fields. *)
Definition update_fields (newSpec : StreamInfo) (s : StreamInfo) : StreamInfo :=
  let s :=
    if negb (BatchSize s =? BatchSize newSpec)
       && negb (BatchSize newSpec =? 0)
       && (BatchSize newSpec <? MaxBatchSize)
    then set_BatchSize (BatchSize newSpec) s else s in
  let s :=
    if negb (BatchTimeoutMS s =? BatchTimeoutMS newSpec)
       && negb (BatchTimeoutMS newSpec =? 0)
    then set_BatchTimeoutMS (BatchTimeoutMS newSpec) s else s in
  let s :=
    if negb (BlockedRetryDelaySec s =? BlockedRetryDelaySec newSpec)
       && negb (BlockedRetryDelaySec newSpec =? 0)
    then set_BlockedRetryDelaySec (BlockedRetryDelaySec newSpec) s else s in
  let s :=
    if String.eqb (ToLower (ErrorHandling newSpec)) ErrorHandlingBlock
    then set_ErrorHandling ErrorHandlingBlock s
    else set_ErrorHandling ErrorHandlingSkip s in
  let s :=
    if negb (String.eqb (Name newSpec) "")
       && negb (String.eqb (Name s) (Name newSpec))
    then set_Name (Name newSpec) s else s in
  if negb (Bool.eqb (Timestamps s) (Timestamps newSpec))
  then set_Timestamps (Timestamps newSpec) s else s.

(** [update], from the statement after [a.updateWG.Wait()] on. *)
Definition update_apply (newSpec : StreamInfo) (a : eventStream)
  : outcome (eventStream * (error + StreamInfo)) :=
  if negb (String.eqb (Type_ newSpec) "")
     && negb (String.eqb (Type_ newSpec) (Type_ (spec a)))
  then Returned (a, inl EventStreamsCannotUpdateType) else
  '(a, err) ← update_webhook newSpec a;
  match err with
  | Some e => Returned (a, inl e)
  | None =>
    '(a, err) ← update_websocket newSpec a;
    match err with
    | Some e => Returned (a, inl e)
    | None =>
      let a := set_spec (update_fields newSpec (spec a)) a in
      let a := postUpdateStream a in
      Returned (a, inr (spec a))
    end
  end.

(** [a.updateWG.Wait()] returns once the counter is zero. *)
Definition wgWait (a : eventStream) : outcome eventStream :=
  if updateWG a =? 0 then Returned a else Blocked.

(** [update]; [sched] is what the goroutines of the stream do between
    the close of [updateInterrupt] and the return of the wait. *)
Definition update (sched : list step) (newSpec : StreamInfo) (a : eventStream)
  : outcome (eventStream * (error + StreamInfo) * list effect) :=
  a ← update_interrupt a;
  '(a, effs) ← run sched a;
  a ← wgWait a;
  '(a, res) ← update_apply newSpec a;
  Returned (a, res, effs).

End Update.

(** ** Subscriptions

    Modelled from the spec: the subscription structure is declared in a
    file that is not part of the sources; the fields are the state bits
    the spec lists for a subscription, [blockHWM] the value its method
    of that name returns. *)

Record SubscriptionInfo : Type := {
  info_ID : string;
  info_Stream : string;
  FromBlock : string;
}.

Record subscription : Type := {
  info : SubscriptionInfo;
  resetRequested : bool;
  filterStale : bool;
  deleting : bool;
  blockHWM : Z;
}.

(** The methods of a subscription that the poller and the manager call;
    a height or a registration that fails is [None] or [true]. *)
Class SubscriptionMethods : Type := {
  unsubscribe : bool -> subscription -> subscription;
  setInitialBlockHeight : subscription -> subscription * option Z;
  setCheckpointBlockHeight : Z -> subscription -> subscription;
  restartFilter : Z -> subscription -> subscription * bool;
  markFilterStale : bool -> subscription -> subscription;
  closeSubscription : subscription -> subscription;
}.

Section Poller.
Context `{SubscriptionMethods}.

(** The body of the loop over [subs] that restarts the filters. *)
Definition pollSubscription (checkpoint : option (gmap string Z))
    (sub : subscription) : option (gmap string Z) * subscription :=
  let id := info_ID (info sub) in
  let '(checkpoint, sub) :=
    if resetRequested sub
    then (delete id <$> checkpoint, unsubscribe false sub)
    else (checkpoint, sub) in
  let sub :=
    if filterStale sub && negb (deleting sub) then
      let entry := checkpoint ≫= (.!! id) in
      let '(sub, blockHeight) :=
        match entry with
        | Some h =>
          if h <=? 0 then setInitialBlockHeight sub
          else (setCheckpointBlockHeight h sub, Some h)
        | None => setInitialBlockHeight sub
        end in
      match blockHeight with
      | Some h => (restartFilter h sub).1
      | None => sub
      end
    else sub in
  (checkpoint, sub).

Fixpoint pollSubscriptions (checkpoint : option (gmap string Z))
    (subs : list subscription) : option (gmap string Z) * list subscription :=
  match subs with
  | [] => (checkpoint, [])
  | sub :: subs' =>
    let '(checkpoint, sub) := pollSubscription checkpoint sub in
    let '(checkpoint, subs') := pollSubscriptions checkpoint subs' in
    (checkpoint, sub :: subs')
  end.

Definition markAllSubscriptionsStale (subs : list subscription)
  : list subscription :=
  markFilterStale true <$> subs.

End Poller.

(** "Record a new checkpoint if needed": the loop over [subs] on a
    checkpoint that is not nil; the boolean is [changed]. *)
Fixpoint recordCheckpoint (checkpoint : gmap string Z) (changed : bool)
    (subs : list subscription) : gmap string Z * bool :=
  match subs with
  | [] => (checkpoint, changed)
  | sub :: subs' =>
    let i1 := default 0 (checkpoint !! info_ID (info sub)) in
    let i2 := blockHWM sub in
    let changed := changed || (i1 =? 0) || negb (i1 =? i2) in
    recordCheckpoint (<[info_ID (info sub) := i2]> checkpoint) changed subs'
  end.

Section PollerIteration.
Context `{SubscriptionMethods}.

(** The body of the loop of [eventPoller] as far as the comment "Record
    a new checkpoint if needed".  [load] is what [sm.loadCheckpoint]
    returns (the map, and whether it failed), [subs] what
    [sm.subscriptionsForStream] returns. *)
Definition pollerFilters (load : option (gmap string Z) * bool)
    (a : eventStream) (checkpoint : option (gmap string Z))
    (subs : list subscription)
  : option (gmap string Z) * list subscription :=
  let '(checkpoint, err) :=
    match checkpoint with
    | None => load
    | Some c => (Some c, false)
    end in
  if negb err && negb (isBlocked a)
  then pollSubscriptions checkpoint subs
  else (checkpoint, subs).

(** The body of the loop up to the [select].  The result is the local
    [checkpoint], the subscriptions, and the map handed to
    [sm.storeCheckpoint] when it is called. *)
Definition pollerIteration (load : option (gmap string Z) * bool)
    (a : eventStream) (checkpoint : option (gmap string Z))
    (subs : list subscription)
  : option (gmap string Z) * list subscription * option (gmap string Z) :=
  let '(checkpoint, subs) := pollerFilters load a checkpoint subs in
  match checkpoint with
  | Some c =>
    let '(c, changed) := recordCheckpoint c false subs in
    (Some c, subs, if changed then Some c else None)
  | None => (None, subs, None)
  end.

End PollerIteration.

(** ** The key-value store

    Modelled from the spec: the [kvstore] package is not part of the
    sources.  A record is the value that was serialised under its key;
    [Put] overwrites, and the caller is told whether it failed; whether
    a [Get] or a [Delete] fails is an argument of the calls that read
    and delete. *)

Inductive record : Type :=
| streamRecord (info : StreamInfo)
| subscriptionRecord (info : SubscriptionInfo)
| checkpointRecord (checkpoint : gmap string Z).

Record KVStore : Type := {
  records : gmap string record;
  closes : nat;
}.

Definition Put (key : string) (v : record) (db : KVStore) : KVStore :=
  {| records := <[key := v]> (records db); closes := closes db |}.

Definition Delete (key : string) (db : KVStore) : KVStore :=
  {| records := delete key (records db); closes := closes db |}.

Definition db_Close (db : KVStore) : KVStore :=
  {| records := records db; closes := S (closes db) |}.

(** ** The subscription manager *)

Definition checkpointIDPrefix : string := "cp-".

Record subscriptionMGR : Type := {
  config : EventstreamConf;
  db : option KVStore;
  subscriptions : gmap string subscription;
  streams : gmap string eventStream;
  closed : bool;
}.

Definition set_db (v : option KVStore) (s : subscriptionMGR) : subscriptionMGR :=
  {| config := config s; db := v; subscriptions := subscriptions s;
     streams := streams s; closed := closed s |}.

Definition set_streams (v : gmap string eventStream) (s : subscriptionMGR)
  : subscriptionMGR :=
  {| config := config s; db := db s; subscriptions := subscriptions s;
     streams := v; closed := closed s |}.

Definition streamByID (id : string) (s : subscriptionMGR) : error + eventStream :=
  match streams s !! id with
  | Some stream => inr stream
  | None => inl (EventStreamsStreamNotFound id)
  end.

Definition StreamByID (streamID : string) (s : subscriptionMGR)
  : RestError + StreamInfo :=
  match streamByID streamID s with
  | inl err => inl (NewRestError err 404)
  | inr stream => inr (spec stream)
  end.

Definition subscriptionsForStream (id : string) (s : subscriptionMGR)
  : list subscription :=
  filter (fun sub => info_Stream (info sub) = id) (map_to_list (subscriptions s)).*2.

(** [put_fails] tells whether [s.db.Put] returns an error; a nil [db]
    is a nil dereference. *)
Definition storeStream (put_fails : bool) (spec : StreamInfo) (s : subscriptionMGR)
  : outcome (subscriptionMGR * (error + StreamInfo)) :=
  match db s with
  | None => Panicked "nil pointer dereference"
  | Some kv =>
    if put_fails then Returned (s, inl EventStreamsCreateStreamStoreFailed)
    else Returned (set_db (Some (Put (ID spec) (streamRecord spec) kv)) s, inr spec)
  end.

(** [get_fails] tells whether [s.db.Get] returns an error other than
    [leveldb.ErrNotFound], which is returned as it is.  A missing key
    is an empty checkpoint; a value that does not decode as a
    checkpoint is an error. *)
Definition loadCheckpoint (get_fails : bool) (streamID : string)
    (s : subscriptionMGR) : outcome (option (gmap string Z) * bool) :=
  match db s with
  | None => Panicked "nil pointer dereference"
  | Some kv =>
    if get_fails then Returned (None, true) else
    match records kv !! (checkpointIDPrefix +:+ streamID) with
    | None => Returned (Some ∅, false)
    | Some (checkpointRecord checkpoint) => Returned (Some checkpoint, false)
    | Some _ => Returned (None, true)
    end
  end.

Definition storeCheckpoint (put_fails : bool) (streamID : string)
    (checkpoint : gmap string Z) (s : subscriptionMGR) : outcome subscriptionMGR :=
  match db s with
  | None => Panicked "nil pointer dereference"
  | Some kv =>
    if put_fails then Returned s
    else Returned (set_db (Some (Put (checkpointIDPrefix +:+ streamID)
                                     (checkpointRecord checkpoint) kv)) s)
  end.

(** The pointer [stream] stays in the map: what a call does to the
    stream is written back under its key. *)
Definition put_stream (streamID : string) (stream : eventStream)
    (s : subscriptionMGR) : subscriptionMGR :=
  set_streams (<[streamID := stream]> (streams s)) s.

Section Manager.
Context `{Externals}.

(** [body] is the decoded request body, [None] when it does not decode. *)
Definition UpdateStream (sched : list step) (put_fails : bool)
    (streamID : string) (body : option StreamInfo) (s : subscriptionMGR)
  : outcome (subscriptionMGR * (RestError + StreamInfo)) :=
  match streamByID streamID s with
  | inl err => Returned (s, inl (NewRestError err 404))
  | inr stream =>
    match body with
    | None => Returned (s, inl (NewRestError RESTGatewayEventStreamInvalid 400))
    | Some newSpec =>
      '(stream, res, _) ← update sched newSpec stream;
      let s := put_stream streamID stream s in
      match res with
      | inl err => Returned (s, inl (NewRestError err 500))
      | inr updatedSpec =>
        '(s, stored) ← storeStream put_fails updatedSpec s;
        match stored with
        | inl err => Returned (s, inl (NewRestError err 500))
        | inr streamInfo => Returned (s, inr streamInfo)
        end
      end
    end
  end.

Definition SuspendStream (put_fails : bool) (streamID : string)
    (s : subscriptionMGR) : outcome (subscriptionMGR * (RestError + string)) :=
  match streamByID streamID s with
  | inl err => Returned (s, inl (NewRestError err 404))
  | inr stream =>
    let stream := suspend stream in
    let s := put_stream streamID stream s in
    '(s, stored) ← storeStream put_fails (spec stream) s;
    match stored with
    | inl err => Returned (s, inl (NewRestError err 500))
    | inr _ => Returned (s, inr streamID)
    end
  end.

Definition ResumeStream (put_fails : bool) (streamID : string)
    (s : subscriptionMGR) : outcome (subscriptionMGR * (RestError + string)) :=
  match streamByID streamID s with
  | inl err => Returned (s, inl (NewRestError err 404))
  | inr stream =>
    let '(stream, err) := resume stream in
    let s := put_stream streamID stream s in
    match err with
    | Some err => Returned (s, inl (NewRestError err 500))
    | None =>
      '(s, stored) ← storeStream put_fails (spec stream) s;
      match stored with
      | inl err => Returned (s, inl (NewRestError err 500))
      | inr _ => Returned (s, inr streamID)
      end
    end
  end.

End Manager.

(** The loop of [Close] over the streams. *)
Fixpoint stopStreams (l : list (string * eventStream))
  : outcome (list (string * eventStream)) :=
  match l with
  | [] => Returned []
  | (id, stream) :: l' =>
    stream ← stop stream;
    l' ← stopStreams l';
    Returned ((id, stream) :: l')
  end.

Section Close.
Context `{SubscriptionMethods}.

Definition Close (s : subscriptionMGR) : outcome subscriptionMGR :=
  stopped ← stopStreams (map_to_list (streams s));
  let subs := closeSubscription <$> subscriptions s in
  let kv :=
    if negb (closed s) then db_Close <$> db s else db s in
  Returned {| config := config s; db := kv; subscriptions := subs;
              streams := list_to_map stopped; closed := true |}.

End Close.

(** ** The address check of the webhook action *)

(** [net.IP] is a slice of bytes, [To4] its 4-byte form or nil. *)
Definition octet (b : byte) : Z := Z.of_N (Byte.to_N b).

Definition To4 (ip : list byte) : list byte :=
  match ip with
  | [_; _; _; _] => ip
  | [z0; z1; z2; z3; z4; z5; z6; z7; z8; z9; f0; f1; b0; b1; b2; b3] =>
    if forallb (fun z => octet z =? 0) [z0; z1; z2; z3; z4; z5; z6; z7; z8; z9]
       && (octet f0 =? 255) && (octet f1 =? 255)
    then [b0; b1; b2; b3] else []
  | _ => []
  end.

(** Indexing a slice. *)
Definition index (s : list byte) (i : nat) : outcome Z :=
  match s !! i with
  | Some b => Returned (octet b)
  | None => Panicked "index out of range"
  end.

(** The operators that evaluate their right operand on demand. *)
Definition orelse (x y : outcome bool) : outcome bool :=
  b ← x; if b : bool then Returned true else y.

Definition andalso (x y : outcome bool) : outcome bool :=
  b ← x; if b : bool then y else Returned false.

Definition isAddressUnsafe (a : eventStream) (ip : list byte) : outcome bool :=
  let ip4 := To4 ip in
  let eq (i : nat) (v : Z) : outcome bool := x ← index ip4 i; Returned (x =? v) in
  let ge (i : nat) (v : Z) : outcome bool := x ← index ip4 i; Returned (v <=? x) in
  let lt (i : nat) (v : Z) : outcome bool := x ← index ip4 i; Returned (x <? v) in
  andalso (Returned (negb (allowPrivateIPs a)))
    (orelse (eq 0%nat 0)
    (orelse (ge 0%nat 224)
    (orelse (eq 0%nat 127)
    (orelse (eq 0%nat 10)
    (orelse (andalso (eq 0%nat 172) (andalso (ge 1%nat 16) (lt 1%nat 32)))
            (andalso (eq 0%nat 192) (eq 1%nat 168))))))).

(** The address blocks as the spec writes them: an IPv4 address as a
    32-bit number, a block as a base address and a prefix length. *)
Definition in_block (base : Z) (prefix : Z) (addr : Z) : bool :=
  Z.shiftr addr (32 - prefix) =? Z.shiftr base (32 - prefix).

Definition dotted (o0 o1 o2 o3 : Z) : Z :=
  o0 * 2 ^ 24 + o1 * 2 ^ 16 + o2 * 2 ^ 8 + o3.

Definition rejected_block (addr : Z) : bool :=
  in_block (dotted 0 0 0 0) 8 addr
  || in_block (dotted 10 0 0 0) 8 addr
  || in_block (dotted 127 0 0 0) 8 addr
  || in_block (dotted 172 16 0 0) 12 addr
  || in_block (dotted 192 168 0 0) 16 addr
  || (dotted 224 0 0 0 <=? addr).

(** ** Histories of a stream

    Everything that can happen to a stream once it is constructed: a
    turn of one of its goroutines, a call that races with them, a
    resume, and the second half of an update once its wait returns. *)

Inductive operation : Type :=
| opStep (s : step)
| opControl (c : control)
| opResume
| opApply (newSpec : StreamInfo).

Section Histories.
Context `{Externals}.

Definition perform (o : operation) (a : eventStream)
  : outcome (eventStream * list effect) :=
  match o with
  | opStep s => iterate s a
  | opControl c => a ← interfere1 c a; Returned (a, [])
  | opResume => Returned ((resume a).1, [])
  | opApply newSpec =>
    a ← wgWait a;
    '(a, _) ← update_apply newSpec a;
    Returned (a, [])
  end.

Fixpoint execute (ops : list operation) (a : eventStream)
  : outcome (eventStream * list effect) :=
  match ops with
  | [] => Returned (a, [])
  | o :: ops' =>
    '(a, effs) ← perform o a;
    '(a', effs') ← execute ops' a;
    Returned (a', effs ++ effs')
  end.

End Histories.

(** The number of events the dispatcher took from the channel. *)
Fixpoint accepted (effs : list effect) : Z :=
  match effs with
  | [] => 0
  | Accepted _ :: effs' => 1 + accepted effs'
  | _ :: effs' => accepted effs'
  end.

(** The number of events in the batches marked processed. *)
Fixpoint processed_events (effs : list effect) : Z :=
  match effs with
  | [] => 0
  | Processed events :: effs' => Z.of_nat (length events) + processed_events effs'
  | _ :: effs' => processed_events effs'
  end.

(** The calls of [batchComplete], in order. *)
Definition batchCompletes (effs : list effect) : list EventEntry :=
  omap (fun e => match e with BatchComplete x => Some x | _ => None end) effs.

(** The deliveries to the sink, in order. *)
Definition attempts (effs : list effect) : list (list EventEntry) :=
  omap (fun e => match e with Attempted _ _ events => Some events | _ => None end) effs.

(** The last event of subscription [id] in a batch. *)
Definition last_for (id : string) (events : list eventData) : option eventData :=
  last (filter (fun e => SubID (event e) = id) events).

(** ** Sample environment

    A parser that rejects control characters, which [url.Parse] does
    before anything else. *)
Definition is_control (c : ascii) : bool :=
  ((nat_of_ascii c <? 32) || (nat_of_ascii c =? 127))%nat.

Fixpoint has_control (s : string) : bool :=
  match s with
  | EmptyString => false
  | String c r => is_control c || has_control r
  end.

(** Modelled from the spec: the webhook constructor, which is not part
    of the sources; the URL must be present and parse, and
    [requestTimeoutSec] defaults to 120. *)
Definition sampleWebhookAction (w : option webhookActionInfo)
  : error + webhookActionInfo :=
  match w with
  | None => inl EventStreamsWebhookNoURL
  | Some w =>
    if String.eqb (URL w) "" then inl EventStreamsWebhookNoURL
    else if has_control (URL w) then inl EventStreamsWebhookInvalidURL
    else inr {| URL := URL w; Headers := Headers w;
                TLSkipHostVerify := TLSkipHostVerify w;
                RequestTimeoutSec :=
                  if RequestTimeoutSec w =? 0 then 120 else RequestTimeoutSec w |}
  end.

(** Modelled from the spec: the WebSocket constructor, which is not part
    of the sources; it keeps the configuration it is given. *)
Definition sampleWebSocketAction (w : option webSocketActionInfo)
  : error + option webSocketActionInfo := inr w.

(** The strings of the examples are ASCII, so that the mapping of the
    other strings is not consulted; it lowers the ASCII letters and
    leaves the other bytes. *)
Definition sampleExternals : Externals :=
  {| urlParse := fun s => negb (has_control s);
     newWebhookAction := sampleWebhookAction;
     newWebSocketAction := sampleWebSocketAction;
     unicodeToLower := lowerBytes |}.

(** Modelled from the spec: the methods of a subscription as section 4.2
    of the spec describes them, against a ledger at height 100 that
    accepts every registration. *)
Definition sampleMethods : SubscriptionMethods :=
  {| unsubscribe := fun del sub =>
       {| info := info sub; resetRequested := false; filterStale := true;
          deleting := del || deleting sub; blockHWM := blockHWM sub |};
     setInitialBlockHeight := fun sub => (sub, Some 100);
     setCheckpointBlockHeight := fun h sub =>
       {| info := info sub; resetRequested := resetRequested sub;
          filterStale := filterStale sub; deleting := deleting sub;
          blockHWM := h |};
     restartFilter := fun h sub =>
       ({| info := info sub; resetRequested := resetRequested sub;
           filterStale := false; deleting := deleting sub;
           blockHWM := blockHWM sub |}, false);
     markFilterStale := fun stale sub =>
       {| info := info sub; resetRequested := resetRequested sub;
          filterStale := stale; deleting := deleting sub;
          blockHWM := blockHWM sub |};
     closeSubscription := fun sub =>
       {| info := info sub; resetRequested := false; filterStale := true;
          deleting := deleting sub; blockHWM := blockHWM sub |} |}.

(** A webhook stream and its manager, for the examples. *)
Definition sampleConf : EventstreamConf :=
  {| PollingIntervalSec := 1; WebhooksAllowPrivateIPs := false |}.

Definition sampleInfo : StreamInfo :=
  {| CreatedISO8601 := "2021-01-01T00:00:00Z"; ID := "es-1"; Name := "";
     Path := "/eventstreams/es-1"; Suspended := false; Type_ := "webhook";
     BatchSize := 0; BatchTimeoutMS := 0; ErrorHandling := "";
     RetryTimeoutSec := 0; BlockedRetryDelaySec := 0;
     Webhook := Some {| URL := "http://hook.example/in"; Headers := ∅;
                        TLSkipHostVerify := false; RequestTimeoutSec := 0 |};
     WebSocket := None; Timestamps := false; TimestampCacheSize := 0 |}.

Definition sampleStream : eventStream := Eval vm_compute in
  match @newEventStream sampleExternals sampleConf (Some sampleInfo) with
  | inr a => a
  | inl _ =>
    {| spec := sampleInfo; allowPrivateIPs := false; eventStream_chan := chanOpen;
       stopped := false; processorDone := false; pollingInterval := 0;
       pollerDone := false; inFlight := 0; batchQueue := []; batchCount := 0;
       updateInProgress := false; updateInterrupt := chanOpen; updateWG := 0;
       action := webhookAction; goroutines := [] |}
  end.

Definition sampleManager : subscriptionMGR :=
  {| config := sampleConf;
     db := Some {| records := {["es-1" := streamRecord (spec sampleStream)]};
                   closes := 0 |};
     subscriptions := ∅;
     streams := {["es-1" := sampleStream]};
     closed := false |}.

Definition sampleEvent (block : Z) : eventData :=
  {| event := {| SubID := "sb-1"; BlockNumber := block; TransactionId := "tx";
                 TransactionIndex := 0; EventName := "ev" |} |}.

(** A batch that the sink accepts at the first attempt. *)
Definition delivered : batch_env :=
  {| batch_attempts :=
       [ {| attempt_before := []; attempt_wake := wakeTimer;
            attempt_retries :=
              [ {| retry_before := []; retry_wake := wakeTimer;
                   retry_failed := false; retry_expired := false |} ] |} ];
     batch_after := [] |}.

Definition idle : batch_env := {| batch_attempts := []; batch_after := [] |}.

(** The goroutines of a fresh stream leave on the interrupt: the
    processor, the poller, the dispatcher. *)
Definition quiesce : list step :=
  [ stepProcessor 1 idle; stepPoller 0 wakeInterrupt; stepDispatcher 0 recvInterrupt ].

(** ** What the goroutines leave alone

    The settings of a stream are its specification without the
    [Suspended] flag, which [suspend] and [resume] assign. *)
Definition settings (s : StreamInfo) : StreamInfo := set_Suspended false s.

(** What no turn of a goroutine and no racing call undoes or changes. *)
Record frame (a a' : eventStream) : Prop := {
  frame_settings : settings (spec a') = settings (spec a);
  frame_suspended : Suspended (spec a) = true -> Suspended (spec a') = true;
  frame_stopped : stopped a = true -> stopped a' = true;
  frame_allow : allowPrivateIPs a' = allowPrivateIPs a;
  frame_action : action a' = action a;
  frame_interval : pollingInterval a' = pollingInterval a;
  frame_progress : updateInProgress a = true -> updateInProgress a' = true;
  frame_interrupt :
    updateInterrupt a = chanClosed -> updateInterrupt a' = chanClosed;
}.

(** A change of the control flags and of the wait group counter only. *)
Record evolves (dWG : Z) (a a' : eventStream) : Prop := {
  evolves_frame : frame a a';
  evolves_inFlight : inFlight a' = inFlight a;
  evolves_queue : batchQueue a' = batchQueue a;
  evolves_count : batchCount a' = batchCount a;
  evolves_goroutines : goroutines a' = goroutines a;
  evolves_processorDone : processorDone a' = processorDone a;
  evolves_pollerDone : pollerDone a' = pollerDone a;
  evolves_WG : updateWG a' = updateWG a + dWG;
}.

(** Effects that are deliveries to the sink, all of them. *)
Definition attempts_only (effs : list effect) : Prop :=
  Forall (fun e => match e with Attempted _ _ _ => True | _ => False end) effs.

(** The calls of [batchComplete] at the end of [processBatch]. *)
Definition acknowledgements (events : list eventData) : list effect :=
  (fun e => BatchComplete (event e.2)) <$> map_to_list (callbacks events).

(** The events waiting in the queue, and those in the hands of the
    dispatchers. *)
Definition queued (a : eventStream) : Z :=
  Z.of_nat (length (concat (batchQueue a))).

Definition held (g : goroutine) : Z :=
  match g with
  | goBatchDispatcher currentBatch => Z.of_nat (length currentBatch)
  | _ => 0
  end.

Fixpoint buffered (gs : list goroutine) : Z :=
  match gs with
  | [] => 0
  | g :: gs' => held g + buffered gs'
  end.

(** The entry of a subscription is zero or missing, or is not its high
    water mark: the test that sets [changed]. *)
Definition outdated (checkpoint : gmap string Z) (sub : subscription) : Prop :=
  default 0 (checkpoint !! info_ID (info sub)) = 0
  \/ default 0 (checkpoint !! info_ID (info sub)) <> blockHWM sub.

Definition sampleSubscription (hwm : Z) : subscription :=
  {| info := {| info_ID := "sb-1"; info_Stream := "es-1"; FromBlock := "newest" |};
     resetRequested := false; filterStale := false; deleting := false;
     blockHWM := hwm |}.


(** The calls of [batchComplete] for subscription [id]. *)
Definition completions_for (id : string) (effs : list effect) : list EventEntry :=
  filter (fun x => SubID x = id) (batchCompletes effs).


(** What a turn changes in the counts: [inFlight] moves with the events
    accepted and processed, and no event is processed that was not
    accepted before. *)
Definition accounted (a a' : eventStream) (effs : list effect) : Prop :=
  (forall x : Z,
     inFlight a = wrap64 x ->
     inFlight a' = wrap64 (x + accepted effs - processed_events effs))
  /\ processed_events effs + queued a' + buffered (goroutines a')
     <= queued a + buffered (goroutines a) + accepted effs.

(** The wait group counts every goroutine of the stream. *)
Definition counted (a : eventStream) : Prop :=
  Z.of_nat (length (goroutines a)) <= updateWG a.


(** A request body that asks for a type and a batch size. *)
Definition sampleUpdate (type : string) (batchSize : Z) : StreamInfo :=
  {| CreatedISO8601 := ""; ID := ""; Name := ""; Path := ""; Suspended := false;
     Type_ := type; BatchSize := batchSize; BatchTimeoutMS := 0;
     ErrorHandling := ""; RetryTimeoutSec := 0; BlockedRetryDelaySec := 0;
     Webhook := None; WebSocket := None; Timestamps := false;
     TimestampCacheSize := 0 |}.

(** The goroutines leave on the interrupt, the dispatcher after one
    more event, which fills a batch that nobody takes. *)
Definition quiesce_late : list step :=
  [ stepProcessor 1 idle; stepPoller 0 wakeInterrupt;
    stepDispatcher 0 (recvEvent (Some (sampleEvent 7)));
    stepDispatcher 0 recvInterrupt ].


(** A stream as [startEventHandlers(false)] leaves it, running: its
    three goroutines counted by the wait group, nothing queued. *)
Record running (a : eventStream) : Prop := {
  running_unsuspended : Suspended (spec a) = false;
  running_unstopped : stopped a = false;
  running_queue : batchQueue a = [];
  running_interrupt : updateInterrupt a = chanOpen;
  running_WG : updateWG a = 3;
  running_goroutines :
    goroutines a = [goEventPoller; goBatchProcessor; goBatchDispatcher []];
}.


(** ** What an update may change

    The fields of a specification that no statement of the stream
    assigns once the stream is constructed. *)
Definition immutable (s : StreamInfo)
  : string * string * string * string * Z * Z :=
  (CreatedISO8601 s, ID s, Path s, Type_ s, RetryTimeoutSec s,
   TimestampCacheSize s).

(** The ranges that the constructor establishes. *)
Record normalised (s : StreamInfo) : Prop := {
  normalised_size : 1 <= BatchSize s <= MaxBatchSize;
  normalised_timeout : BatchTimeoutMS s <> 0;
  normalised_delay : BlockedRetryDelaySec s <> 0;
  normalised_cache : TimestampCacheSize s <> 0;
  normalised_handling :
    ErrorHandling s = ErrorHandlingBlock \/ ErrorHandling s = ErrorHandlingSkip;
}.

(** The batch sizes of the requests are values of [uint64]. *)
Definition unsigned_sizes (ops : list operation) : Prop :=
  Forall (fun o => match o with
                   | opApply newSpec => 0 <= BatchSize newSpec
                   | _ => True
                   end) ops.

(** A history with a delivery and an update in it. *)
Definition sampleHistory : list operation :=
  [ opStep (stepDispatcher 2 (recvEvent (Some (sampleEvent 7))));
    opStep (stepProcessor 1 delivered);
    opControl ctlUpdate;
    opStep (stepProcessor 1 idle);
    opStep (stepPoller 0 wakeInterrupt);
    opStep (stepDispatcher 0 recvInterrupt);
    opApply (sampleUpdate "" 50);
    opStep (stepDispatcher 2 (recvEvent (Some (sampleEvent 8)))) ].

(** A WebSocket stream and its manager, for the examples. *)
Definition sampleSocketInfo : StreamInfo :=
  {| CreatedISO8601 := "2021-01-01T00:00:00Z"; ID := "es-2"; Name := "";
     Path := "/eventstreams/es-2"; Suspended := false; Type_ := "WebSocket";
     BatchSize := 10; BatchTimeoutMS := 0; ErrorHandling := "Block";
     RetryTimeoutSec := 0; BlockedRetryDelaySec := 0;
     Webhook := None;
     WebSocket := Some {| Topic := "topic-1";
                          DistributionMode := DistributionModeBroadcast |};
     Timestamps := true; TimestampCacheSize := 0 |}.

Definition sampleSocketStream : eventStream := Eval vm_compute in
  match @newEventStream sampleExternals sampleConf (Some sampleSocketInfo) with
  | inr a => a
  | inl _ => sampleStream
  end.



(** A request body for a webhook stream. *)
Definition sampleHookUpdate (url : string) : StreamInfo :=
  {| CreatedISO8601 := ""; ID := ""; Name := "renamed"; Path := "";
     Suspended := false; Type_ := ""; BatchSize := 0; BatchTimeoutMS := 0;
     ErrorHandling := "BLOCK"; RetryTimeoutSec := 0; BlockedRetryDelaySec := 0;
     Webhook := Some {| URL := url; Headers := ∅; TLSkipHostVerify := true;
                        RequestTimeoutSec := 0 |};
     WebSocket := None; Timestamps := false; TimestampCacheSize := 0 |}.

(** ** Goroutines that left without telling the wait group

    The counter of the wait group beyond the goroutines that are
    there. *)
Definition surplus (a : eventStream) : Z :=
  updateWG a - Z.of_nat (length (goroutines a)).

(** Effects without a delivery, a batch marked processed or an
    acknowledgement. *)
Definition quiet (effs : list effect) : Prop :=
  attempts effs = [] /\ processed_events effs = 0 /\ batchCompletes effs = [].

(** A stream suspended while an update waits for its goroutines, the
    processor gone already. *)
Definition sampleSuspended : eventStream := Eval vm_compute in
  match @execute sampleExternals
          [ opControl ctlUpdate; opStep (stepProcessor 1 idle);
            opControl ctlSuspend ] sampleStream with
  | Returned (a, _) => a
  | _ => sampleStream
  end.

(** A stopped stream. *)
Definition sampleStopped : eventStream := Eval vm_compute in
  match stop sampleStream with
  | Returned a => a
  | _ => sampleStream
  end.

(** ** A sink that refuses

    Every result of [attemptBatch] in the environment is an error. *)
Definition always_fails (env : batch_env) : Prop :=
  Forall (fun t => Forall (fun r => retry_failed r = true) (attempt_retries t))
         (batch_attempts env).

(** A round of one attempt that fails and runs out of time; the stream
    is suspended before the next round ([suspended_after]) or not. *)
Definition refused (suspended_after : bool) : batch_env :=
  {| batch_attempts :=
       [ {| attempt_before := []; attempt_wake := wakeTimer;
            attempt_retries :=
              [ {| retry_before := []; retry_wake := wakeTimer;
                   retry_failed := true; retry_expired := true |} ] |};
         {| attempt_before := if suspended_after then [ctlSuspend] else [];
            attempt_wake := wakeTimer;
            attempt_retries :=
              [ {| retry_before := []; retry_wake := wakeTimer;
                   retry_failed := true; retry_expired := true |} ] |} ];
     batch_after := [] |}.

(** ** The batches

    A dispatcher with room left in its current batch. *)
Definition room (size : Z) (g : goroutine) : Prop :=
  match g with
  | goBatchDispatcher currentBatch => Z.of_nat (length currentBatch) < size
  | _ => True
  end.

(** The batches in the queue are not empty and not above the batch
    size, and no dispatcher holds a full batch. *)
Record batches_bounded (a : eventStream) : Prop := {
  bounded_queue :
    Forall (fun batch => 1 <= Z.of_nat (length batch) <= BatchSize (spec a))
           (batchQueue a);
  bounded_held : Forall (room (BatchSize (spec a))) (goroutines a);
}.

(** Histories without the second half of an update, and without a
    resume. *)
Definition no_update (o : operation) : Prop :=
  match o with opApply _ => False | _ => True end.

Definition no_resume (o : operation) : Prop :=
  match o with opResume => False | _ => True end.

(** The events the dispatchers took from the channel, in order. *)
Fixpoint accepted_events (effs : list effect) : list eventData :=
  match effs with
  | [] => []
  | Accepted e :: effs' => e :: accepted_events effs'
  | _ :: effs' => accepted_events effs'
  end.

(** The events of the batches marked processed, in order. *)
Fixpoint processed_trace (effs : list effect) : list eventData :=
  match effs with
  | [] => []
  | Processed events :: effs' => events ++ processed_trace effs'
  | _ :: effs' => processed_trace effs'
  end.

(** The events in the current batches of the dispatchers. *)
Fixpoint in_hand (gs : list goroutine) : list eventData :=
  match gs with
  | [] => []
  | goBatchDispatcher currentBatch :: gs' => currentBatch ++ in_hand gs'
  | _ :: gs' => in_hand gs'
  end.

Fixpoint dispatchers (gs : list goroutine) : nat :=
  match gs with
  | [] => 0
  | goBatchDispatcher _ :: gs' => S (dispatchers gs')
  | _ :: gs' => dispatchers gs'
  end.

(** The events accepted and not yet taken by the processor. *)
Definition pending (a : eventStream) : list eventData :=
  concat (batchQueue a) ++ in_hand (goroutines a).

(** A history with suspends, resumes and deliveries in it. *)
Definition sampleDeliveries : list operation :=
  [ opStep (stepDispatcher 2 (recvEvent (Some (sampleEvent 7))));
    opStep (stepDispatcher 2 (recvEvent (Some (sampleEvent 8))));
    opStep (stepProcessor 1 delivered);
    opControl ctlSuspend;
    opStep (stepProcessor 1 delivered);
    opStep (stepPoller 0 wakeTimer);
    opResume;
    opStep (stepProcessor 2 delivered);
    opStep (stepDispatcher 0 (recvEvent (Some (sampleEvent 9)))) ].

(** ** The checkpoint of a stream

    The last subscription with identifier [id] in a list. *)
Definition last_with (id : string) (subs : list subscription)
  : option subscription :=
  last (filter (fun sub => info_ID (info sub) = id) subs).

(** A subscription with identifier [id] has a reset requested. *)
Definition reset_requested (id : string) (subs : list subscription) : bool :=
  existsb (fun sub => bool_decide (info_ID (info sub) = id) && resetRequested sub)
          subs.

(** A specification without the two sections that the action
    constructors own. *)
Definition plain (s : StreamInfo) : StreamInfo :=
  set_WebSocket None (set_Webhook None s).

(** ** More of the subscription manager *)

Definition StreamPathPrefix : string := "/eventstreams".
Definition streamIDPrefix : string := "es-".

Definition set_CreatedISO8601 (v : string) (s : StreamInfo) : StreamInfo :=
  {| CreatedISO8601 := v; ID := ID s; Name := Name s; Path := Path s;
     Suspended := Suspended s; Type_ := Type_ s; BatchSize := BatchSize s;
     BatchTimeoutMS := BatchTimeoutMS s; ErrorHandling := ErrorHandling s;
     RetryTimeoutSec := RetryTimeoutSec s;
     BlockedRetryDelaySec := BlockedRetryDelaySec s; Webhook := Webhook s;
     WebSocket := WebSocket s; Timestamps := Timestamps s;
     TimestampCacheSize := TimestampCacheSize s |}.

Definition set_ID (v : string) (s : StreamInfo) : StreamInfo :=
  {| CreatedISO8601 := CreatedISO8601 s; ID := v; Name := Name s; Path := Path s;
     Suspended := Suspended s; Type_ := Type_ s; BatchSize := BatchSize s;
     BatchTimeoutMS := BatchTimeoutMS s; ErrorHandling := ErrorHandling s;
     RetryTimeoutSec := RetryTimeoutSec s;
     BlockedRetryDelaySec := BlockedRetryDelaySec s; Webhook := Webhook s;
     WebSocket := WebSocket s; Timestamps := Timestamps s;
     TimestampCacheSize := TimestampCacheSize s |}.

Definition set_Path (v : string) (s : StreamInfo) : StreamInfo :=
  {| CreatedISO8601 := CreatedISO8601 s; ID := ID s; Name := Name s; Path := v;
     Suspended := Suspended s; Type_ := Type_ s; BatchSize := BatchSize s;
     BatchTimeoutMS := BatchTimeoutMS s; ErrorHandling := ErrorHandling s;
     RetryTimeoutSec := RetryTimeoutSec s;
     BlockedRetryDelaySec := BlockedRetryDelaySec s; Webhook := Webhook s;
     WebSocket := WebSocket s; Timestamps := Timestamps s;
     TimestampCacheSize := TimestampCacheSize s |}.

Definition set_subscriptions (v : gmap string subscription) (s : subscriptionMGR)
  : subscriptionMGR :=
  {| config := config s; db := db s; subscriptions := v;
     streams := streams s; closed := closed s |}.

(** [NewSubscriptionManager]: no store yet, and a polling interval of
    one second at least. *)
Definition NewSubscriptionManager (config : EventstreamConf) : subscriptionMGR :=
  {| config :=
       if PollingIntervalSec config <=? 0
       then {| PollingIntervalSec := 1;
               WebhooksAllowPrivateIPs := WebhooksAllowPrivateIPs config |}
       else config;
     db := None; subscriptions := ∅; streams := ∅; closed := false |}.

Section AddStream.
Context `{Externals}.

(** The three fields that [AddStream] writes into the decoded body;
    [uuid] is what [utils.UUIDv4] returns, [now] the formatted time. *)
Definition stamp (uuid now : string) (spec : StreamInfo) : StreamInfo :=
  let spec := set_ID (streamIDPrefix +:+ uuid) spec in
  let spec := set_CreatedISO8601 now spec in
  set_Path (StreamPathPrefix +:+ "/" +:+ ID spec) spec.

(** [body] is the decoded request body, [None] when it does not decode. *)
Definition AddStream (uuid now : string) (put_fails : bool)
    (body : option StreamInfo) (s : subscriptionMGR)
  : outcome (subscriptionMGR * (RestError + StreamInfo)) :=
  match body with
  | None => Returned (s, inl (NewRestError RESTGatewayEventStreamInvalid 400))
  | Some decoded =>
    match newEventStream (config s) (Some (stamp uuid now decoded)) with
    | inl err => Returned (s, inl (NewRestError err 500))
    | inr stream =>
      let s := put_stream (ID (spec stream)) stream s in
      '(s, stored) ← storeStream put_fails (spec stream) s;
      match stored with
      | inl err => Returned (s, inl (NewRestError err 500))
      | inr streamInfo => Returned (s, inr streamInfo)
      end
    end
  end.

End AddStream.

(** [s.db.Delete]; [delete_error] is the error of the store for a key,
    if any, and a nil [db] is a nil dereference.  Modelled from the
    spec: a deletion that fails leaves the store as it is. *)
Definition db_Delete (delete_error : string -> option error) (key : string)
    (s : subscriptionMGR) : outcome (subscriptionMGR * option error) :=
  match db s with
  | None => Panicked "nil pointer dereference"
  | Some kv =>
    match delete_error key with
    | Some err => Returned (s, Some err)
    | None => Returned (set_db (Some (Delete key kv)) s, None)
    end
  end.

Definition deleteCheckpoint (delete_error : string -> option error)
    (streamID : string) (s : subscriptionMGR) : outcome subscriptionMGR :=
  '(s, _) ← db_Delete delete_error (checkpointIDPrefix +:+ streamID) s;
  Returned s.

Section DeleteStream.
Context `{SubscriptionMethods}.

(** The subscription leaves the map, is unsubscribed, and its record is
    deleted under the identifier it has then. *)
Definition deleteSubscription (delete_error : string -> option error)
    (sub : subscription) (s : subscriptionMGR)
  : outcome (subscriptionMGR * option error) :=
  let s := set_subscriptions (delete (info_ID (info sub)) (subscriptions s)) s in
  let sub := unsubscribe true sub in
  db_Delete delete_error (info_ID (info sub)) s.

(** The loop of [DeleteStream] over [s.subscriptions]: an entry that
    was deleted before the iteration reached it is not visited. *)
Fixpoint deleteSubscriptions (delete_error : string -> option error)
    (id : string) (keys : list string) (s : subscriptionMGR)
  : outcome subscriptionMGR :=
  match keys with
  | [] => Returned s
  | k :: keys' =>
    match subscriptions s !! k with
    | Some sub =>
      if decide (info_Stream (info sub) = id) then
        '(s, _) ← deleteSubscription delete_error sub s;
        deleteSubscriptions delete_error id keys' s
      else deleteSubscriptions delete_error id keys' s
    | None => deleteSubscriptions delete_error id keys' s
    end
  end.

Definition DeleteStream (delete_error : string -> option error)
    (streamID : string) (s : subscriptionMGR)
  : outcome (subscriptionMGR * (RestError + string)) :=
  match streamByID streamID s with
  | inl err => Returned (s, inl (NewRestError err 404))
  | inr stream =>
    let id := ID (spec stream) in
    s ← deleteSubscriptions delete_error id (map_to_list (subscriptions s)).*1 s;
    let s := set_streams (delete id (streams s)) s in
    _ ← stop stream;
    '(s, err) ← db_Delete delete_error id s;
    match err with
    | Some e => Returned (s, inl (NewRestError e 500))
    | None =>
      s ← deleteCheckpoint delete_error id s;
      Returned (s, inr streamID)
    end
  end.

End DeleteStream.

(** ** Recovery

    [json.Unmarshal] of a record of a stream gives the specification
    back; [foreign] is what it makes of a value that is not the
    serialisation of a specification. *)
Section Recovery.
Context `{Externals}.
Variable foreign : record -> option StreamInfo.

Definition unmarshalStream (r : record) : option StreamInfo :=
  match r with
  | streamRecord info => Some info
  | _ => foreign r
  end.

(** The body of the loop of [recoverStreams]; the constructor writes
    into the decoded specification, the identifier apart, and the
    stream is registered under that identifier. *)
Definition recoverStream (conf : EventstreamConf)
    (streams : gmap string eventStream) (kr : string * record)
  : gmap string eventStream :=
  if String.prefix streamIDPrefix kr.1 then
    match unmarshalStream kr.2 with
    | None => streams
    | Some streamInfo =>
      match newEventStream conf (Some streamInfo) with
      | inl _ => streams
      | inr stream => <[ID streamInfo := stream]> streams
      end
    end
  else streams.

(** [recoverStreams], over the records of the store; the order of the
    iterator matters only when two records hold the same identifier. *)
Definition recoverStreams (s : subscriptionMGR) : outcome subscriptionMGR :=
  match db s with
  | None => Panicked "nil pointer dereference"
  | Some kv =>
    Returned (set_streams
                (foldl (recoverStream (config s)) (streams s)
                       (map_to_list (records kv))) s)
  end.

End Recovery.

(** A subscription of the sample WebSocket stream, and a manager that
    holds both. *)
Definition sampleSocketSubscription : subscription :=
  {| info := {| info_ID := "sb-2"; info_Stream := "es-2"; FromBlock := "newest" |};
     resetRequested := false; filterStale := false; deleting := false;
     blockHWM := 12 |}.

Definition sampleRegistry : subscriptionMGR :=
  {| config := sampleConf;
     db := Some {| records :=
                     {[ "es-1" := streamRecord (spec sampleStream);
                        "es-2" := streamRecord (spec sampleSocketStream);
                        "sb-1" := subscriptionRecord (info (sampleSubscription 5));
                        "sb-2" := subscriptionRecord (info sampleSocketSubscription);
                        "cp-es-2" := checkpointRecord {[ "sb-2" := 12 ]} ]};
                   closes := 0 |};
     subscriptions := {[ "sb-1" := sampleSubscription 5;
                         "sb-2" := sampleSocketSubscription ]};
     streams := {[ "es-1" := sampleStream; "es-2" := sampleSocketStream ]};
     closed := false |}.

(** The registry is keyed by the identifiers, as every assignment to the
    two maps has it. *)
Record keyed (s : subscriptionMGR) : Prop := {
  keyed_subscriptions :
    forall k sub, subscriptions s !! k = Some sub -> info_ID (info sub) = k;
  keyed_streams :
    forall k stream, streams s !! k = Some stream -> ID (spec stream) = k;
}.

(** What [DeleteStream] leaves of a subscription. *)
Definition unbound (id : string) (sub : subscription) : option subscription :=
  if decide (info_Stream (info sub) = id) then None else Some sub.

(** A store in which the keys of streams hold specifications, each
    under its identifier, as [storeStream] writes them. *)
Definition stream_records (kv : KVStore) : Prop :=
  forall k r,
    records kv !! k = Some r ->
    String.prefix streamIDPrefix k = true ->
    exists info, r = streamRecord info /\ ID info = k.

(** What [recoverStreams] makes of a record. *)
Definition recovered `{Externals} (conf : EventstreamConf) (k : string)
    (r : option record) : option eventStream :=
  match r with
  | Some (streamRecord info) =>
    if String.prefix streamIDPrefix k then
      match newEventStream conf (Some info) with
      | inr stream => Some stream
      | inl _ => None
      end
    else None
  | _ => None
  end.


(** The event channel of the stream is closed. *)
Definition channel_closed (a : eventStream) : Prop :=
  eventStream_chan a = chanClosed.


(** * Properties *)

(** ** Reading the result of a call *)

Lemma bind_Returned {A B} (m : outcome A) (f : A -> outcome B) (b : B) :
  m ≫= f = Returned b -> exists x, m = Returned x /\ f x = Returned b.
Proof. destruct m; simpl; intros E; try discriminate. eauto. Qed.

(** Split the hypotheses of the form [m ≫= f = Returned b]. *)
Ltac returned :=
  repeat match goal with
  | E : _ ≫= _ = Returned _ |- _ =>
    let x := fresh "x" in let E1 := fresh "E" in let E2 := fresh "E" in
    apply bind_Returned in E; destruct E as (x & E1 & E2);
    try (destruct x as [[? ?] ?] || destruct x as [? ?]); simpl in E2
  | E : Returned _ = Returned _ |- _ => inversion E; subst; clear E
  | E : Blocked = Returned _ |- _ => discriminate E
  | E : Panicked _ = Returned _ |- _ => discriminate E
  end.

(** Reduce the projections of an assigned specification. *)
Ltac info_fields :=
  cbn [CreatedISO8601 ID Name Path Suspended Type_ BatchSize BatchTimeoutMS
       ErrorHandling RetryTimeoutSec BlockedRetryDelaySec Webhook WebSocket
       Timestamps TimestampCacheSize
       set_Name set_Suspended set_Type set_BatchSize set_BatchTimeoutMS
       set_ErrorHandling set_BlockedRetryDelaySec set_Webhook set_WebSocket
       set_Timestamps set_TimestampCacheSize] in *.

(** Reduce the projections of an assigned stream. *)
Ltac stream_fields :=
  cbn [spec allowPrivateIPs eventStream_chan stopped processorDone
       pollingInterval pollerDone inFlight batchQueue batchCount
       updateInProgress updateInterrupt updateWG action goroutines
       set_spec set_eventStream_chan set_stopped set_processorDone
       set_pollerDone set_inFlight set_batchQueue set_batchCount
       set_updateInProgress set_updateInterrupt set_updateWG set_goroutines
       wgAdd go] in *.

(** ** Case-insensitive comparison *)

Lemma nat_of_lowerAscii (c : ascii) :
  nat_of_ascii (lowerAscii c)
  = if is_upper c then (nat_of_ascii c + 32)%nat else nat_of_ascii c.
Proof.
  unfold lowerAscii. destruct (is_upper c) eqn:U; [|reflexivity].
  apply nat_ascii_embedding. unfold is_upper in U.
  apply andb_prop in U as [_ U]. apply Nat.leb_le in U. lia.
Qed.

Lemma same_letter_spec (c d : ascii) :
  same_letter c d = true <-> lowerAscii c = lowerAscii d.
Proof.
  split.
  - intros S.
    rewrite <- (ascii_nat_embedding (lowerAscii c)),
            <- (ascii_nat_embedding (lowerAscii d)).
    f_equal. rewrite !nat_of_lowerAscii.
    unfold same_letter, is_upper in *.
    repeat match goal with
    | |- context [(?x <=? ?y)%nat] => destruct (Nat.leb_spec x y)
    | H : context [(?x <=? ?y)%nat] |- _ => destruct (Nat.leb_spec x y)
    | H : context [(?x =? ?y)%nat] |- _ => destruct (Nat.eqb_spec x y)
    end; simpl in *; try discriminate; lia.
  - intros L. apply (f_equal nat_of_ascii) in L.
    rewrite !nat_of_lowerAscii in L.
    unfold same_letter, is_upper in *.
    repeat match goal with
    | |- context [(?x <=? ?y)%nat] => destruct (Nat.leb_spec x y)
    | H : context [(?x <=? ?y)%nat] |- _ => destruct (Nat.leb_spec x y)
    | |- context [(?x =? ?y)%nat] => destruct (Nat.eqb_spec x y)
    end; simpl in *; try reflexivity; lia.
Qed.

Lemma EqualFold_lowerBytes (s t : string) :
  EqualFold s t = true <-> lowerBytes s = lowerBytes t.
Proof.
  revert t. induction s as [|c s IH]; intros [|d t]; simpl; try easy.
  rewrite andb_true_iff, same_letter_spec, IH. split.
  - intros [-> ->]. reflexivity.
  - intros E. inversion E. auto.
Qed.

Lemma lowerBytes_block (s : string) :
  String.eqb (lowerBytes s) ErrorHandlingBlock = EqualFold s "block".
Proof.
  destruct (EqualFold s "block") eqn:E.
  - apply EqualFold_lowerBytes in E. rewrite E. reflexivity.
  - apply String.eqb_neq. intros L. apply not_true_iff_false in E. apply E.
    apply EqualFold_lowerBytes. exact L.
Qed.

(** On a string of ASCII bytes, the comparison of the lowered string
    with "block" is the comparison that ignores the case of the
    letters. *)
Lemma ToLower_block `{Externals} (s : string) :
  isASCII s = true ->
  String.eqb (ToLower s) ErrorHandlingBlock = EqualFold s "block".
Proof.
  intros A. unfold ToLower. rewrite A. apply lowerBytes_block.
Qed.

(** ** The defaults of the constructor *)

Lemma normalise_fields `{Externals} (info : StreamInfo) :
  BatchSize (normalise info)
    = (if BatchSize info =? 0 then 1
       else if BatchSize info >? 1000 then 1000 else BatchSize info)
  /\ BatchTimeoutMS (normalise info)
    = (if BatchTimeoutMS info =? 0 then 5000 else BatchTimeoutMS info)
  /\ BlockedRetryDelaySec (normalise info)
    = (if BlockedRetryDelaySec info =? 0 then 30 else BlockedRetryDelaySec info)
  /\ TimestampCacheSize (normalise info)
    = (if TimestampCacheSize info =? 0 then 1000 else TimestampCacheSize info)
  /\ ErrorHandling (normalise info)
    = (if String.eqb (ToLower (ErrorHandling info)) "block"
       then "block" else "skip").
Proof.
  unfold normalise, MaxBatchSize, DefaultTimestampCacheSize,
    ErrorHandlingBlock, ErrorHandlingSkip.
  destruct (BatchSize info =? 0) eqn:B0;
    [|destruct (BatchSize info >? 1000) eqn:B1];
    info_fields;
    (destruct (BatchTimeoutMS info =? 0) eqn:T0; info_fields;
     destruct (BlockedRetryDelaySec info =? 0) eqn:R0; info_fields;
     destruct (String.eqb (ToLower (ErrorHandling info)) "block"); info_fields;
     destruct (TimestampCacheSize info =? 0) eqn:C0; info_fields;
     rewrite ?B0, ?B1, ?T0, ?R0, ?C0; auto).
Qed.

Section Constructor.
Context `{Externals}.

Lemma newEventStream_spec (conf : EventstreamConf) (info : StreamInfo)
    (a : eventStream) :
  newEventStream conf (Some info) = inr a ->
  exists t w ws,
    spec a = set_WebSocket ws (set_Webhook w (set_Type t (normalise info))).
Proof.
  unfold newEventStream.
  destruct (String.eqb (GetID info) ""); [discriminate|].
  set (s := set_Type _ _).
  destruct (String.eqb (Type_ s) "webhook").
  - destruct (newWebhookAction (Webhook s)); [discriminate|].
    intros E. inversion E.
    exists (ToLower (Type_ (normalise info))), (Some w), (WebSocket s). reflexivity.
  - destruct (String.eqb (Type_ s) "websocket"); [|discriminate].
    destruct (from_option validateWebSocket None (WebSocket s)); [discriminate|].
    destruct (newWebSocketAction (WebSocket s)); [discriminate|].
    intros E. inversion E.
    exists (ToLower (Type_ (normalise info))), (Webhook s), o. reflexivity.
Qed.

(** C5. For every stream specification that [newEventStream] accepts,
    the specification stored in the stream has: batch size 0 coerced to
    1 and a batch size above 1000 clamped to 1000, otherwise unchanged;
    batch timeout 0 replaced by 5000; blocked retry delay 0 replaced by
    30; timestamp cache size 0 replaced by 1000; and the error handling
    "block" when the given one is "block" once [strings.ToLower] has
    lowered it, "skip" otherwise.  For a given value of ASCII bytes
    that is: "block" when it equals "block" whatever the case of its
    letters, by a comparison defined on its own, "skip" otherwise. *)
Theorem newEventStream_defaults (conf : EventstreamConf) (info : StreamInfo)
    (a : eventStream) :
  newEventStream conf (Some info) = inr a ->
  BatchSize (spec a)
    = (if BatchSize info =? 0 then 1
       else if BatchSize info >? 1000 then 1000 else BatchSize info)
  /\ BatchTimeoutMS (spec a)
    = (if BatchTimeoutMS info =? 0 then 5000 else BatchTimeoutMS info)
  /\ BlockedRetryDelaySec (spec a)
    = (if BlockedRetryDelaySec info =? 0 then 30 else BlockedRetryDelaySec info)
  /\ TimestampCacheSize (spec a)
    = (if TimestampCacheSize info =? 0 then 1000 else TimestampCacheSize info)
  /\ ErrorHandling (spec a)
    = (if String.eqb (ToLower (ErrorHandling info)) "block"
       then "block" else "skip")
  /\ (isASCII (ErrorHandling info) = true ->
      ErrorHandling (spec a)
      = (if EqualFold (ErrorHandling info) "block" then "block" else "skip")).
Proof.
  intros E. apply newEventStream_spec in E as (t & w & ws & ->). info_fields.
  destruct (normalise_fields info) as (E1 & E2 & E3 & E4 & E5).
  repeat (split; [assumption|]).
  intros A. rewrite E5. rewrite <- (ToLower_block _ A). reflexivity.
Qed.

End Constructor.

Lemma newEventStream_defaults_witness :
  @newEventStream sampleExternals sampleConf (Some sampleInfo) = inr sampleStream
  /\ BatchSize (spec sampleStream) = 1
  /\ ErrorHandling (spec sampleStream) = "skip".
Proof.
  assert (E : @newEventStream sampleExternals sampleConf (Some sampleInfo)
              = inr sampleStream) by (vm_compute; reflexivity).
  split; [exact E|].
  pose proof (@newEventStream_defaults sampleExternals sampleConf sampleInfo
                sampleStream E) as (B & _ & _ & _ & EH & _).
  split; [exact B | exact EH].
Defined.

(** ** The address check *)

Lemma octet_range (b : byte) : 0 <= octet b < 256.
Proof.
  unfold octet. pose proof (Byte.to_N_bounded b) as B.
  split; [apply N2Z.is_nonneg|]. apply N.le_lteq in B. lia.
Qed.

Section Blocks.
Variables o0 o1 o2 o3 : Z.
Hypothesis R0 : 0 <= o0 < 256.
Hypothesis R1 : 0 <= o1 < 256.
Hypothesis R2 : 0 <= o2 < 256.
Hypothesis R3 : 0 <= o3 < 256.

Lemma block8 (base : Z) :
  0 <= base < 256 ->
  in_block (dotted base 0 0 0) 8 (dotted o0 o1 o2 o3) = (o0 =? base).
Proof.
  intros B. unfold in_block, dotted. rewrite !Z.shiftr_div_pow2 by lia.
  change (32 - 8) with 24.
  replace ((base * 2 ^ 24 + 0 * 2 ^ 16 + 0 * 2 ^ 8 + 0) / 2 ^ 24) with base
    by (apply Z.div_unique with 0; lia).
  replace ((o0 * 2 ^ 24 + o1 * 2 ^ 16 + o2 * 2 ^ 8 + o3) / 2 ^ 24) with o0
    by (apply Z.div_unique with (o1 * 2 ^ 16 + o2 * 2 ^ 8 + o3); lia).
  reflexivity.
Qed.

Lemma block12 :
  in_block (dotted 172 16 0 0) 12 (dotted o0 o1 o2 o3)
  = (o0 =? 172) && (16 <=? o1) && (o1 <? 32).
Proof.
  unfold in_block, dotted. rewrite !Z.shiftr_div_pow2 by lia.
  change (32 - 12) with 20.
  change ((172 * 2 ^ 24 + 16 * 2 ^ 16 + 0 * 2 ^ 8 + 0) / 2 ^ 20) with 2753.
  assert (E : (o0 * 2 ^ 24 + o1 * 2 ^ 16 + o2 * 2 ^ 8 + o3) / 2 ^ 20
              = o0 * 16 + o1 / 16).
  { symmetry.
    apply Z.div_unique with ((o1 mod 16) * 2 ^ 16 + o2 * 2 ^ 8 + o3).
    - pose proof (Z.mod_pos_bound o1 16 ltac:(lia)). lia.
    - pose proof (Z.div_mod o1 16 ltac:(lia)). lia. }
  rewrite E.
  pose proof (Z.div_mod o1 16 ltac:(lia)) as D.
  pose proof (Z.mod_pos_bound o1 16 ltac:(lia)) as M.
  destruct (Z.eqb_spec (o0 * 16 + o1 / 16) 2753),
    (Z.eqb_spec o0 172), (Z.leb_spec 16 o1), (Z.ltb_spec o1 32);
    simpl; try reflexivity; lia.
Qed.

Lemma block16 :
  in_block (dotted 192 168 0 0) 16 (dotted o0 o1 o2 o3)
  = (o0 =? 192) && (o1 =? 168).
Proof.
  unfold in_block, dotted. rewrite !Z.shiftr_div_pow2 by lia.
  change (32 - 16) with 16.
  change ((192 * 2 ^ 24 + 168 * 2 ^ 16 + 0 * 2 ^ 8 + 0) / 2 ^ 16) with 49320.
  replace ((o0 * 2 ^ 24 + o1 * 2 ^ 16 + o2 * 2 ^ 8 + o3) / 2 ^ 16)
    with (o0 * 256 + o1)
    by (apply Z.div_unique with (o2 * 2 ^ 8 + o3); lia).
  destruct (Z.eqb_spec (o0 * 256 + o1) 49320),
    (Z.eqb_spec o0 192), (Z.eqb_spec o1 168); simpl; try reflexivity; lia.
Qed.

Lemma block_multicast :
  (dotted 224 0 0 0 <=? dotted o0 o1 o2 o3) = (224 <=? o0).
Proof.
  unfold dotted.
  destruct (Z.leb_spec (224 * 2 ^ 24 + 0 * 2 ^ 16 + 0 * 2 ^ 8 + 0)
              (o0 * 2 ^ 24 + o1 * 2 ^ 16 + o2 * 2 ^ 8 + o3)),
    (Z.leb_spec 224 o0); try reflexivity; lia.
Qed.

Lemma rejected_block_octets :
  rejected_block (dotted o0 o1 o2 o3)
  = (o0 =? 0) || (o0 =? 10) || (o0 =? 127)
    || ((o0 =? 172) && (16 <=? o1) && (o1 <? 32))
    || ((o0 =? 192) && (o1 =? 168))
    || (224 <=? o0).
Proof.
  unfold rejected_block.
  rewrite !block8 by lia. rewrite block12, block16, block_multicast.
  reflexivity.
Qed.

End Blocks.

(** C9, as the code has it. For every address that has an IPv4 form
    (the four bytes that [To4] returns), [isAddressUnsafe] returns a
    boolean, which is true if and only if [allowPrivateIPs] is false and
    the address lies in 0/8, 10/8, 127/8, 172.16/12, 192.168/16 or has a
    first octet of 224 or more; and when [allowPrivateIPs] is true it
    returns false for every address. *)
Theorem isAddressUnsafe_ipv4 (a : eventStream) (ip : list byte) :
  (forall b0 b1 b2 b3 : byte,
     To4 ip = [b0; b1; b2; b3] ->
     isAddressUnsafe a ip
     = Returned (negb (allowPrivateIPs a)
                 && rejected_block
                      (dotted (octet b0) (octet b1) (octet b2) (octet b3))))
  /\ (allowPrivateIPs a = true -> isAddressUnsafe a ip = Returned false).
Proof.
  split.
  - intros b0 b1 b2 b3 E.
    rewrite rejected_block_octets by apply octet_range.
    unfold isAddressUnsafe. rewrite E.
    unfold andalso, orelse, index. cbn [lookup list_lookup mbind outcome_bind].
    generalize (octet b0) (octet b1). intros o0 o1.
    destruct (allowPrivateIPs a); cbn [negb andb]; [reflexivity|].
    destruct (o0 =? 0), (224 <=? o0), (o0 =? 127), (o0 =? 10), (o0 =? 172),
      (16 <=? o1), (o1 <? 32), (o0 =? 192), (o1 =? 168); reflexivity.
  - intros A. unfold isAddressUnsafe, andalso. rewrite A. reflexivity.
Qed.

Lemma isAddressUnsafe_ipv4_witness :
  isAddressUnsafe sampleStream [x0a; x01; x02; x03] = Returned true
  /\ isAddressUnsafe sampleStream [x08; x08; x08; x08] = Returned false.
Proof.
  split.
  - rewrite (proj1 (isAddressUnsafe_ipv4 sampleStream [x0a; x01; x02; x03])
               x0a x01 x02 x03 eq_refl).
    vm_compute. reflexivity.
  - rewrite (proj1 (isAddressUnsafe_ipv4 sampleStream [x08; x08; x08; x08])
               x08 x08 x08 x08 eq_refl).
    vm_compute. reflexivity.
Defined.

(** C9, as the spec states it, fails: the loopback address of IPv6 has
    no IPv4 form, and with [allowPrivateIPs] false the check indexes the
    nil slice instead of returning a boolean. *)
Lemma isAddressUnsafe_ipv6_panics :
  allowPrivateIPs sampleStream = false
  /\ isAddressUnsafe sampleStream
       [x00; x00; x00; x00; x00; x00; x00; x00;
        x00; x00; x00; x00; x00; x00; x00; x01]
     = Panicked "index out of range"
  /\ ~ exists b : bool,
         isAddressUnsafe sampleStream
           [x00; x00; x00; x00; x00; x00; x00; x00;
            x00; x00; x00; x00; x00; x00; x00; x01]
         = Returned b.
Proof.
  split; [reflexivity|]. split; [vm_compute; reflexivity|].
  intros [b E]. vm_compute in E. discriminate E.
Qed.

(** ** The checkpoint of the poller *)

Lemma recordCheckpoint_changed (subs : list subscription) :
  forall (checkpoint : gmap string Z) (changed : bool),
    (recordCheckpoint checkpoint changed subs).2 = true
    <-> changed = true \/ exists sub, sub ∈ subs /\ outdated checkpoint sub.
Proof.
  induction subs as [|sub subs IH]; intros checkpoint changed; simpl.
  - split; [auto|]. intros [C|(sub & I & _)]; [exact C|].
    apply elem_of_nil in I. destruct I.
  - rewrite IH. clear IH.
    set (id := info_ID (info sub)).
    set (i1 := default 0 (checkpoint !! id)).
    destruct (Z.eqb_spec i1 0) as [Z0|NZ0].
    { rewrite orb_true_r. simpl. split; intros _.
      - right. exists sub. split; [apply list_elem_of_here|]. left. exact Z0.
      - left. reflexivity. }
    destruct (Z.eqb_spec i1 (blockHWM sub)) as [EQ|NE].
    + (* the entry is the high water mark: the assignment changes nothing *)
      assert (ID : <[id := blockHWM sub]> checkpoint = checkpoint).
      { apply insert_id. subst i1. destruct (checkpoint !! id) eqn:L; simpl in *; congruence. }
      rewrite ID. rewrite !orb_false_r. split.
      * intros [C|(s' & I & O)]; [left; exact C|].
        right. exists s'. split; [apply list_elem_of_further; exact I|exact O].
      * intros [C|(s' & I & O)]; [left; exact C|].
        apply elem_of_cons in I as [->|I].
        -- destruct O as [O|O]; [contradiction|]. fold id in O. fold i1 in O.
           contradiction.
        -- right. exists s'. split; assumption.
    + rewrite orb_true_r. split; intros _.
      * right. exists sub. split; [apply list_elem_of_here|]. right. exact NE.
      * left. reflexivity.
Qed.

Section CheckpointWrites.
Context `{SubscriptionMethods}.

(** C3, as the code has it. In every iteration of the poller that
    reaches "Record a new checkpoint if needed" with a loaded checkpoint,
    [storeCheckpoint] is called if and only if, for at least one
    subscription of the stream, the entry of the checkpoint is missing
    or zero, or differs from the [blockHWM] of the subscription. *)
Theorem storeCheckpoint_iff (load : option (gmap string Z) * bool)
    (a : eventStream) (checkpoint : option (gmap string Z))
    (subs subs' : list subscription) (c : gmap string Z) :
  pollerFilters load a checkpoint subs = (Some c, subs') ->
  is_Some (pollerIteration load a checkpoint subs).2
  <-> exists sub, sub ∈ subs' /\ outdated c sub.
Proof.
  intros P. unfold pollerIteration. rewrite P.
  pose proof (recordCheckpoint_changed subs' c false) as R.
  destruct (recordCheckpoint c false subs') as [c' changed]. simpl in *.
  rewrite <- (or_False (exists sub, _)). rewrite (or_comm _ False).
  assert (F : False <-> false = true) by (split; [tauto|discriminate]).
  rewrite F, <- R.
  destruct changed; split; intros I; try reflexivity; try discriminate.
  - eexists; reflexivity.
  - destruct I; discriminate.
Qed.

End CheckpointWrites.

Lemma storeCheckpoint_iff_witness :
  is_Some (@pollerIteration sampleMethods (None, false) sampleStream
             (Some {["sb-1" := 5]}) [sampleSubscription 7]).2.
Proof.
  apply (@storeCheckpoint_iff sampleMethods (None, false) sampleStream
           (Some {["sb-1" := 5]}) [sampleSubscription 7] [sampleSubscription 7]
           {["sb-1" := 5]}).
  - vm_compute. reflexivity.
  - exists (sampleSubscription 7). split; [apply list_elem_of_here|].
    right. vm_compute. discriminate.
Defined.

(** C3, as the spec states it, fails: with the entry of the only
    subscription at zero and its high water mark at zero, no high water
    mark differs from its entry, and the checkpoint is stored. *)
Lemma storeCheckpoint_unchanged :
  @pollerFilters sampleMethods (None, false) sampleStream
     (Some {["sb-1" := 0]}) [sampleSubscription 0]
  = (Some {["sb-1" := 0]}, [sampleSubscription 0])
  /\ is_Some (@pollerIteration sampleMethods (None, false) sampleStream
                (Some {["sb-1" := 0]}) [sampleSubscription 0]).2
  /\ ~ exists sub, sub ∈ [sampleSubscription 0]
         /\ ({["sb-1" := 0]} : gmap string Z) !! info_ID (info sub)
            <> Some (blockHWM sub).
Proof.
  split; [vm_compute; reflexivity|]. split.
  - vm_compute. eexists; reflexivity.
  - intros (sub & I & D). apply list_elem_of_singleton in I. subst sub.
    apply D. vm_compute. reflexivity.
Qed.

(** ** Resume *)



(** ** What a turn of a goroutine changes *)

Lemma frame_refl (a : eventStream) : frame a a.
Proof. split; auto. Qed.

Lemma frame_trans (a b c : eventStream) : frame a b -> frame b c -> frame a c.
Proof.
  intros [] []. split; try congruence; auto.
Qed.

Lemma evolves_refl (a : eventStream) : evolves 0 a a.
Proof. split; auto using frame_refl. lia. Qed.

Lemma evolves_trans (j k : Z) (a b c : eventStream) :
  evolves j a b -> evolves k b c -> evolves (j + k) a c.
Proof.
  intros [] []. split; try congruence; eauto using frame_trans. lia.
Qed.

(** Close a goal about a state written with the assignments. *)
Ltac assigned :=
  repeat split; stream_fields; info_fields; unfold settings;
  intros; try reflexivity; try assumption; try congruence; try lia; auto.

Lemma wgAdd_evolves (n : Z) (a : eventStream) : evolves n a (wgAdd n a).
Proof. assigned. Qed.

Lemma wgDone_evolves (a a' : eventStream) :
  wgDone a = Returned a' -> evolves (-1) a a'.
Proof.
  unfold wgDone. destruct (updateWG a <? 1); intros E; returned. assigned.
Qed.

Lemma interfere1_evolves (c : control) (a a' : eventStream) :
  interfere1 c a = Returned a' -> evolves 0 a a'.
Proof.
  destruct c; simpl; intros E.
  - returned. unfold suspend. assigned.
  - unfold stop in E. stream_fields.
    destruct (eventStream_chan a); returned. assigned.
  - unfold update_interrupt, close_updateInterrupt, preUpdateStream in E.
    stream_fields. destruct (updateInterrupt a) eqn:U; returned. assigned.
Qed.

Lemma interfere_evolves (cs : list control) :
  forall a a', interfere cs a = Returned a' -> evolves 0 a a'.
Proof.
  induction cs as [|c cs IH]; simpl; intros a a' E; returned.
  - apply evolves_refl.
  - change 0 with (0 + 0). eapply evolves_trans.
    + eapply interfere1_evolves; eassumption.
    + apply IH. assumption.
Qed.

Lemma frame_suspendOrStop (a a' : eventStream) :
  frame a a' -> suspendOrStop a = true -> suspendOrStop a' = true.
Proof.
  intros [] S. unfold suspendOrStop in *.
  apply orb_true_iff in S as [S|S]; apply orb_true_iff; auto.
Qed.

Lemma evolves_set_inFlight (k v : Z) (a a' : eventStream) :
  evolves k a a' -> evolves k (set_inFlight v a) (set_inFlight v a').
Proof. intros [[] ? ? ? ? ? ? ?]. assigned. Qed.

Lemma select_wake_closed (w : wake) (a : eventStream) :
  select_wake w a = Returned false -> updateInterrupt a = chanClosed.
Proof.
  destruct w; simpl; [|discriminate].
  destruct (updateInterrupt a); simpl; [discriminate|reflexivity].
Qed.

Lemma retryLoop_spec (env : list retry_env) (n : Z) (events : list EventEntry) :
  forall (attempt : Z) (err : bool) (a a' : eventStream) (err' : bool)
         (effs : list effect),
    retryLoop env n attempt events err a = Returned (a', err', effs) ->
    evolves 0 a a' /\ attempts_only effs.
Proof.
  induction env as [|r env IH]; intros attempt err a a' err' effs E; simpl in E.
  - destruct (suspendOrStop a); returned.
    split; [apply evolves_refl|constructor].
  - apply bind_Returned in E as (a1 & I & E).
    apply interfere_evolves in I.
    destruct (suspendOrStop a1); [returned; split; [exact I|constructor]|].
    apply bind_Returned in E as (timer & T & E).
    destruct timer; simpl in E; [|returned; split; [exact I|constructor]].
    destruct (negb (retry_failed r) || retry_expired r).
    + returned. split; [exact I|]. constructor; [exact Logic.I|constructor].
    + apply bind_Returned in E as ([[a2 err2] effs2] & L & E). returned.
      apply IH in L as [L1 L2]. split.
      * change 0 with (0 + 0). eapply evolves_trans; eassumption.
      * constructor; [exact Logic.I|exact L2].
Qed.

Lemma performActionWithRetry_spec (env : list retry_env) (n : Z)
    (events : list EventEntry) (a a' : eventStream) (err : bool)
    (effs : list effect) :
  performActionWithRetry env n events a = Returned (a', err, effs) ->
  evolves (-1) a a' /\ attempts_only effs.
Proof.
  unfold performActionWithRetry. intros E.
  apply bind_Returned in E as ([[a1 err1] effs1] & L & E). simpl in E.
  apply bind_Returned in E as (a2 & D & E). returned.
  apply retryLoop_spec in L as [L1 L2]. apply wgDone_evolves in D.
  split; [|exact L2]. change (-1) with (0 + -1).
  eapply evolves_trans; eassumption.
Qed.

Lemma attempts_only_app (l1 l2 : list effect) :
  attempts_only l1 -> attempts_only l2 -> attempts_only (l1 ++ l2).
Proof. unfold attempts_only. intros. apply Forall_app. auto. Qed.

Lemma attemptLoop_spec (env : list attempt_env) (n : Z) (events : list eventData) :
  forall (attempt : Z) (a a' : eventStream) (ex : loop_exit) (effs : list effect),
    attemptLoop env n attempt events a = Returned (a', ex, effs) ->
    evolves 0 a a' /\ attempts_only effs
    /\ (ex = loopDone false -> suspendOrStop a' = true).
Proof.
  induction env as [|t env IH]; intros attempt a a' ex effs E; simpl in E.
  - destruct (suspendOrStop a) eqn:S; returned.
    split; [apply evolves_refl|]. split; [constructor|]. intros _. exact S.
  - apply bind_Returned in E as (a1 & I & E).
    apply interfere_evolves in I.
    destruct (suspendOrStop a1) eqn:S.
    { returned. split; [exact I|]. split; [constructor|]. intros _. exact S. }
    apply bind_Returned in E as (timer & T & E).
    destruct timer; simpl in E.
    2:{ returned. split; [exact I|]. split; [constructor|]. discriminate. }
    apply bind_Returned in E as ([[a2 err] effs2] & P & E). simpl in E.
    apply performActionWithRetry_spec in P as [P1 P2].
    assert (A : evolves 0 a a2).
    { change 0 with (0 + (1 + -1)).
      eapply evolves_trans; [exact I|].
      eapply evolves_trans; [apply wgAdd_evolves|exact P1]. }
    destruct (negb err || String.eqb (ErrorHandling (spec a2)) ErrorHandlingSkip).
    + returned. split; [exact A|]. split; [exact P2|]. discriminate.
    + apply bind_Returned in E as ([[a3 ex3] effs3] & L & E). returned.
      apply IH in L as (L1 & L2 & L3). split.
      * change 0 with (0 + 0). eapply evolves_trans; eassumption.
      * split; [apply attempts_only_app; assumption|exact L3].
Qed.

Lemma wgDone_suspendOrStop (a a' : eventStream) :
  wgDone a = Returned a' -> suspendOrStop a' = suspendOrStop a.
Proof.
  unfold wgDone. destruct (updateWG a <? 1); intros E; returned. reflexivity.
Qed.

(** What [processBatch] does to a batch that is not empty: deliveries,
    then the batch marked processed or not, then the acknowledgements
    or not. *)
Lemma processBatch_spec (env : batch_env) (n : Z) (events : list eventData)
    (a a' : eventStream) (effs : list effect) :
  events <> [] ->
  processBatch env n events a = Returned (a', effs) ->
  exists (processed acked : bool) (atts : list effect),
    attempts_only atts
    /\ effs = atts ++ (if processed then [Processed events] else [])
                   ++ (if acked then acknowledgements events else [])
    /\ evolves (-1)
         (set_inFlight (if processed
                        then wrap64 (inFlight a - Z.of_nat (length events))
                        else inFlight a) a) a'
    /\ acked = processed && negb (suspendOrStop a').
Proof.
  intros NE E. unfold processBatch in E.
  destruct events as [|e events]; [contradiction|].
  set (batch := e :: events) in *.
  apply bind_Returned in E as ([[a1 ex] effs1] & L & E).
  cbv beta iota zeta in E.
  apply attemptLoop_spec in L as (L1 & L2 & L3).
  destruct ex as [processed|].
  - apply bind_Returned in E as (a2 & I & E).
    apply interfere_evolves in I.
    set (v := if processed then wrap64 (inFlight a - Z.of_nat (length batch))
              else inFlight a).
    assert (V : (if processed
                 then set_inFlight (wrap64 (inFlight a1 - Z.of_nat (length batch))) a1
                 else a1) = set_inFlight v a1).
    { subst v. rewrite (evolves_inFlight _ _ _ L1).
      destruct processed; [reflexivity|].
      rewrite <- (evolves_inFlight _ _ _ L1). destruct a1; reflexivity. }
    rewrite V in I.
    assert (A : evolves 0 (set_inFlight v a) a2).
    { change 0 with (0 + 0). eapply evolves_trans; [|exact I].
      apply evolves_set_inFlight. exact L1. }
    destruct (suspendOrStop a2) eqn:S.
    + apply bind_Returned in E as (a3 & D & E). returned.
      exists processed, false, effs1.
      split; [exact L2|]. split; [rewrite app_nil_r; reflexivity|].
      split.
      * change (-1) with (0 + -1). eapply evolves_trans; [exact A|].
        apply wgDone_evolves. exact D.
      * rewrite (wgDone_suspendOrStop _ _ D), S. simpl.
        rewrite andb_false_r. reflexivity.
    + apply bind_Returned in E as (a3 & D & E). returned.
      assert (P : processed = true).
      { destruct processed; [reflexivity|].
        specialize (L3 eq_refl).
        pose proof (frame_suspendOrStop _ _
                      (evolves_frame _ _ _ I)) as M.
        rewrite V in M. unfold suspendOrStop in M at 1. stream_fields.
        fold (suspendOrStop a1) in M. rewrite (M L3) in S. discriminate. }
      subst processed.
      exists true, true, effs1.
      split; [exact L2|]. split; [rewrite <- app_assoc; reflexivity|].
      split.
      * change (-1) with (0 + -1). eapply evolves_trans; [exact A|].
        apply wgDone_evolves. exact D.
      * rewrite (wgDone_suspendOrStop _ _ D), S. reflexivity.
  - apply bind_Returned in E as (a3 & D & E). returned.
    exists false, false, effs. split; [exact L2|].
    split; [rewrite !app_nil_r; reflexivity|]. split.
    + change (-1) with (0 + -1). eapply evolves_trans; [|apply wgDone_evolves; exact D].
      replace (set_inFlight (inFlight a) a) with a by (destruct a; reflexivity).
      exact L1.
    + reflexivity.
Qed.

(** ** The acknowledgements of a batch *)

Lemma callbacks_snoc (events : list eventData) (e : eventData) :
  callbacks (events ++ [e]) = <[SubID (event e) := e]> (callbacks events).
Proof. unfold callbacks. rewrite foldl_app. reflexivity. Qed.

Lemma last_for_snoc (id : string) (events : list eventData) (e : eventData) :
  last_for id (events ++ [e])
  = if decide (SubID (event e) = id) then Some e else last_for id events.
Proof.
  unfold last_for. rewrite filter_app, filter_cons, filter_nil.
  destruct (decide (SubID (event e) = id)).
  - apply last_snoc.
  - rewrite app_nil_r. reflexivity.
Qed.

(** The map [cbs] holds, for each subscription, its last event in the
    batch. *)
Lemma callbacks_lookup (id : string) (events : list eventData) :
  callbacks events !! id = last_for id events.
Proof.
  induction events as [|e events IH] using rev_ind; [reflexivity|].
  rewrite callbacks_snoc, last_for_snoc, lookup_insert.
  destruct (decide (SubID (event e) = id)); [reflexivity|exact IH].
Qed.

Lemma last_for_SubID (id : string) (events : list eventData) (e : eventData) :
  last_for id events = Some e -> SubID (event e) = id.
Proof.
  unfold last_for. intros L. apply last_Some_elem_of in L.
  apply list_elem_of_filter in L as [L _]. exact L.
Qed.

Lemma completions_of_map (id : string) (m : gmap string eventData) :
  (forall k e, m !! k = Some e -> SubID (event e) = k) ->
  filter (fun x => SubID x = id) ((fun kv => event kv.2) <$> map_to_list m)
  = match m !! id with Some e => [event e] | None => [] end.
Proof.
  intros K.
  assert (P : filter (fun x => SubID x = id)
                ((fun kv : string * eventData => event kv.2) <$> map_to_list m)
              ≡ₚ match m !! id with Some e => [event e] | None => [] end).
  { revert K. induction m as [|k e m L IH] using map_ind; intros K.
    - rewrite map_to_list_empty, lookup_empty. reflexivity.
    - rewrite map_to_list_insert by exact L.
      rewrite fmap_cons, filter_cons. cbn [snd].
      assert (KE : SubID (event e) = k) by (apply K, lookup_insert_eq).
      assert (IH' : filter (fun x => SubID x = id)
                      ((fun kv : string * eventData => event kv.2) <$> map_to_list m)
                    ≡ₚ match m !! id with Some e => [event e] | None => [] end).
      { apply IH. intros k' e' L'. apply K.
        rewrite lookup_insert_ne; [exact L'|]. intros ->. congruence. }
      destruct (decide (SubID (event e) = id)) as [I|I].
      + rewrite <- I, KE. rewrite <- I, KE, L in IH'.
        rewrite lookup_insert_eq, IH'. reflexivity.
      + rewrite lookup_insert_ne by congruence. exact IH'. }
  destruct (m !! id).
  - apply Permutation_singleton_r. exact P.
  - apply Permutation_nil_r. exact P.
Qed.

Lemma batchCompletes_app (l1 l2 : list effect) :
  batchCompletes (l1 ++ l2) = batchCompletes l1 ++ batchCompletes l2.
Proof. apply omap_app. Qed.

Lemma batchCompletes_attempts (effs : list effect) :
  attempts_only effs -> batchCompletes effs = [].
Proof.
  induction 1 as [|e effs A _ IH]; [reflexivity|].
  destruct e; try contradiction. exact IH.
Qed.

Lemma batchCompletes_acknowledgements (events : list eventData) :
  batchCompletes (acknowledgements events)
  = (fun kv => event kv.2) <$> map_to_list (callbacks events).
Proof.
  unfold acknowledgements, batchCompletes.
  induction (map_to_list (callbacks events)) as [|kv l IH]; [reflexivity|].
  rewrite !fmap_cons. cbn [omap list_omap]. cbn. f_equal. exact IH.
Qed.

Lemma attempts_only_not_Processed (effs : list effect) (events : list eventData) :
  attempts_only effs -> Processed events ∉ effs.
Proof.
  intros A I. unfold attempts_only in A. rewrite Forall_forall in A.
  apply (A _ I).
Qed.

(** No turn of a goroutine but that of the processor calls
    [batchComplete]. *)
Lemma batchDispatcher_effects (r : receive) (currentBatch : list eventData)
    (a a' : eventStream) (local : option (list eventData)) (effs : list effect) :
  batchDispatcher r currentBatch a = Returned (a', local, effs) ->
  batchCompletes effs = [].
Proof.
  unfold batchDispatcher. intros E.
  apply bind_Returned in E as (sel & S & E).
  destruct sel as [[[timeout cb] effs1]|].
  - assert (B : batchCompletes effs1 = []).
    { destruct r as [|[e|]|]; simpl in S.
      - destruct currentBatch; returned. reflexivity.
      - destruct (is_closed (eventStream_chan a)); returned. reflexivity.
      - returned.
      - destruct (is_closed (updateInterrupt a)); returned. }
    destruct (timeout || (Z.of_nat (length cb) =? BatchSize (spec a)));
      returned; exact B.
  - apply bind_Returned in E as (a1 & D & E). returned. reflexivity.
Qed.

Lemma eventPoller_effects (w : wake) (a a' : eventStream) (continues : bool)
    (effs : list effect) :
  eventPoller w a = Returned (a', continues, effs) -> batchCompletes effs = [].
Proof.
  unfold eventPoller. intros E.
  destruct (suspendOrStop a).
  - apply bind_Returned in E as (a1 & D & E). returned. reflexivity.
  - apply bind_Returned in E as (timer & T & E). destruct timer; simpl in E.
    + returned. reflexivity.
    + apply bind_Returned in E as (a1 & D & E). returned. reflexivity.
Qed.

Section Acknowledgements.
Context `{Externals}.

(** C4. For every non-empty batch that [processBatch] marks processed
    and leaves with the stream neither suspended nor stopped, [inFlight]
    is decremented by the number of events of the batch (in [uint64]),
    and [batchComplete] is called once for each subscription that occurs
    in the batch, with the last event of that subscription in the batch,
    and for no other subscription; nothing that happens to a stream
    other than a turn of the processor calls [batchComplete]. *)
Theorem processBatch_acknowledges (env : batch_env) (n : Z)
    (events : list eventData) (a a' : eventStream) (effs : list effect) :
  events <> [] ->
  processBatch env n events a = Returned (a', effs) ->
  Processed events ∈ effs ->
  suspendOrStop a' = false ->
  inFlight a' = wrap64 (inFlight a - Z.of_nat (length events))
  /\ (forall id : string,
        completions_for id effs
        = match last_for id events with
          | Some e => [event e]
          | None => []
          end)
  /\ (forall (o : operation) (a1 a2 : eventStream) (effs' : list effect),
        perform o a1 = Returned (a2, effs') ->
        batchCompletes effs' <> [] ->
        exists k env', o = opStep (stepProcessor k env')).
Proof.
  intros NE E P S.
  destruct (processBatch_spec env n events a a' effs NE E)
    as (processed & acked & atts & A & -> & V & K).
  assert (processed = true).
  { destruct processed; [reflexivity|]. simpl in K. subst acked.
    rewrite !app_nil_r in P.
    destruct (attempts_only_not_Processed _ _ A P). }
  subst processed. rewrite S in K. simpl in K. subst acked.
  split; [|split].
  - rewrite (evolves_inFlight _ _ _ V). reflexivity.
  - intros id. unfold completions_for.
    rewrite !batchCompletes_app, (batchCompletes_attempts _ A).
    cbn [batchCompletes omap list_omap app].
    rewrite batchCompletes_acknowledgements.
    rewrite completions_of_map.
    + rewrite callbacks_lookup. reflexivity.
    + intros k e L. rewrite callbacks_lookup in L.
      eapply last_for_SubID. exact L.
  - clear. intros o a1 a2 effs' E B.
    destruct o as [[k w|k r|k env']| | |]; simpl in E.
    + destruct (goroutines a1 !! k) as [[]|]; try discriminate.
      apply bind_Returned in E as ([[a3 c] effs3] & Q & E). returned.
      apply eventPoller_effects in Q. contradiction.
    + destruct (goroutines a1 !! k) as [[]|]; try discriminate.
      apply bind_Returned in E as ([[a3 c] effs3] & Q & E). returned.
      apply batchDispatcher_effects in Q. contradiction.
    + eauto.
    + apply bind_Returned in E as (a3 & Q & E). returned. contradiction.
    + returned. contradiction.
    + apply bind_Returned in E as (a3 & Q & E).
      apply bind_Returned in E as ([a4 r] & Q' & E). returned. contradiction.
Qed.

End Acknowledgements.

Lemma processBatch_acknowledges_witness :
  exists (a' : eventStream) (effs : list effect),
    processBatch delivered 1 [sampleEvent 7; sampleEvent 8] sampleStream
    = Returned (a', effs)
    /\ inFlight a' = wrap64 (0 - 2)
    /\ completions_for "sb-1" effs = [event (sampleEvent 8)].
Proof.
  destruct (processBatch delivered 1 [sampleEvent 7; sampleEvent 8] sampleStream)
    as [[a' effs]| |] eqn:E; try (vm_compute in E; discriminate E).
  exists a', effs. split; [reflexivity|].
  assert (R : Returned (a', effs)
              = processBatch delivered 1 [sampleEvent 7; sampleEvent 8] sampleStream)
    by (symmetry; exact E).
  vm_compute in R. injection R as -> ->.
  assert (NE : [sampleEvent 7; sampleEvent 8] <> []) by discriminate.
  eassert (P : Processed [sampleEvent 7; sampleEvent 8] ∈ _).
  { apply list_elem_of_further, list_elem_of_here. }
  destruct (@processBatch_acknowledges sampleExternals delivered 1
              [sampleEvent 7; sampleEvent 8] sampleStream _ _ NE E P eq_refl)
    as (I & C & _).
  split; [exact I|]. exact (C "sb-1").
Defined.

(** ** The events in flight *)

Lemma wrap64_add_l (x y : Z) : wrap64 (wrap64 x + y) = wrap64 (x + y).
Proof. unfold wrap64. apply Zplus_mod_idemp_l. Qed.

Lemma wrap64_sub_l (x y : Z) : wrap64 (wrap64 x - y) = wrap64 (x - y).
Proof. unfold wrap64. apply Zminus_mod_idemp_l. Qed.

Lemma accepted_app (l1 l2 : list effect) :
  accepted (l1 ++ l2) = accepted l1 + accepted l2.
Proof.
  induction l1 as [|e l1 IH]; [reflexivity|].
  destruct e; simpl; rewrite IH; lia.
Qed.

Lemma processed_events_app (l1 l2 : list effect) :
  processed_events (l1 ++ l2) = processed_events l1 + processed_events l2.
Proof.
  induction l1 as [|e l1 IH]; [reflexivity|].
  destruct e; simpl; rewrite IH; lia.
Qed.

Lemma attempts_only_counts (effs : list effect) :
  attempts_only effs -> accepted effs = 0 /\ processed_events effs = 0.
Proof.
  induction 1 as [|e effs A _ IH]; [split; reflexivity|].
  destruct e; try contradiction. exact IH.
Qed.

Lemma acknowledgements_counts (events : list eventData) :
  accepted (acknowledgements events) = 0
  /\ processed_events (acknowledgements events) = 0.
Proof.
  unfold acknowledgements.
  induction (map_to_list (callbacks events)) as [|kv l IH]; [split; reflexivity|].
  exact IH.
Qed.

Lemma buffered_nonneg (gs : list goroutine) : 0 <= buffered gs.
Proof.
  induction gs as [|g gs IH]; simpl; [lia|]. destruct g; simpl; lia.
Qed.

Lemma buffered_app (gs hs : list goroutine) :
  buffered (gs ++ hs) = buffered gs + buffered hs.
Proof. induction gs as [|g gs IH]; simpl; [reflexivity|]. rewrite IH. lia. Qed.

Lemma buffered_insert (gs : list goroutine) :
  forall (n : nat) (g g' : goroutine),
    gs !! n = Some g ->
    buffered (<[n := g']> gs) = buffered gs - held g + held g'.
Proof.
  induction gs as [|h gs IH]; intros [|n] g g' L; simpl in *; try discriminate.
  - injection L as ->. lia.
  - rewrite (IH n g g' L). lia.
Qed.

Lemma buffered_delete (gs : list goroutine) :
  forall (n : nat) (g : goroutine),
    gs !! n = Some g -> buffered (delete n gs) = buffered gs - held g.
Proof.
  induction gs as [|h gs IH]; intros [|n] g L; simpl in *; try discriminate.
  - injection L as ->. lia.
  - rewrite (IH n g L). lia.
Qed.

Lemma queued_nonneg (a : eventStream) : 0 <= queued a.
Proof. unfold queued. lia. Qed.

Lemma accounted_trans (a b c : eventStream) (e1 e2 : list effect) :
  accounted a b e1 -> accounted b c e2 -> accounted a c (e1 ++ e2).
Proof.
  intros [I1 Q1] [I2 Q2]. split.
  - intros x X. rewrite accepted_app, processed_events_app.
    rewrite (I2 _ (I1 x X)). f_equal. lia.
  - rewrite accepted_app, processed_events_app. lia.
Qed.

Lemma accounted_same (a a' : eventStream) (effs : list effect) :
  accepted effs = 0 -> processed_events effs = 0 ->
  inFlight a' = inFlight a -> batchQueue a' = batchQueue a ->
  buffered (goroutines a') = buffered (goroutines a) ->
  accounted a a' effs.
Proof.
  intros A P I Q G. split.
  - intros x X. rewrite I, X, A, P. f_equal. lia.
  - unfold queued. rewrite Q, G, A, P. lia.
Qed.

Lemma evolves_accounted (k : Z) (a a' : eventStream) :
  evolves k a a' -> accounted a a' [].
Proof.
  intros E. apply accounted_same; try reflexivity; try apply E.
  rewrite (evolves_goroutines _ _ _ E). reflexivity.
Qed.

Lemma queued_pop (a : eventStream) (batch : list eventData)
    (rest : list (list eventData)) :
  batchQueue a = batch :: rest ->
  queued a = Z.of_nat (length batch) + queued (set_batchQueue rest a).
Proof.
  intros Q. unfold queued. rewrite Q. stream_fields. simpl.
  rewrite length_app. lia.
Qed.

Lemma queued_push (a : eventStream) (batch : list eventData) :
  queued (set_batchQueue (batchQueue a ++ [batch]) a)
  = queued a + Z.of_nat (length batch).
Proof.
  unfold queued. stream_fields. rewrite concat_app, length_app. simpl.
  rewrite app_nil_r. lia.
Qed.

Lemma batchProcessor_accounted (env : batch_env) (a a' : eventStream)
    (continues : bool) (effs : list effect) :
  batchProcessor env a = Returned (a', continues, effs) ->
  accounted a a' effs /\ goroutines a' = goroutines a.
Proof.
  unfold batchProcessor. intros E.
  destruct (suspendOrStop a).
  { returned. split; [|reflexivity]. apply accounted_same; reflexivity. }
  destruct (batchQueue a) as [|batch rest] eqn:Q.
  { destruct (updateInProgress a); [|discriminate].
    destruct (updateInterrupt a); [discriminate|].
    apply bind_Returned in E as (a1 & D & E). returned.
    apply wgDone_evolves in D. split.
    - apply accounted_same; try reflexivity; stream_fields; try apply D.
      rewrite (evolves_goroutines _ _ _ D). reflexivity.
    - stream_fields. apply (evolves_goroutines _ _ _ D). }
  cbv zeta in E.
  apply bind_Returned in E as ([a1 effs1] & P & E). returned.
  pose proof (queued_pop a batch rest Q) as QP.
  set (a0 := wgAdd 1 (set_batchQueue rest
                        (set_batchCount (wrap64 (batchCount a + 1)) a))) in *.
  assert (Q0 : queued a0 = queued (set_batchQueue rest a)) by reflexivity.
  assert (G0 : goroutines a0 = goroutines a) by reflexivity.
  assert (F0 : inFlight a0 = inFlight a) by reflexivity.
  destruct batch as [|e batch].
  { unfold processBatch in P.
    apply bind_Returned in P as (a2 & D & P). returned.
    apply wgDone_evolves in D. split.
    - split.
      + intros x X. rewrite (evolves_inFlight _ _ _ D), F0, X. simpl. f_equal. lia.
      + unfold queued in *. rewrite (evolves_queue _ _ _ D),
          (evolves_goroutines _ _ _ D), G0. simpl in *. lia.
    - rewrite (evolves_goroutines _ _ _ D). exact G0. }
  apply processBatch_spec in P as (processed & acked & atts & A & -> & V & K);
    [|discriminate].
  destruct (attempts_only_counts _ A) as [A1 A2].
  assert (C1 : accepted (if acked then acknowledgements (e :: batch) else []) = 0).
  { destruct acked; [apply acknowledgements_counts|reflexivity]. }
  assert (C2 : processed_events
                 (if acked then acknowledgements (e :: batch) else []) = 0).
  { destruct acked; [apply acknowledgements_counts|reflexivity]. }
  pose proof (evolves_goroutines _ _ _ V) as GV. stream_fields.
  split; [|exact GV]. split.
  - intros x X. rewrite (evolves_inFlight _ _ _ V). stream_fields.
    rewrite !accepted_app, !processed_events_app, A1, A2, C1, C2.
    rewrite F0, X.
    destruct processed; simpl.
    + rewrite wrap64_sub_l. f_equal. lia.
    + f_equal. lia.
  - rewrite !accepted_app, !processed_events_app, A1, A2, C1, C2.
    unfold queued in *. rewrite (evolves_queue _ _ _ V), GV. stream_fields.
    destruct processed; simpl in *; lia.
Qed.

Lemma batchDispatcher_accounted (r : receive) (currentBatch : list eventData)
    (a a' : eventStream) (local : option (list eventData)) (effs : list effect) :
  batchDispatcher r currentBatch a = Returned (a', local, effs) ->
  (forall x : Z,
     inFlight a = wrap64 x -> inFlight a' = wrap64 (x + accepted effs))
  /\ processed_events effs = 0
  /\ queued a' + held (goBatchDispatcher (default [] local))
     <= queued a + Z.of_nat (length currentBatch) + accepted effs
  /\ goroutines a' = goroutines a.
Proof.
  unfold batchDispatcher. intros E.
  apply bind_Returned in E as (sel & S & E).
  destruct sel as [[[timeout cb] effs1]|].
  2:{ apply bind_Returned in E as (a1 & D & E). returned.
      apply wgDone_evolves in D. split; [|split; [|split]].
      - intros x X. rewrite (evolves_inFlight _ _ _ D), X. simpl. f_equal. lia.
      - reflexivity.
      - unfold queued. rewrite (evolves_queue _ _ _ D). simpl. lia.
      - apply (evolves_goroutines _ _ _ D). }
  assert (C : (timeout = true /\ cb = currentBatch /\ effs1 = [])
              \/ (timeout = false
                  /\ exists e, cb = currentBatch ++ [e] /\ effs1 = [Accepted e])).
  { destruct r as [|[e|]|]; simpl in S.
    - destruct currentBatch; returned. left. auto.
    - destruct (is_closed (eventStream_chan a)); returned. right. eauto.
    - returned.
    - destruct (is_closed (updateInterrupt a)); returned. }
  destruct C as [(-> & -> & ->)|(-> & e & -> & ->)]; simpl in E.
  - returned. split; [|split; [|split]]; try reflexivity.
    + intros x X. stream_fields. rewrite X. f_equal. simpl. lia.
    + rewrite queued_push. simpl. lia.
  - destruct (Z.of_nat (length (currentBatch ++ [e])) =? BatchSize (spec a));
      returned; (split; [|split; [|split]]); try reflexivity.
    + intros x X. stream_fields. rewrite X, wrap64_add_l. reflexivity.
    + rewrite (queued_push (set_inFlight _ a)). unfold queued. stream_fields.
      rewrite length_app. simpl. lia.
    + intros x X. stream_fields. rewrite X, wrap64_add_l. reflexivity.
    + unfold queued. stream_fields. simpl. rewrite length_app. simpl. lia.
Qed.

Lemma eventPoller_evolves (w : wake) (a a' : eventStream) (continues : bool)
    (effs : list effect) :
  eventPoller w a = Returned (a', continues, effs) ->
  accounted a a' effs /\ goroutines a' = goroutines a.
Proof.
  unfold eventPoller. intros E.
  assert (L : forall a1, wgDone (set_pollerDone true a) = Returned a1 ->
                accounted a a1 [SubscriptionsStale] /\ goroutines a1 = goroutines a).
  { intros a1 D. apply wgDone_evolves in D. split.
    - split.
      + intros x X. rewrite (evolves_inFlight _ _ _ D). stream_fields.
        rewrite X. simpl. f_equal. lia.
      + unfold queued. rewrite (evolves_queue _ _ _ D),
          (evolves_goroutines _ _ _ D). stream_fields. simpl. lia.
    - rewrite (evolves_goroutines _ _ _ D). reflexivity. }
  destruct (suspendOrStop a).
  - apply bind_Returned in E as (a1 & D & E). returned. apply L. exact D.
  - apply bind_Returned in E as (timer & T & E). destruct timer; simpl in E.
    + returned. split; [|reflexivity]. apply (evolves_accounted 0), evolves_refl.
    + apply bind_Returned in E as (a1 & D & E). returned. apply L. exact D.
Qed.

Lemma retire_accounted (n : nat) (g : goroutine) (a a' : eventStream)
    (effs : list effect) :
  goroutines a !! n = Some g ->
  accounted a a' effs -> goroutines a' = goroutines a ->
  accounted a (retire n a') effs.
Proof.
  intros L [I Q] G. split; [exact I|].
  unfold retire, queued in *. stream_fields.
  rewrite G in *. rewrite (buffered_delete _ _ _ L).
  destruct g; simpl; lia.
Qed.

Lemma iterate_accounted (s : step) (a a' : eventStream) (effs : list effect) :
  iterate s a = Returned (a', effs) -> accounted a a' effs.
Proof.
  destruct s as [n w|n r|n env]; simpl; intros E.
  - destruct (goroutines a !! n) as [[]|] eqn:L; try discriminate.
    apply bind_Returned in E as ([[a1 c] effs1] & P & E). returned.
    apply eventPoller_evolves in P as [P G].
    destruct c; [exact P|]. eapply retire_accounted; eassumption.
  - destruct (goroutines a !! n) as [[]|] eqn:L; try discriminate.
    apply bind_Returned in E as ([[a1 local] effs1] & P & E). returned.
    apply batchDispatcher_accounted in P as (I & P0 & Q & G).
    split.
    + intros x X. rewrite P0.
      destruct local; unfold retire; stream_fields;
        rewrite (I x X); f_equal; lia.
    + rewrite P0.
      destruct local as [cb|]; unfold retire, queued in *; stream_fields;
        rewrite G.
      * rewrite (buffered_insert _ _ _ (goBatchDispatcher cb) L). simpl in *. lia.
      * rewrite (buffered_delete _ _ _ L). simpl in *. lia.
  - destruct (goroutines a !! n) as [[]|] eqn:L; try discriminate.
    apply bind_Returned in E as ([[a1 c] effs1] & P & E). returned.
    apply batchProcessor_accounted in P as [P G].
    destruct c; [exact P|]. eapply retire_accounted; eassumption.
Qed.

(** ** What the second half of an update changes *)

Lemma set_spec_same (a : eventStream) : set_spec (spec a) a = a.
Proof. destruct a; reflexivity. Qed.

Lemma set_spec_twice (s s' : StreamInfo) (a : eventStream) :
  set_spec s (set_spec s' a) = set_spec s a.
Proof. reflexivity. Qed.

Section UpdateFacts.
Context `{Externals}.

Lemma update_webhook_spec (newSpec : StreamInfo) (a a' : eventStream)
    (err : option error) :
  update_webhook newSpec a = Returned (a', err) ->
  exists w, a' = set_spec (set_Webhook w (spec a)) a.
Proof.
  unfold update_webhook. intros E.
  assert (S : a = set_spec (set_Webhook (Webhook (spec a)) (spec a)) a).
  { destruct a as [s]; destruct s; reflexivity. }
  destruct (Webhook newSpec) as [w|]; [|returned; eauto].
  destruct (String.eqb (Type_ (spec a)) "webhook"); [|returned; eauto].
  destruct (String.eqb (URL w) ""); [returned; eauto|].
  destruct (negb (urlParse (URL w))); [returned; eauto|].
  destruct (Webhook (spec a)); returned. eauto.
Qed.

Lemma update_websocket_spec (newSpec : StreamInfo) (a a' : eventStream)
    (err : option error) :
  update_websocket newSpec a = Returned (a', err) ->
  exists w, a' = set_spec (set_WebSocket w (spec a)) a.
Proof.
  unfold update_websocket. intros E.
  assert (S : a = set_spec (set_WebSocket (WebSocket (spec a)) (spec a)) a).
  { destruct a as [s]; destruct s; reflexivity. }
  destruct (WebSocket newSpec) as [w|]; [|returned; eauto].
  destruct (String.eqb (Type_ (spec a)) "websocket"); [|returned; eauto].
  destruct (WebSocket (spec a)) as [cur|]; [|discriminate].
  cbv zeta in E. destruct (validateWebSocket w); returned; eauto.
Qed.

(** An update that fails leaves everything but the specification; one
    that succeeds assigns the fields and then runs [postUpdateStream]. *)
Lemma update_apply_spec (newSpec : StreamInfo) (a a' : eventStream)
    (res : error + StreamInfo) :
  update_apply newSpec a = Returned (a', res) ->
  match res with
  | inl _ => exists s, a' = set_spec s a
  | inr info =>
    exists w ws,
      info = update_fields newSpec (set_WebSocket ws (set_Webhook w (spec a)))
      /\ a' = postUpdateStream (set_spec info a)
  end.
Proof.
  unfold update_apply. intros E.
  destruct (negb (String.eqb (Type_ newSpec) "")
            && negb (String.eqb (Type_ newSpec) (Type_ (spec a)))).
  { returned. eexists. symmetry. apply set_spec_same. }
  apply bind_Returned in E as ([a1 err1] & W & E). cbv beta iota in E.
  apply update_webhook_spec in W as (w & ->).
  destruct err1; [returned; eauto|].
  apply bind_Returned in E as ([a2 err2] & S & E). cbv beta iota in E.
  apply update_websocket_spec in S as (ws & ->).
  destruct err2; [returned; eauto|].
  returned. exists w, ws. split; reflexivity.
Qed.

Lemma update_apply_type (newSpec : StreamInfo) (a : eventStream) :
  Type_ newSpec <> "" -> Type_ newSpec <> Type_ (spec a) ->
  update_apply newSpec a = Returned (a, inl EventStreamsCannotUpdateType).
Proof.
  intros T1 T2. unfold update_apply.
  apply String.eqb_neq in T1, T2. rewrite T1, T2. reflexivity.
Qed.

Lemma perform_accounted (o : operation) (a a' : eventStream) (effs : list effect) :
  perform o a = Returned (a', effs) -> accounted a a' effs.
Proof.
  destruct o as [s|c| |newSpec]; simpl; intros E.
  - eapply iterate_accounted. exact E.
  - apply bind_Returned in E as (a1 & I & E). returned.
    eapply (evolves_accounted 0), interfere1_evolves. exact I.
  - returned. unfold resume.
    destruct (negb (processorDone a) || negb (pollerDone a)); simpl.
    + apply (evolves_accounted 0), evolves_refl.
    + apply accounted_same; try reflexivity.
      unfold startEventHandlers. cbn [negb]. stream_fields.
      rewrite !buffered_app. simpl. lia.
  - apply bind_Returned in E as (a1 & W & E).
    unfold wgWait in W. destruct (updateWG a =? 0); returned.
    apply update_apply_spec in E0. destruct s as [e|info].
    + destruct E0 as (s & ->). apply accounted_same; reflexivity.
    + destruct E0 as (w & ws & _ & ->). apply accounted_same; try reflexivity.
      unfold postUpdateStream, startEventHandlers. cbn [negb]. stream_fields.
      rewrite !buffered_app. simpl. lia.
Qed.

Lemma execute_accounted (ops : list operation) :
  forall (a a' : eventStream) (effs : list effect),
    execute ops a = Returned (a', effs) -> accounted a a' effs.
Proof.
  induction ops as [|o ops IH]; simpl; intros a a' effs E.
  - returned. apply (evolves_accounted 0), evolves_refl.
  - apply bind_Returned in E as ([a1 effs1] & P & E). cbv beta iota in E.
    apply bind_Returned in E as ([a2 effs2] & X & E). returned.
    eapply accounted_trans; [eapply perform_accounted; exact P|].
    apply IH. exact X.
Qed.

(** C2. Along every finite history of a stream from its construction
    (turns of the dispatcher, of the processor and of the poller, racing
    calls, resumes and updates), [inFlight] is, in [uint64], the number
    of events the dispatcher accepted from the channel minus the number
    of events in the batches that [processBatch] marked processed; the
    latter never exceeds the former, and the counter is exactly the
    difference as long as that is below 2^64. *)
Theorem inFlight_counts (conf : EventstreamConf) (info : StreamInfo)
    (a a' : eventStream) (ops : list operation) (effs : list effect) :
  newEventStream conf (Some info) = inr a ->
  execute ops a = Returned (a', effs) ->
  inFlight a' = wrap64 (accepted effs - processed_events effs)
  /\ processed_events effs <= accepted effs
  /\ (accepted effs - processed_events effs < 2 ^ 64 ->
      inFlight a' = accepted effs - processed_events effs).
Proof.
  intros N E. apply execute_accounted in E as [I Q].
  assert (F : inFlight a = 0 /\ batchQueue a = []
              /\ buffered (goroutines a) = 0).
  { unfold newEventStream in N.
    destruct (String.eqb (GetID info) ""); [discriminate|].
    cbv zeta in N.
    destruct (String.eqb _ "webhook").
    - destruct (newWebhookAction _); [discriminate|].
      injection N as <-. repeat split.
    - destruct (String.eqb _ "websocket"); [|discriminate].
      destruct (from_option validateWebSocket None _); [discriminate|].
      destruct (newWebSocketAction _); [discriminate|].
      injection N as <-. repeat split. }
  destruct F as (F1 & F2 & F3).
  specialize (I 0). rewrite F1 in I. specialize (I eq_refl).
  rewrite Z.add_0_l in I.
  unfold queued in Q. rewrite F2, F3 in Q. simpl in Q.
  pose proof (buffered_nonneg (goroutines a')).
  assert (P : processed_events effs <= accepted effs) by lia.
  split; [exact I|]. split; [exact P|].
  intros B. rewrite I. unfold wrap64. apply Z.mod_small. lia.
Qed.

End UpdateFacts.

Lemma inFlight_counts_witness :
  exists (a' : eventStream) (effs : list effect),
    @execute sampleExternals
      [ opStep (stepDispatcher 2 (recvEvent (Some (sampleEvent 7))));
        opStep (stepDispatcher 2 (recvEvent (Some (sampleEvent 8))));
        opStep (stepProcessor 1 delivered) ] sampleStream
    = Returned (a', effs)
    /\ accepted effs = 2 /\ processed_events effs = 1 /\ inFlight a' = 1.
Proof.
  destruct (@execute sampleExternals
      [ opStep (stepDispatcher 2 (recvEvent (Some (sampleEvent 7))));
        opStep (stepDispatcher 2 (recvEvent (Some (sampleEvent 8))));
        opStep (stepProcessor 1 delivered) ] sampleStream)
    as [[a' effs]| |] eqn:E; try (vm_compute in E; discriminate E).
  exists a', effs. split; [reflexivity|].
  destruct (@inFlight_counts sampleExternals sampleConf sampleInfo sampleStream
              a' _ effs ltac:(vm_compute; reflexivity) E) as (_ & _ & I).
  vm_compute in E. injection E as <- <-.
  split; [reflexivity|]. split; [reflexivity|].
  apply I. vm_compute. reflexivity.
Defined.

(** ** What a schedule leaves alone *)

Lemma frame_set_goroutines (gs : list goroutine) (a a' : eventStream) :
  frame a a' -> frame a (set_goroutines gs a').
Proof. intros []. assigned. Qed.

Lemma eventPoller_frame (w : wake) (a a' : eventStream) (continues : bool)
    (effs : list effect) :
  eventPoller w a = Returned (a', continues, effs) ->
  frame a a'
  /\ (if continues
      then updateWG a' = updateWG a
      else updateWG a' = updateWG a - 1).
Proof.
  unfold eventPoller. intros E.
  assert (L : forall a1, wgDone (set_pollerDone true a) = Returned a1 ->
                frame a a1 /\ updateWG a1 = updateWG a - 1).
  { intros a1 D. apply wgDone_evolves in D. destruct D as [[] ? ? ? ? ? ? W].
    stream_fields. split; [assigned|lia]. }
  destruct (suspendOrStop a).
  - apply bind_Returned in E as (a1 & D & E). returned. apply L. exact D.
  - apply bind_Returned in E as (timer & T & E). destruct timer; simpl in E.
    + returned. split; [apply frame_refl|reflexivity].
    + apply bind_Returned in E as (a1 & D & E). returned. apply L. exact D.
Qed.

Lemma batchDispatcher_frame (r : receive) (currentBatch : list eventData)
    (a a' : eventStream) (local : option (list eventData)) (effs : list effect) :
  batchDispatcher r currentBatch a = Returned (a', local, effs) ->
  frame a a'
  /\ match local with
     | Some _ => updateWG a' = updateWG a
     | None => updateWG a' = updateWG a - 1
     end.
Proof.
  unfold batchDispatcher. intros E.
  apply bind_Returned in E as (sel & S & E).
  destruct sel as [[[timeout cb] effs1]|].
  - destruct (timeout || (Z.of_nat (length cb) =? BatchSize (spec a)));
      [destruct (negb timeout)|]; returned; (split; [assigned|reflexivity]).
  - apply bind_Returned in E as (a1 & D & E). returned.
    apply wgDone_evolves in D. split; [apply D|].
    rewrite (evolves_WG _ _ _ D). lia.
Qed.

Lemma batchProcessor_frame (env : batch_env) (a a' : eventStream)
    (continues : bool) (effs : list effect) :
  batchProcessor env a = Returned (a', continues, effs) ->
  frame a a' /\ updateWG a - 1 <= updateWG a' <= updateWG a
  /\ (continues = true -> updateWG a' = updateWG a).
Proof.
  unfold batchProcessor. intros E.
  destruct (suspendOrStop a).
  { returned. split; [assigned|]. stream_fields. split; [lia|]. discriminate. }
  destruct (batchQueue a) as [|batch rest] eqn:Q.
  { destruct (updateInProgress a); [|discriminate].
    destruct (updateInterrupt a); [discriminate|].
    apply bind_Returned in E as (a1 & D & E). returned.
    apply wgDone_evolves in D. destruct D as [[] ? ? ? ? ? ? W].
    stream_fields. split; [assigned|]. split; [lia|]. discriminate. }
  cbv zeta in E.
  apply bind_Returned in E as ([a1 effs1] & P & E). returned.
  set (a0 := wgAdd 1 (set_batchQueue rest
                        (set_batchCount (wrap64 (batchCount a + 1)) a))) in *.
  assert (F0 : frame a a0) by (subst a0; assigned).
  assert (W0 : updateWG a0 = updateWG a + 1) by reflexivity.
  destruct batch as [|e batch].
  { unfold processBatch in P.
    apply bind_Returned in P as (a2 & D & P). returned.
    apply wgDone_evolves in D.
    split; [eapply frame_trans; [exact F0|apply D]|].
    rewrite (evolves_WG _ _ _ D), W0. split; [lia|]. intros _. lia. }
  apply processBatch_spec in P as (processed & acked & atts & A & -> & V & K);
    [|discriminate].
  split.
  - eapply frame_trans; [exact F0|].
    eapply frame_trans; [|apply V]. assigned.
  - rewrite (evolves_WG _ _ _ V). stream_fields. split; [lia|]. intros _. lia.
Qed.

(** A turn keeps the frame, and keeps the wait group counting every
    goroutine. *)
Lemma iterate_frame (s : step) (a a' : eventStream) (effs : list effect) :
  iterate s a = Returned (a', effs) ->
  frame a a' /\ (counted a -> counted a').
Proof.
  unfold counted.
  destruct s as [n w|n r|n env]; simpl; intros E.
  - destruct (goroutines a !! n) as [[]|] eqn:L; try discriminate.
    apply bind_Returned in E as ([[a1 c] effs1] & P & E). returned.
    pose proof (eventPoller_evolves _ _ _ _ _ P) as [_ G].
    apply eventPoller_frame in P as [F W].
    pose proof (lookup_lt_Some _ _ _ L) as B.
    destruct c.
    + split; [exact F|]. rewrite G, W. auto.
    + split; [apply frame_set_goroutines; exact F|].
      unfold retire. stream_fields. rewrite G, W, length_delete by eauto. lia.
  - destruct (goroutines a !! n) as [[]|] eqn:L; try discriminate.
    apply bind_Returned in E as ([[a1 local] effs1] & P & E). returned.
    pose proof (batchDispatcher_accounted _ _ _ _ _ _ P) as (_ & _ & _ & G).
    apply batchDispatcher_frame in P as [F W].
    pose proof (lookup_lt_Some _ _ _ L) as B.
    destruct local.
    + split; [apply frame_set_goroutines; exact F|].
      stream_fields. rewrite length_insert, G, W. auto.
    + split; [apply frame_set_goroutines; exact F|].
      unfold retire. stream_fields. rewrite G, W, length_delete by eauto. lia.
  - destruct (goroutines a !! n) as [[]|] eqn:L; try discriminate.
    apply bind_Returned in E as ([[a1 c] effs1] & P & E). returned.
    pose proof (batchProcessor_accounted _ _ _ _ _ P) as [_ G].
    apply batchProcessor_frame in P as (F & W & C).
    pose proof (lookup_lt_Some _ _ _ L) as B.
    destruct c.
    + split; [exact F|]. rewrite G, (C eq_refl). auto.
    + split; [apply frame_set_goroutines; exact F|].
      unfold retire. stream_fields. rewrite G, length_delete by eauto. lia.
Qed.

Lemma run_frame (sched : list step) :
  forall (a a' : eventStream) (effs : list effect),
    run sched a = Returned (a', effs) ->
    frame a a' /\ (counted a -> counted a').
Proof.
  induction sched as [|s sched IH]; simpl; intros a a' effs E.
  - returned. split; [apply frame_refl|auto].
  - apply bind_Returned in E as ([a1 effs1] & P & E). cbv beta iota in E.
    apply bind_Returned in E as ([a2 effs2] & X & E). returned.
    apply iterate_frame in P as [F1 C1]. apply IH in X as [F2 C2].
    split; [eapply frame_trans; eassumption|auto].
Qed.

(** ** Update, as a whole *)


Section UpdateCalls.
Context `{Externals}.

Lemma update_inv (sched : list step) (newSpec : StreamInfo)
    (a a' : eventStream) (res : error + StreamInfo) (effs : list effect) :
  update sched newSpec a = Returned (a', res, effs) ->
  exists a1 a2,
    update_interrupt a = Returned a1
    /\ run sched a1 = Returned (a2, effs)
    /\ updateWG a2 = 0
    /\ update_apply newSpec a2 = Returned (a', res).
Proof.
  unfold update. intros E.
  apply bind_Returned in E as (a1 & I & E).
  apply bind_Returned in E as ([a2 effs2] & R & E). cbv beta iota in E.
  apply bind_Returned in E as (a3 & W & E).
  apply bind_Returned in E as ([a4 res4] & U & E). returned.
  unfold wgWait in W. destruct (updateWG a2 =? 0) eqn:Z0; returned.
  apply Z.eqb_eq in Z0. eauto 10.
Qed.

(** From the call to the return of the wait. *)
Lemma update_wait_frame (sched : list step) (a a1 a2 : eventStream)
    (effs : list effect) :
  update_interrupt a = Returned a1 ->
  run sched a1 = Returned (a2, effs) ->
  frame a a2
  /\ updateInProgress a2 = true
  /\ updateInterrupt a2 = chanClosed
  /\ (counted a -> counted a2).
Proof.
  intros I R. apply run_frame in R as [F C].
  assert (P : updateInProgress a1 = true /\ updateInterrupt a1 = chanClosed).
  { unfold update_interrupt, close_updateInterrupt, preUpdateStream in I.
    stream_fields. destruct (updateInterrupt a); returned. split; reflexivity. }
  destruct P as [P1 P2].
  pose proof (interfere1_evolves ctlUpdate _ _ I) as E.
  split; [eapply frame_trans; [apply E|exact F]|].
  split; [apply (frame_progress _ _ F P1)|].
  split; [apply (frame_interrupt _ _ F P2)|].
  intros K. apply C. unfold counted in *.
  rewrite (evolves_goroutines _ _ _ E), (evolves_WG _ _ _ E). lia.
Qed.

(** The batch size after a successful [UpdateStream]. *)
Lemma UpdateStream_success (sched : list step) (put_fails : bool)
    (id : string) (newSpec : StreamInfo) (s s' : subscriptionMGR)
    (stream : eventStream) (info : StreamInfo) :
  streams s !! id = Some stream ->
  UpdateStream sched put_fails id (Some newSpec) s = Returned (s', inr info) ->
  BatchSize info
  = (if negb (BatchSize (spec stream) =? BatchSize newSpec)
        && negb (BatchSize newSpec =? 0)
        && (BatchSize newSpec <? MaxBatchSize)
     then BatchSize newSpec else BatchSize (spec stream))
  /\ exists stream', streams s' !! id = Some stream' /\ spec stream' = info.
Proof.
  intros L E. unfold UpdateStream, streamByID in E. rewrite L in E.
  apply bind_Returned in E as ([[a' res] effs] & U & E). cbv beta iota zeta in E.
  destruct res as [e|updated]; [returned|].
  apply bind_Returned in E as ([s1 stored] & S & E). cbv beta iota in E.
  destruct stored as [e|streamInfo]; returned.
  unfold storeStream in S. destruct (db (put_stream id a' s)); [|discriminate].
  destruct put_fails; returned.
  apply update_inv in U as (a1 & a2 & I & R & W & A).
  destruct (update_wait_frame _ _ _ _ _ I R) as (F & _).
  apply update_apply_spec in A as (w & ws & -> & ->).
  assert (BS : BatchSize (spec a2) = BatchSize (spec stream))
    by exact (f_equal BatchSize (frame_settings _ _ F)).
  split; [|eexists; split; [apply lookup_insert_eq|reflexivity]].
  unfold update_fields. info_fields. rewrite BS.
  repeat match goal with
  | |- context [if ?c then _ else _] => destruct c
  end; info_fields; rewrite ?BS; reflexivity.
Qed.

(** C7, where the code departs from it. When the update asks for a
    batch size of 1000 and the stream has another one, a successful
    [UpdateStream] leaves the batch size of the stream as it was: the
    assignment requires the new size to be strictly below 1000. *)
Theorem UpdateStream_batchSize_1000 (sched : list step) (put_fails : bool)
    (id : string) (newSpec : StreamInfo) (s s' : subscriptionMGR)
    (stream : eventStream) (info : StreamInfo) :
  streams s !! id = Some stream ->
  BatchSize newSpec = 1000 ->
  BatchSize (spec stream) <> 1000 ->
  UpdateStream sched put_fails id (Some newSpec) s = Returned (s', inr info) ->
  BatchSize info = BatchSize (spec stream)
  /\ BatchSize info <> 1000
  /\ exists stream', streams s' !! id = Some stream' /\ spec stream' = info.
Proof.
  intros L B N E.
  destruct (UpdateStream_success _ _ _ _ _ _ _ _ L E) as (V & S).
  rewrite B in V. change (1000 <? MaxBatchSize) with false in V.
  rewrite andb_false_r in V.
  split; [exact V|]. split; [rewrite V; exact N|exact S].
Qed.

(** Below 1000 the update assigns the batch size it is given. *)
Lemma UpdateStream_batchSize_below_1000 (sched : list step) (put_fails : bool)
    (id : string) (newSpec : StreamInfo) (s s' : subscriptionMGR)
    (stream : eventStream) (info : StreamInfo) :
  streams s !! id = Some stream ->
  1 <= BatchSize newSpec < 1000 ->
  BatchSize newSpec <> BatchSize (spec stream) ->
  UpdateStream sched put_fails id (Some newSpec) s = Returned (s', inr info) ->
  BatchSize info = BatchSize newSpec.
Proof.
  intros L B N E.
  destruct (UpdateStream_success _ _ _ _ _ _ _ _ L E) as (V & _).
  rewrite V. unfold MaxBatchSize.
  destruct (Z.eqb_spec (BatchSize (spec stream)) (BatchSize newSpec)); [congruence|].
  destruct (Z.eqb_spec (BatchSize newSpec) 0); [lia|].
  destruct (Z.ltb_spec (BatchSize newSpec) 1000); [reflexivity|lia].
Qed.


(** On a running stream the three goroutines leave on the interrupt, the
    wait returns, and an update that changes the type returns its
    error. *)
Lemma update_type_change_returns (newSpec : StreamInfo) (a : eventStream) :
  running a ->
  Type_ newSpec <> "" ->
  Type_ newSpec <> Type_ (spec a) ->
  exists a',
    update quiesce newSpec a
    = Returned (a', inl EventStreamsCannotUpdateType,
                [SubscriptionsStale]).
Proof.
  intros [S T Q I W G] T1 T2.
  destruct a as [sp al ch st pd pi po fl bq bc ip ui wg ac gs].
  cbn [spec stopped batchQueue updateInterrupt updateWG goroutines] in *.
  subst st bq ui wg gs.
  destruct sp as [cr id' na pa su ty bs bt eh rt br wh ws ts tc].
  cbn [Suspended Type_] in *. subst su.
  cbv -[update_apply].
  rewrite update_apply_type by assumption.
  eexists. reflexivity.
Qed.

Lemma UpdateStream_type_change_returns (put_fails : bool) (id : string)
    (newSpec : StreamInfo) (s : subscriptionMGR) (stream : eventStream) :
  streams s !! id = Some stream ->
  running stream ->
  Type_ newSpec <> "" ->
  Type_ newSpec <> Type_ (spec stream) ->
  exists s',
    UpdateStream quiesce put_fails id (Some newSpec) s
    = Returned (s', inl (NewRestError EventStreamsCannotUpdateType 500)).
Proof.
  intros L R T1 T2.
  destruct (update_type_change_returns newSpec stream R T1 T2) as (a' & U).
  unfold UpdateStream, streamByID. rewrite L, U.
  eexists. reflexivity.
Qed.

Lemma newEventStream_running (conf : EventstreamConf) (info : StreamInfo)
    (a : eventStream) :
  newEventStream conf (Some info) = inr a ->
  Suspended info = false ->
  running a.
Proof.
  intros N S.
  assert (SN : Suspended (normalise info) = false).
  { unfold normalise.
    repeat match goal with
    | |- context [if ?c then _ else _] => destruct c
    end; info_fields; exact S. }
  unfold newEventStream in N.
  destruct (String.eqb (GetID info) ""); [discriminate|].
  cbv zeta in N.
  destruct (String.eqb _ "webhook").
  - destruct (newWebhookAction _); [discriminate|].
    injection N as <-. split; try reflexivity. exact SN.
  - destruct (String.eqb _ "websocket"); [|discriminate].
    destruct (from_option validateWebSocket None _); [discriminate|].
    destruct (newWebSocketAction _); [discriminate|].
    injection N as <-. split; try reflexivity. exact SN.
Qed.

End UpdateCalls.

Lemma UpdateStream_batchSize_1000_witness :
  exists (s' : subscriptionMGR) (info : StreamInfo),
    @UpdateStream sampleExternals quiesce false "es-1"
      (Some (sampleUpdate "" 1000)) sampleManager
    = Returned (s', inr info)
    /\ BatchSize (spec sampleStream) = 1
    /\ BatchSize info = 1.
Proof.
  destruct (@UpdateStream sampleExternals quiesce false "es-1"
              (Some (sampleUpdate "" 1000)) sampleManager)
    as [[s' [e|info]]| |] eqn:E; try (vm_compute in E; discriminate E).
  exists s', info. split; [reflexivity|]. split; [reflexivity|].
  assert (L : streams sampleManager !! "es-1" = Some sampleStream)
    by (vm_compute; reflexivity).
  assert (N : BatchSize (spec sampleStream) <> 1000) by (vm_compute; discriminate).
  destruct (@UpdateStream_batchSize_1000 sampleExternals quiesce false "es-1"
              (sampleUpdate "" 1000) sampleManager s' sampleStream info
              L eq_refl N E) as (B & _).
  exact B.
Defined.



(** ** An update that fails *)

Section FailedUpdate.
Context `{Externals}.

(** C10, as the code has it. When [update] returns an error, nothing
    after the wait but assignments to the specification has run, so
    [postUpdateStream] has not: [updateInProgress] is true,
    [updateInterrupt] is closed, and the goroutines are those left when
    the wait returned.  When the wait group counted every goroutine of
    the stream none is left, and no turn of a goroutine of the stream is
    possible; a further [update] panics on the closed channel. *)
Theorem update_error (sched : list step) (newSpec : StreamInfo)
    (a a' : eventStream) (e : error) (effs : list effect) :
  update sched newSpec a = Returned (a', inl e, effs) ->
  updateInProgress a' = true
  /\ updateInterrupt a' = chanClosed
  /\ (exists a1 a2 s,
        update_interrupt a = Returned a1
        /\ run sched a1 = Returned (a2, effs)
        /\ a' = set_spec s a2)
  /\ (counted a ->
      goroutines a' = [] /\ forall s : step, iterate s a' = Blocked)
  /\ (forall sched' newSpec',
        update sched' newSpec' a' = Panicked "close of closed channel").
Proof.
  intros E. apply update_inv in E as (a1 & a2 & I & R & W & A).
  destruct (update_wait_frame _ _ _ _ _ I R) as (F & P & C & K).
  apply update_apply_spec in A as (s & ->). stream_fields.
  split; [exact P|]. split; [exact C|].
  split; [eauto 10|]. split.
  - intros KA. specialize (K KA). unfold counted in K. rewrite W in K.
    assert (G : goroutines a2 = []).
    { destruct (goroutines a2); [reflexivity|]. simpl in K. lia. }
    split; [exact G|].
    intros [n w|n r|n env]; simpl; stream_fields; rewrite G; reflexivity.
  - intros sched' newSpec'. unfold update, update_interrupt,
      close_updateInterrupt, preUpdateStream. stream_fields.
    rewrite C. reflexivity.
Qed.

End FailedUpdate.

Lemma update_error_witness :
  exists (a' : eventStream) (effs : list effect),
    @update sampleExternals quiesce (sampleUpdate "websocket" 0) sampleStream
    = Returned (a', inl EventStreamsCannotUpdateType, effs)
    /\ updateInProgress a' = true
    /\ updateInterrupt a' = chanClosed
    /\ goroutines a' = [].
Proof.
  destruct (@update sampleExternals quiesce (sampleUpdate "websocket" 0)
              sampleStream) as [[[a' [e|info]] effs]| |] eqn:E;
    try (vm_compute in E; discriminate E).
  assert (e = EventStreamsCannotUpdateType).
  { vm_compute in E. injection E as _ <- _. reflexivity. }
  subst e. exists a', effs. split; [reflexivity|].
  destruct (@update_error sampleExternals quiesce (sampleUpdate "websocket" 0)
              sampleStream a' _ effs E) as (P & C & _ & G & _).
  split; [exact P|]. split; [exact C|].
  apply G. unfold counted. vm_compute. discriminate.
Defined.

(** C10, as the spec states it, fails: after an update that returned an
    error, with a batch that the dispatcher queued on its way out, a
    resume succeeds and starts a poller and a processor, and the
    processor delivers the batch to the sink. *)
Lemma delivery_after_failed_update :
  exists (a1 a2 a3 : eventStream) (effs effs' : list effect),
    @update sampleExternals quiesce_late (sampleUpdate "websocket" 0) sampleStream
    = Returned (a1, inl EventStreamsCannotUpdateType, effs)
    /\ batchQueue a1 = [[sampleEvent 7]]
    /\ resume a1 = (a2, None)
    /\ goroutines a2 = [goEventPoller; goBatchProcessor]
    /\ iterate (stepProcessor 1 delivered) a2 = Returned (a3, effs')
    /\ attempts effs' = [[event (sampleEvent 7)]]
    /\ batchCompletes effs' = [event (sampleEvent 7)].
Proof.
  destruct (@update sampleExternals quiesce_late (sampleUpdate "websocket" 0)
              sampleStream) as [[[a1 [e|info]] effs]| |] eqn:E;
    try (vm_compute in E; discriminate E).
  vm_compute in E. injection E as <- <- <-.
  eexists _, _, _, _, _.
  split; [reflexivity|]. split; [reflexivity|].
  split; [vm_compute; reflexivity|]. split; [reflexivity|].
  split; [vm_compute; reflexivity|]. split; reflexivity.
Qed.

(** ** Close *)

Lemma stopStreams_closed (l : list (string * eventStream)) :
  forall l',
    stopStreams l = Returned l' ->
    length l' = length l
    /\ Forall (fun kv => eventStream_chan kv.2 = chanClosed) l'.
Proof.
  induction l as [|[id stream] l IH]; simpl; intros l' E.
  - returned. split; [reflexivity|constructor].
  - apply bind_Returned in E as (stream' & S & E).
    apply bind_Returned in E as (l1 & R & E). returned.
    apply IH in R as [R1 R2]. split; [simpl; congruence|].
    constructor; [|exact R2]. simpl.
    unfold stop in S. stream_fields.
    destruct (eventStream_chan stream); returned. reflexivity.
Qed.

Lemma stopStreams_again (l : list (string * eventStream)) :
  l <> [] ->
  Forall (fun kv => eventStream_chan kv.2 = chanClosed) l ->
  stopStreams l = Panicked "close of closed channel".
Proof.
  intros NE F. destruct l as [|[id stream] l]; [contradiction|].
  apply Forall_cons in F as [F _]. simpl in *.
  unfold stop. stream_fields. rewrite F. reflexivity.
Qed.

Section CloseTwice.
Context `{SubscriptionMethods}.

(** C8, where the code departs from it. For a manager that holds at
    least one stream, a second [Close] after a first one that completed
    does not complete: it stops again a stream that is stopped, which
    closes a closed channel and panics. *)
Theorem Close_twice_panics (s s' : subscriptionMGR) :
  streams s <> ∅ ->
  Close s = Returned s' ->
  Close s' = Panicked "close of closed channel".
Proof.
  intros NE E. unfold Close in E.
  apply bind_Returned in E as (l' & S & E). returned.
  apply stopStreams_closed in S as [LEN CL].
  unfold Close. cbn [streams].
  rewrite stopStreams_again; [reflexivity| |].
  - intros M. apply map_to_list_empty_iff in M.
    destruct l' as [|[k v] l'].
    + apply NE. apply map_to_list_empty_iff.
      destruct (map_to_list (streams s)); [reflexivity|discriminate LEN].
    + rewrite list_to_map_cons in M. apply (insert_non_empty _ _ _ M).
  - apply Forall_forall. intros [k v] I.
    apply elem_of_map_to_list, elem_of_list_to_map_2 in I.
    rewrite Forall_forall in CL. apply (CL _ I).
Qed.

End CloseTwice.

Lemma Close_twice_panics_witness :
  exists s' : subscriptionMGR,
    @Close sampleMethods sampleManager = Returned s'
    /\ closed s' = true
    /\ @Close sampleMethods s' = Panicked "close of closed channel".
Proof.
  destruct (@Close sampleMethods sampleManager) as [s'| |] eqn:E;
    try (vm_compute in E; discriminate E).
  exists s'. split; [reflexivity|].
  assert (NE : streams sampleManager <> ∅).
  { intros M. apply (f_equal (fun m => m !! "es-1")) in M.
    vm_compute in M. discriminate M. }
  split.
  - unfold Close in E. apply bind_Returned in E as (l & _ & E).
    injection E as <-. reflexivity.
  - exact (@Close_twice_panics sampleMethods sampleManager s' NE E).
Defined.

(** * More of the stream and of the manager *)

(** ** What an update may change *)

Lemma settings_immutable (s s' : StreamInfo) :
  settings s' = settings s -> immutable s' = immutable s.
Proof.
  intros E. change (immutable (settings s') = immutable (settings s)).
  rewrite E. reflexivity.
Qed.

(** The plain fields after the assignments of [update]. *)
Lemma update_fields_fields `{Externals} (newSpec s : StreamInfo) :
  BatchSize (update_fields newSpec s)
    = (if negb (BatchSize s =? BatchSize newSpec)
          && negb (BatchSize newSpec =? 0)
          && (BatchSize newSpec <? MaxBatchSize)
       then BatchSize newSpec else BatchSize s)
  /\ BatchTimeoutMS (update_fields newSpec s)
    = (if BatchTimeoutMS newSpec =? 0 then BatchTimeoutMS s
       else BatchTimeoutMS newSpec)
  /\ BlockedRetryDelaySec (update_fields newSpec s)
    = (if BlockedRetryDelaySec newSpec =? 0 then BlockedRetryDelaySec s
       else BlockedRetryDelaySec newSpec)
  /\ ErrorHandling (update_fields newSpec s)
    = (if String.eqb (ToLower (ErrorHandling newSpec)) "block"
       then "block" else "skip")
  /\ Name (update_fields newSpec s)
    = (if String.eqb (Name newSpec) "" then Name s else Name newSpec)
  /\ Timestamps (update_fields newSpec s) = Timestamps newSpec.
Proof.
  unfold update_fields, ErrorHandlingBlock, ErrorHandlingSkip.
  destruct (negb (BatchSize s =? BatchSize newSpec)
            && negb (BatchSize newSpec =? 0)
            && (BatchSize newSpec <? MaxBatchSize)); info_fields;
    (destruct (Z.eqb_spec (BatchTimeoutMS s) (BatchTimeoutMS newSpec)) as [T|T];
     destruct (Z.eqb_spec (BatchTimeoutMS newSpec) 0) as [T0|T0];
     cbn [negb andb]; info_fields;
     destruct (Z.eqb_spec (BlockedRetryDelaySec s) (BlockedRetryDelaySec newSpec))
       as [R|R];
     destruct (Z.eqb_spec (BlockedRetryDelaySec newSpec) 0) as [R0|R0];
     cbn [negb andb]; info_fields;
     destruct (String.eqb (ToLower (ErrorHandling newSpec)) "block");
     info_fields;
     destruct (String.eqb_spec (Name newSpec) "") as [N0|N0];
     destruct (String.eqb_spec (Name s) (Name newSpec)) as [N|N];
     cbn [negb andb]; info_fields;
     destruct (Timestamps s) eqn:TS; destruct (Timestamps newSpec) eqn:TN;
     cbn [negb Bool.eqb]; info_fields; rewrite ?TS, ?TN;
     repeat split; congruence).
Qed.

Lemma update_fields_keeps `{Externals} (newSpec s : StreamInfo) :
  immutable (update_fields newSpec s) = immutable s
  /\ Suspended (update_fields newSpec s) = Suspended s
  /\ Webhook (update_fields newSpec s) = Webhook s
  /\ WebSocket (update_fields newSpec s) = WebSocket s.
Proof.
  unfold update_fields, immutable.
  repeat match goal with
  | |- context [if ?c then _ else _] => destruct c
  end; info_fields; auto.
Qed.

Lemma normalised_fields (s s' : StreamInfo) :
  BatchSize s' = BatchSize s ->
  BatchTimeoutMS s' = BatchTimeoutMS s ->
  BlockedRetryDelaySec s' = BlockedRetryDelaySec s ->
  TimestampCacheSize s' = TimestampCacheSize s ->
  ErrorHandling s' = ErrorHandling s ->
  normalised s -> normalised s'.
Proof.
  intros E1 E2 E3 E4 E5 []. split; rewrite ?E1, ?E2, ?E3, ?E4, ?E5; assumption.
Qed.

Lemma settings_normalised (s s' : StreamInfo) :
  settings s' = settings s -> normalised s -> normalised s'.
Proof.
  intros E.
  apply normalised_fields;
    [exact (f_equal BatchSize E)|exact (f_equal BatchTimeoutMS E)
    |exact (f_equal BlockedRetryDelaySec E)|exact (f_equal TimestampCacheSize E)
    |exact (f_equal ErrorHandling E)].
Qed.

Lemma normalise_normalised `{Externals} (info : StreamInfo) :
  0 <= BatchSize info -> normalised (normalise info).
Proof.
  intros B.
  destruct (normalise_fields info) as (E1 & E2 & E3 & E4 & E5).
  unfold MaxBatchSize.
  split; unfold MaxBatchSize, ErrorHandlingBlock, ErrorHandlingSkip;
    rewrite ?E1, ?E2, ?E3, ?E4, ?E5.
  - destruct (Z.eqb_spec (BatchSize info) 0); [lia|].
    destruct (BatchSize info >? 1000) eqn:G; [lia|].
    rewrite Z.gtb_ltb in G. apply Z.ltb_ge in G. lia.
  - destruct (Z.eqb_spec (BatchTimeoutMS info) 0); [lia|assumption].
  - destruct (Z.eqb_spec (BlockedRetryDelaySec info) 0); [lia|assumption].
  - destruct (Z.eqb_spec (TimestampCacheSize info) 0); [lia|assumption].
  - destruct (String.eqb (ToLower (ErrorHandling info)) "block"); auto.
Qed.

Lemma update_fields_normalised `{Externals} (newSpec s : StreamInfo) :
  0 <= BatchSize newSpec -> normalised s -> normalised (update_fields newSpec s).
Proof.
  intros B [N1 N2 N3 N4 N5].
  destruct (update_fields_fields newSpec s) as (E1 & E2 & E3 & E4 & _).
  destruct (update_fields_keeps newSpec s) as (I & _).
  assert (E5 : TimestampCacheSize (update_fields newSpec s) = TimestampCacheSize s).
  { unfold immutable in I. congruence. }
  split; unfold MaxBatchSize, ErrorHandlingBlock, ErrorHandlingSkip in *;
    rewrite ?E1, ?E2, ?E3, ?E4, ?E5.
  - destruct (Z.eqb_spec (BatchSize s) (BatchSize newSpec));
      destruct (Z.eqb_spec (BatchSize newSpec) 0);
      destruct (Z.ltb_spec (BatchSize newSpec) 1000); cbn [negb andb]; lia.
  - destruct (Z.eqb_spec (BatchTimeoutMS newSpec) 0); assumption.
  - destruct (Z.eqb_spec (BlockedRetryDelaySec newSpec) 0); assumption.
  - assumption.
  - destruct (String.eqb (ToLower (ErrorHandling newSpec)) "block"); auto.
Qed.

Section UpdateShape.
Context `{Externals}.

(** What the second half of [update] leaves in the stream: the two
    sub-configurations assigned, and on success the plain fields and
    the restart. *)
Lemma update_apply_shape (newSpec : StreamInfo) (a a' : eventStream)
    (res : error + StreamInfo) :
  update_apply newSpec a = Returned (a', res) ->
  exists w ws,
    match res with
    | inl _ => a' = set_spec (set_WebSocket ws (set_Webhook w (spec a))) a
    | inr info =>
      info = update_fields newSpec (set_WebSocket ws (set_Webhook w (spec a)))
      /\ a' = postUpdateStream (set_spec info a)
    end.
Proof.
  unfold update_apply. intros E.
  assert (S : forall w (b : eventStream),
             set_WebSocket (WebSocket (set_Webhook w (spec b))) (set_Webhook w (spec b))
             = set_Webhook w (spec b)).
  { intros w b. destruct (spec b). reflexivity. }
  destruct (negb (String.eqb (Type_ newSpec) "")
            && negb (String.eqb (Type_ newSpec) (Type_ (spec a)))).
  { returned. exists (Webhook (spec a')), (WebSocket (spec a')).
    destruct a' as [s]; destruct s; reflexivity. }
  apply bind_Returned in E as ([a1 err1] & W & E). cbv beta iota in E.
  apply update_webhook_spec in W as (w & ->).
  destruct err1.
  { returned. exists w, (WebSocket (set_Webhook w (spec a))).
    rewrite S. reflexivity. }
  apply bind_Returned in E as ([a2 err2] & U & E). cbv beta iota in E.
  apply update_websocket_spec in U as (ws & ->).
  destruct err2; returned; exists w, ws; [reflexivity|split; reflexivity].
Qed.

Lemma perform_immutable (o : operation) (a a' : eventStream) (effs : list effect) :
  perform o a = Returned (a', effs) -> immutable (spec a') = immutable (spec a).
Proof.
  destruct o as [s|c| |newSpec]; simpl; intros E.
  - apply iterate_frame in E as [F _].
    apply settings_immutable, F.
  - apply bind_Returned in E as (a1 & I & E). returned.
    apply interfere1_evolves in I. apply settings_immutable, I.
  - returned. unfold resume.
    destruct (negb (processorDone a) || negb (pollerDone a)); reflexivity.
  - apply bind_Returned in E as (a1 & W & E).
    unfold wgWait in W. destruct (updateWG a =? 0); [|discriminate].
    injection W as <-.
    apply bind_Returned in E as ([a2 res] & U & E). cbv beta iota in E.
    injection E as <- <-.
    apply update_apply_shape in U as (w & ws & U).
    destruct res as [e|info].
    + subst a2. reflexivity.
    + destruct U as (-> & ->).
      change (spec (postUpdateStream (set_spec ?i _))) with i.
      rewrite (proj1 (update_fields_keeps _ _)). reflexivity.
Qed.

Lemma execute_immutable (ops : list operation) :
  forall (a a' : eventStream) (effs : list effect),
    execute ops a = Returned (a', effs) ->
    immutable (spec a') = immutable (spec a).
Proof.
  induction ops as [|o ops IH]; simpl; intros a a' effs E.
  - returned. reflexivity.
  - apply bind_Returned in E as ([a1 effs1] & P & E). cbv beta iota in E.
    apply bind_Returned in E as ([a2 effs2] & X & E). returned.
    rewrite (IH _ _ _ X). eapply perform_immutable. exact P.
Qed.

(** X1. Along every history of a stream (turns of its goroutines,
    racing suspend, stop and update calls, resumes, updates that
    succeed or fail), the creation time, the identifier, the path, the
    type, the retry timeout and the timestamp cache size of its
    specification stay what they were: no update changes them,
    whatever the request holds in these fields. *)
Theorem specification_immutable (ops : list operation) (a a' : eventStream)
    (effs : list effect) :
  execute ops a = Returned (a', effs) ->
  immutable (spec a') = immutable (spec a).
Proof.
  revert a a' effs.
  induction ops as [|o ops IH]; simpl; intros a a' effs E.
  - returned. reflexivity.
  - apply bind_Returned in E as ([a1 effs1] & P & E). cbv beta iota in E.
    apply bind_Returned in E as ([a2 effs2] & X & E). returned.
    transitivity (immutable (spec a1)).
    + eapply IH. exact X.
    + eapply perform_immutable. exact P.
Qed.

Lemma perform_normalised (o : operation) (a a' : eventStream) (effs : list effect) :
  match o with opApply newSpec => 0 <= BatchSize newSpec | _ => True end ->
  perform o a = Returned (a', effs) ->
  normalised (spec a) -> normalised (spec a').
Proof.
  destruct o as [s|c| |newSpec]; simpl; intros B E.
  - apply iterate_frame in E as [F _]. apply settings_normalised, F.
  - apply bind_Returned in E as (a1 & I & E). returned.
    apply interfere1_evolves in I. apply settings_normalised, I.
  - returned. unfold resume.
    destruct (negb (processorDone a) || negb (pollerDone a)); [auto|].
    apply normalised_fields; reflexivity.
  - apply bind_Returned in E as (a1 & W & E).
    unfold wgWait in W. destruct (updateWG a =? 0); [|discriminate].
    injection W as <-.
    apply bind_Returned in E as ([a2 res] & U & E). cbv beta iota in E.
    injection E as <- <-.
    apply update_apply_shape in U as (w & ws & U).
    destruct res as [e|info].
    + subst a2. apply normalised_fields; reflexivity.
    + destruct U as (-> & ->). intros N.
      change (spec (postUpdateStream (set_spec ?i _))) with i.
      apply update_fields_normalised; [exact B|].
      revert N. apply normalised_fields; reflexivity.
Qed.

Lemma execute_normalised (ops : list operation) :
  unsigned_sizes ops ->
  forall (a a' : eventStream) (effs : list effect),
    normalised (spec a) ->
    execute ops a = Returned (a', effs) ->
    normalised (spec a').
Proof.
  induction 1 as [|o ops O U IH]; simpl; intros a a' effs I E.
  - returned. exact I.
  - apply bind_Returned in E as ([a1 effs1] & P & E). cbv beta iota in E.
    apply bind_Returned in E as ([a2 effs2] & X & E). returned.
    eapply IH; [|exact X]. eapply perform_normalised; eassumption.
Qed.

Lemma newEventStream_normalised (conf : EventstreamConf) (info : StreamInfo)
    (a : eventStream) :
  newEventStream conf (Some info) = inr a ->
  0 <= BatchSize info ->
  normalised (spec a).
Proof.
  intros N B. apply newEventStream_spec in N as (t & w & ws & ->).
  generalize (normalise_normalised info B).
  apply normalised_fields; reflexivity.
Qed.

(** X2. Along every history of a stream from its construction, with
    batch sizes that are values of [uint64], the specification stays in
    the ranges of the constructor: the batch size is between 1 and
    1000, the batch timeout, the blocked retry delay and the timestamp
    cache size are not zero, and the error handling is "block" or
    "skip". *)
Theorem specification_normalised (conf : EventstreamConf) (info : StreamInfo)
    (a a' : eventStream) (ops : list operation) (effs : list effect) :
  newEventStream conf (Some info) = inr a ->
  0 <= BatchSize info ->
  unsigned_sizes ops ->
  execute ops a = Returned (a', effs) ->
  normalised (spec a').
Proof.
  intros N B U E.
  eapply execute_normalised; [exact U| |exact E].
  eapply newEventStream_normalised; eassumption.
Qed.

End UpdateShape.

Lemma specification_immutable_witness :
  exists (a' : eventStream) (effs : list effect),
    @execute sampleExternals sampleHistory sampleStream = Returned (a', effs)
    /\ BatchSize (spec a') = 50
    /\ immutable (spec a') = immutable (spec sampleStream).
Proof.
  destruct (@execute sampleExternals sampleHistory sampleStream)
    as [[a' effs]| |] eqn:E; try (vm_compute in E; discriminate E).
  exists a', effs. split; [reflexivity|]. split.
  - vm_compute in E. injection E as <- _. reflexivity.
  - exact (@specification_immutable sampleExternals sampleHistory _ _ _ E).
Defined.

Lemma specification_normalised_witness :
  exists (a' : eventStream) (effs : list effect),
    @execute sampleExternals sampleHistory sampleStream = Returned (a', effs)
    /\ normalised (spec a').
Proof.
  destruct (@execute sampleExternals sampleHistory sampleStream)
    as [[a' effs]| |] eqn:E; try (vm_compute in E; discriminate E).
  exists a', effs. split; [reflexivity|].
  apply (@specification_normalised sampleExternals sampleConf sampleInfo
           sampleStream a' sampleHistory effs).
  - vm_compute. reflexivity.
  - vm_compute. discriminate.
  - unfold unsigned_sizes, sampleHistory.
    repeat constructor. vm_compute. discriminate.
  - exact E.
Defined.

(** ** What a successful update assigns *)

Section UpdateResults.
Context `{Externals}.

(** A successful [UpdateStream], step by step. *)
Lemma UpdateStream_inv (sched : list step) (put_fails : bool) (id : string)
    (newSpec : StreamInfo) (s s' : subscriptionMGR) (stream : eventStream)
    (info : StreamInfo) :
  streams s !! id = Some stream ->
  UpdateStream sched put_fails id (Some newSpec) s = Returned (s', inr info) ->
  exists a2 kv,
    frame stream a2
    /\ update_apply newSpec a2
       = Returned (postUpdateStream (set_spec info a2), inr info)
    /\ db s = Some kv
    /\ put_fails = false
    /\ streams s' = <[id := postUpdateStream (set_spec info a2)]> (streams s)
    /\ db s' = Some (Put (ID info) (streamRecord info) kv).
Proof.
  intros L E. unfold UpdateStream, streamByID in E. rewrite L in E.
  apply bind_Returned in E as ([[a' res] effs] & U & E). cbv beta iota zeta in E.
  destruct res as [e|updated]; [returned|].
  apply bind_Returned in E as ([s1 stored] & S & E). cbv beta iota in E.
  destruct stored as [e|streamInfo]; [returned|].
  injection E as <- <-.
  unfold storeStream in S.
  destruct (db (put_stream id a' s)) as [kv|] eqn:D; [|discriminate].
  destruct put_fails; [returned|]. injection S as <- <-.
  apply update_inv in U as (a1 & a2 & I & R & W & A).
  destruct (update_wait_frame _ _ _ _ _ I R) as (F & _).
  pose proof (update_apply_spec _ _ _ _ A) as (w & ws & _ & A').
  rewrite A' in A. exists a2, kv.
  split; [exact F|]. split; [exact A|]. split; [exact D|].
  split; [reflexivity|]. split; [rewrite A'; reflexivity|reflexivity].
Qed.

(** X3. A successful [UpdateStream] keeps the name, the batch timeout
    and the blocked retry delay of the stream where the request leaves
    them empty or zero, and takes them from the request otherwise; the
    error handling and the timestamps flag are always taken from the
    request: an error handling that [strings.ToLower] does not lower to
    "block", an absent one included, makes the stream "skip" (for a
    value of ASCII bytes: one that is not "block" in any case of its
    letters), and an absent timestamps flag clears the flag.  The
    specification returned is the one of the stream in the registry
    and the one persisted under the identifier of the stream. *)
Theorem UpdateStream_assigns (sched : list step) (put_fails : bool) (id : string)
    (newSpec : StreamInfo) (s s' : subscriptionMGR) (stream : eventStream)
    (info : StreamInfo) :
  streams s !! id = Some stream ->
  UpdateStream sched put_fails id (Some newSpec) s = Returned (s', inr info) ->
  Name info = (if String.eqb (Name newSpec) "" then Name (spec stream)
               else Name newSpec)
  /\ BatchTimeoutMS info
     = (if BatchTimeoutMS newSpec =? 0 then BatchTimeoutMS (spec stream)
        else BatchTimeoutMS newSpec)
  /\ BlockedRetryDelaySec info
     = (if BlockedRetryDelaySec newSpec =? 0 then BlockedRetryDelaySec (spec stream)
        else BlockedRetryDelaySec newSpec)
  /\ ErrorHandling info
     = (if String.eqb (ToLower (ErrorHandling newSpec)) "block"
        then "block" else "skip")
  /\ (isASCII (ErrorHandling newSpec) = true ->
      ErrorHandling info
      = (if EqualFold (ErrorHandling newSpec) "block" then "block" else "skip"))
  /\ Timestamps info = Timestamps newSpec
  /\ StreamByID id s' = inr info
  /\ exists kv,
       db s' = Some kv
       /\ records kv !! ID (spec stream) = Some (streamRecord info).
Proof.
  intros L E.
  destruct (UpdateStream_inv _ _ _ _ _ _ _ _ L E)
    as (a2 & kv & F & A & D & _ & ST & DB).
  pose proof (frame_settings _ _ F) as SE.
  apply update_apply_shape in A as (w & ws & -> & _).
  set (s2 := set_WebSocket ws (set_Webhook w (spec a2))) in *.
  destruct (update_fields_fields newSpec s2) as (_ & E2 & E3 & E4 & E5 & E6).
  destruct (update_fields_keeps newSpec s2) as (I & _).
  rewrite E2, E3, E4, E5, E6. subst s2. info_fields.
  rewrite (f_equal Name SE : Name (spec a2) = Name (spec stream)).
  rewrite (f_equal BatchTimeoutMS SE
           : BatchTimeoutMS (spec a2) = BatchTimeoutMS (spec stream)).
  rewrite (f_equal BlockedRetryDelaySec SE
           : BlockedRetryDelaySec (spec a2) = BlockedRetryDelaySec (spec stream)).
  repeat (split; [reflexivity|]).
  split; [intros AS; rewrite <- (ToLower_block _ AS); reflexivity|].
  split; [reflexivity|]. split.
  - unfold StreamByID, streamByID. rewrite ST, lookup_insert_eq. reflexivity.
  - eexists. split; [exact DB|]. cbn [records Put].
    assert (K : ID (update_fields newSpec (set_WebSocket ws (set_Webhook w (spec a2))))
                = ID (spec stream)).
    { unfold immutable in I. info_fields.
      pose proof (f_equal ID SE : ID (spec a2) = ID (spec stream)). congruence. }
    rewrite K. apply lookup_insert_eq.
Qed.


Lemma update_websocket_other (newSpec : StreamInfo) (a : eventStream) :
  Type_ (spec a) <> "websocket" -> update_websocket newSpec a = Returned (a, None).
Proof.
  intros T. unfold update_websocket. apply String.eqb_neq in T. rewrite T.
  destruct (WebSocket newSpec); reflexivity.
Qed.

Lemma update_apply_webhook (newSpec : StreamInfo) (a a' : eventStream)
    (info : StreamInfo) :
  Type_ (spec a) = "webhook" ->
  update_apply newSpec a = Returned (a', inr info) ->
  Webhook info
  = match Webhook newSpec with
    | Some w =>
      Some {| URL := URL w; Headers := Headers w;
              TLSkipHostVerify := TLSkipHostVerify w;
              RequestTimeoutSec :=
                if RequestTimeoutSec w =? 0 then 120 else RequestTimeoutSec w |}
    | None => Webhook (spec a)
    end
  /\ forall w, Webhook newSpec = Some w -> URL w <> "" /\ urlParse (URL w) = true.
Proof.
  intros T E. unfold update_apply in E.
  destruct (negb (String.eqb (Type_ newSpec) "")
            && negb (String.eqb (Type_ newSpec) (Type_ (spec a)))); [discriminate|].
  apply bind_Returned in E as ([a1 err1] & W & E). cbv beta iota in E.
  destruct err1; [discriminate|].
  assert (T1 : Type_ (spec a1) = "webhook").
  { apply update_webhook_spec in W as (w & ->). exact T. }
  rewrite update_websocket_other in E by (rewrite T1; discriminate).
  simpl in E. injection E as <- <-.
  change (spec (postUpdateStream (set_spec ?i _))) with i.
  rewrite (proj1 (proj2 (proj2 (update_fields_keeps _ _)))).
  unfold update_webhook in W. rewrite T in W.
  change (String.eqb "webhook" "webhook") with true in W. cbv iota in W.
  destruct (Webhook newSpec) as [w|]; [|injection W as <-; split; [reflexivity|discriminate]].
  destruct (String.eqb_spec (URL w) "") as [U|U]; [discriminate|].
  destruct (urlParse (URL w)) eqn:P; [|discriminate]. cbn [negb] in W.
  destruct (Webhook (spec a)); [|discriminate]. injection W as <-.
  split; [reflexivity|]. intros w' [= <-]. split; assumption.
Qed.

(** X4. On a webhook stream, a successful [UpdateStream] whose request
    holds a webhook section replaces the webhook settings of the stream
    as a whole: the URL, which is not empty and parses, the headers and
    the TLS flag are those of the request, nothing is merged with the
    settings of before, and a request timeout of zero becomes 120
    seconds; a request without a webhook section leaves the
    settings. *)
Theorem UpdateStream_webhook (sched : list step) (put_fails : bool) (id : string)
    (newSpec : StreamInfo) (s s' : subscriptionMGR) (stream : eventStream)
    (info : StreamInfo) :
  streams s !! id = Some stream ->
  Type_ (spec stream) = "webhook" ->
  UpdateStream sched put_fails id (Some newSpec) s = Returned (s', inr info) ->
  Webhook info
  = match Webhook newSpec with
    | Some w =>
      Some {| URL := URL w; Headers := Headers w;
              TLSkipHostVerify := TLSkipHostVerify w;
              RequestTimeoutSec :=
                if RequestTimeoutSec w =? 0 then 120 else RequestTimeoutSec w |}
    | None => Webhook (spec stream)
    end
  /\ forall w, Webhook newSpec = Some w -> URL w <> "" /\ urlParse (URL w) = true.
Proof.
  intros L T E.
  destruct (UpdateStream_inv _ _ _ _ _ _ _ _ L E)
    as (a2 & kv & F & A & _).
  pose proof (frame_settings _ _ F) as SE.
  apply update_apply_webhook in A.
  - rewrite (f_equal Webhook SE : Webhook (spec a2) = Webhook (spec stream)) in A.
    exact A.
  - rewrite (f_equal Type_ SE : Type_ (spec a2) = Type_ (spec stream)). exact T.
Qed.



(** X6. When the wait group counts every goroutine of the stream, an
    [update] that succeeds leaves exactly three goroutines, a poller, a
    processor and a dispatcher with an empty batch, counted by a wait
    group at three, with the interrupt channel open again and the
    update and exit flags cleared: no goroutine of before the update
    is left. *)
Theorem update_restarts (sched : list step) (newSpec : StreamInfo)
    (a a' : eventStream) (info : StreamInfo) (effs : list effect) :
  counted a ->
  update sched newSpec a = Returned (a', inr info, effs) ->
  spec a' = info
  /\ goroutines a' = [goEventPoller; goBatchProcessor; goBatchDispatcher []]
  /\ updateWG a' = 3
  /\ updateInterrupt a' = chanOpen
  /\ updateInProgress a' = false
  /\ processorDone a' = false
  /\ pollerDone a' = false.
Proof.
  intros K E. apply update_inv in E as (a1 & a2 & I & R & W & A).
  destruct (update_wait_frame _ _ _ _ _ I R) as (_ & _ & _ & C).
  specialize (C K). unfold counted in C. rewrite W in C.
  assert (G : goroutines a2 = []).
  { destruct (goroutines a2); [reflexivity|]. simpl in C. lia. }
  apply update_apply_spec in A as (w & ws & _ & ->).
  unfold postUpdateStream, startEventHandlers. cbn [negb]. stream_fields.
  rewrite G. repeat split.
Qed.

End UpdateResults.

Lemma UpdateStream_assigns_witness :
  exists (s' : subscriptionMGR) (info : StreamInfo),
    @UpdateStream sampleExternals quiesce false "es-1"
      (Some (sampleHookUpdate "http://hook.example/new")) sampleManager
    = Returned (s', inr info)
    /\ Name info = "renamed"
    /\ ErrorHandling info = "block"
    /\ BatchTimeoutMS info = 5000
    /\ StreamByID "es-1" s' = inr info.
Proof.
  destruct (@UpdateStream sampleExternals quiesce false "es-1"
              (Some (sampleHookUpdate "http://hook.example/new")) sampleManager)
    as [[s' [e|info]]| |] eqn:E; try (vm_compute in E; discriminate E).
  exists s', info. split; [reflexivity|].
  assert (L : streams sampleManager !! "es-1" = Some sampleStream)
    by (vm_compute; reflexivity).
  destruct (@UpdateStream_assigns sampleExternals _ _ _ _ _ _ _ _ L E)
    as (N & T & _ & H & _ & _ & S & _).
  repeat split; assumption.
Defined.

Lemma UpdateStream_webhook_witness :
  exists (s' : subscriptionMGR) (info : StreamInfo),
    @UpdateStream sampleExternals quiesce false "es-1"
      (Some (sampleHookUpdate "http://hook.example/new")) sampleManager
    = Returned (s', inr info)
    /\ Webhook info
       = Some {| URL := "http://hook.example/new"; Headers := ∅;
                 TLSkipHostVerify := true; RequestTimeoutSec := 120 |}.
Proof.
  destruct (@UpdateStream sampleExternals quiesce false "es-1"
              (Some (sampleHookUpdate "http://hook.example/new")) sampleManager)
    as [[s' [e|info]]| |] eqn:E; try (vm_compute in E; discriminate E).
  exists s', info. split; [reflexivity|].
  assert (L : streams sampleManager !! "es-1" = Some sampleStream)
    by (vm_compute; reflexivity).
  exact (proj1 (@UpdateStream_webhook sampleExternals _ _ _ _ _ _ _ _ L eq_refl E)).
Defined.


Lemma update_restarts_witness :
  exists (a' : eventStream) (info : StreamInfo) (effs : list effect),
    @update sampleExternals quiesce (sampleUpdate "" 50) sampleStream
    = Returned (a', inr info, effs)
    /\ BatchSize info = 50
    /\ goroutines a' = [goEventPoller; goBatchProcessor; goBatchDispatcher []]
    /\ updateWG a' = 3.
Proof.
  destruct (@update sampleExternals quiesce (sampleUpdate "" 50) sampleStream)
    as [[[a' [e|info]] effs]| |] eqn:E; try (vm_compute in E; discriminate E).
  exists a', info, effs. split; [reflexivity|].
  split; [vm_compute in E; injection E as _ <- _; reflexivity|].
  assert (K : counted sampleStream) by (unfold counted; vm_compute; discriminate).
  destruct (@update_restarts sampleExternals _ _ _ _ _ _ K E) as (_ & G & W & _).
  split; assumption.
Defined.

(** ** Goroutines that left without telling the wait group *)

Lemma iterate_surplus (s : step) (a a' : eventStream) (effs : list effect) :
  iterate s a = Returned (a', effs) -> surplus a <= surplus a'.
Proof.
  unfold surplus.
  destruct s as [n w|n r|n env]; simpl; intros E.
  - destruct (goroutines a !! n) as [[]|] eqn:L; try discriminate.
    apply bind_Returned in E as ([[a1 c] effs1] & P & E). returned.
    pose proof (eventPoller_evolves _ _ _ _ _ P) as [_ G].
    apply eventPoller_frame in P as [_ W].
    pose proof (lookup_lt_Some _ _ _ L) as B.
    destruct c.
    + rewrite G, W. lia.
    + unfold retire. stream_fields. rewrite G, W, length_delete by eauto. lia.
  - destruct (goroutines a !! n) as [[]|] eqn:L; try discriminate.
    apply bind_Returned in E as ([[a1 local] effs1] & P & E). returned.
    pose proof (batchDispatcher_accounted _ _ _ _ _ _ P) as (_ & _ & _ & G).
    apply batchDispatcher_frame in P as [_ W].
    pose proof (lookup_lt_Some _ _ _ L) as B.
    destruct local.
    + stream_fields. rewrite length_insert, G, W. lia.
    + unfold retire. stream_fields. rewrite G, W, length_delete by eauto. lia.
  - destruct (goroutines a !! n) as [[]|] eqn:L; try discriminate.
    apply bind_Returned in E as ([[a1 c] effs1] & P & E). returned.
    pose proof (batchProcessor_accounted _ _ _ _ _ P) as [_ G].
    apply batchProcessor_frame in P as (_ & W & C).
    pose proof (lookup_lt_Some _ _ _ L) as B.
    destruct c.
    + rewrite G, (C eq_refl). lia.
    + unfold retire. stream_fields. rewrite G, length_delete by eauto. lia.
Qed.

Lemma run_surplus (sched : list step) :
  forall (a a' : eventStream) (effs : list effect),
    run sched a = Returned (a', effs) -> surplus a <= surplus a'.
Proof.
  induction sched as [|s sched IH]; simpl; intros a a' effs E.
  - returned. lia.
  - apply bind_Returned in E as ([a1 effs1] & P & E). cbv beta iota in E.
    apply bind_Returned in E as ([a2 effs2] & X & E). returned.
    apply iterate_surplus in P. apply IH in X. lia.
Qed.

(** The processor of a suspended or stopped stream leaves without
    [Done]. *)
Lemma processor_leaves (n : nat) (env : batch_env) (a a' : eventStream)
    (effs : list effect) :
  suspendOrStop a = true ->
  goroutines a !! n = Some goBatchProcessor ->
  iterate (stepProcessor n env) a = Returned (a', effs) ->
  surplus a' = surplus a + 1 /\ processorDone a' = true /\ effs = [].
Proof.
  intros S L E. simpl in E. rewrite L in E. unfold batchProcessor in E.
  rewrite S in E. simpl in E. injection E as <- <-.
  unfold surplus, retire. stream_fields.
  pose proof (lookup_lt_Some _ _ _ L) as B.
  rewrite length_delete by eauto. repeat split. lia.
Qed.

Section BlockedUpdate.
Context `{Externals}.

(** X7. Once the processor of a suspended or stopped stream has taken
    its turn, it has left without [Done] on the wait group of the
    stream, which counted it; whatever the goroutines do afterwards, no
    [update] of the stream returns: its wait never sees the counter at
    zero. *)
Theorem update_after_processor_left (n : nat) (env : batch_env)
    (sched1 : list step) (a a1 : eventStream) (effs1 : list effect) :
  counted a ->
  suspendOrStop a = true ->
  goroutines a !! n = Some goBatchProcessor ->
  run (stepProcessor n env :: sched1) a = Returned (a1, effs1) ->
  forall sched newSpec r, update sched newSpec a1 <> Returned r.
Proof.
  intros K S L R sched newSpec [[a' res] effs] U.
  cbn [run] in R.
  apply bind_Returned in R as ([a0 effs0] & P & R). cbv beta iota in R.
  apply bind_Returned in R as ([a2 effs2] & X & R). injection R as <- <-.
  apply (processor_leaves _ _ _ _ _ S L) in P as (P & _).
  apply run_surplus in X.
  apply update_inv in U as (b1 & b2 & I & R & W & _).
  apply run_surplus in R.
  pose proof (interfere1_evolves ctlUpdate _ _ I) as V.
  assert (SB : surplus b1 = surplus a2).
  { unfold surplus. rewrite (evolves_goroutines _ _ _ V), (evolves_WG _ _ _ V). lia. }
  unfold counted in K. unfold surplus in *. lia.
Qed.

End BlockedUpdate.

Lemma update_after_processor_left_witness :
  exists (a1 : eventStream) (effs1 : list effect),
    run [stepProcessor 1 idle] (suspend sampleStream) = Returned (a1, effs1)
    /\ forall sched newSpec r,
         @update sampleExternals sched newSpec a1 <> Returned r.
Proof.
  destruct (run [stepProcessor 1 idle] (suspend sampleStream))
    as [[a1 effs1]| |] eqn:E; try (vm_compute in E; discriminate E).
  exists a1, effs1. split; [reflexivity|].
  apply (@update_after_processor_left sampleExternals 1%nat idle []
           (suspend sampleStream) a1 effs1).
  - unfold counted. vm_compute. discriminate.
  - reflexivity.
  - reflexivity.
  - exact E.
Defined.

(** ** A stream that is suspended or stopped *)

Lemma quiet_nil : quiet [].
Proof. repeat split. Qed.

Lemma attempts_app (l1 l2 : list effect) :
  attempts (l1 ++ l2) = attempts l1 ++ attempts l2.
Proof. apply omap_app. Qed.

Lemma quiet_app (l1 l2 : list effect) : quiet l1 -> quiet l2 -> quiet (l1 ++ l2).
Proof.
  intros (A1 & P1 & B1) (A2 & P2 & B2). unfold quiet.
  rewrite attempts_app, processed_events_app, batchCompletes_app, A1, A2, P1, P2,
    B1, B2.
  repeat split.
Qed.

(** What a turn of the poller and a turn of the dispatcher can leave in
    the trace. *)
Lemma eventPoller_trace (w : wake) (a a' : eventStream) (continues : bool)
    (effs : list effect) :
  eventPoller w a = Returned (a', continues, effs) ->
  effs = [] \/ effs = [SubscriptionsStale].
Proof.
  unfold eventPoller. intros E.
  destruct (suspendOrStop a).
  - apply bind_Returned in E as (a1 & D & E). returned. auto.
  - apply bind_Returned in E as (timer & T & E). destruct timer; simpl in E.
    + returned. auto.
    + apply bind_Returned in E as (a1 & D & E). returned. auto.
Qed.

Lemma batchDispatcher_trace (r : receive) (currentBatch : list eventData)
    (a a' : eventStream) (local : option (list eventData)) (effs : list effect) :
  batchDispatcher r currentBatch a = Returned (a', local, effs) ->
  effs = [] \/ exists e, effs = [Accepted e].
Proof.
  unfold batchDispatcher. intros E.
  apply bind_Returned in E as (sel & S & E).
  destruct sel as [[[timeout cb] effs1]|].
  - assert (B : effs1 = [] \/ exists e, effs1 = [Accepted e]).
    { destruct r as [|[e|]|]; simpl in S.
      - destruct currentBatch; returned. auto.
      - destruct (is_closed (eventStream_chan a)); returned. eauto.
      - returned.
      - destruct (is_closed (updateInterrupt a)); returned. }
    destruct (timeout || (Z.of_nat (length cb) =? BatchSize (spec a)));
      returned; exact B.
  - apply bind_Returned in E as (a1 & D & E). returned. auto.
Qed.

(** No turn of a goroutine of a suspended or stopped stream delivers,
    marks a batch processed or acknowledges. *)
Lemma iterate_halted (s : step) (a a' : eventStream) (effs : list effect) :
  suspendOrStop a = true ->
  iterate s a = Returned (a', effs) -> quiet effs.
Proof.
  intros S. destruct s as [n w|n r|n env]; simpl; intros E.
  - destruct (goroutines a !! n) as [[]|] eqn:L; try discriminate.
    apply bind_Returned in E as ([[a1 c] effs1] & P & E). returned.
    apply eventPoller_trace in P as [->| ->]; repeat split.
  - destruct (goroutines a !! n) as [[]|] eqn:L; try discriminate.
    apply bind_Returned in E as ([[a1 local] effs1] & P & E). returned.
    apply batchDispatcher_trace in P as [->|(e & ->)]; repeat split.
  - destruct (goroutines a !! n) as [[]|] eqn:L; try discriminate.
    unfold batchProcessor in E. rewrite S in E. simpl in E.
    injection E as <- <-. apply quiet_nil.
Qed.

Section Halted.
Context `{Externals}.

Lemma perform_stopped (o : operation) (a a' : eventStream) (effs : list effect) :
  stopped a = true ->
  perform o a = Returned (a', effs) ->
  stopped a' = true /\ quiet effs.
Proof.
  intros S.
  assert (SS : suspendOrStop a = true).
  { unfold suspendOrStop. rewrite S. apply orb_true_r. }
  destruct o as [s|c| |newSpec]; simpl; intros E.
  - split; [|eapply iterate_halted; eassumption].
    apply iterate_frame in E as [F _]. apply (frame_stopped _ _ F S).
  - apply bind_Returned in E as (a1 & I & E). injection E as <- <-.
    apply interfere1_evolves in I. split; [|apply quiet_nil].
    apply (frame_stopped _ _ (evolves_frame _ _ _ I) S).
  - injection E as <- <-. split; [|apply quiet_nil]. unfold resume.
    destruct (negb (processorDone a) || negb (pollerDone a)); exact S.
  - apply bind_Returned in E as (a1 & W & E).
    unfold wgWait in W. destruct (updateWG a =? 0); [|discriminate].
    injection W as <-.
    apply bind_Returned in E as ([a2 res] & U & E). cbv beta iota in E.
    injection E as <- <-. split; [|apply quiet_nil].
    apply update_apply_shape in U as (w & ws & U).
    destruct res as [e|info]; [subst a2; exact S|].
    destruct U as (_ & ->). exact S.
Qed.

Lemma perform_suspended (o : operation) (a a' : eventStream) (effs : list effect) :
  Suspended (spec a) = true ->
  o <> opResume ->
  perform o a = Returned (a', effs) ->
  Suspended (spec a') = true /\ quiet effs.
Proof.
  intros S NR.
  assert (SS : suspendOrStop a = true).
  { unfold suspendOrStop. rewrite S. reflexivity. }
  destruct o as [s|c| |newSpec]; simpl; intros E.
  - split; [|eapply iterate_halted; eassumption].
    apply iterate_frame in E as [F _]. apply (frame_suspended _ _ F S).
  - apply bind_Returned in E as (a1 & I & E). injection E as <- <-.
    apply interfere1_evolves in I. split; [|apply quiet_nil].
    apply (frame_suspended _ _ (evolves_frame _ _ _ I) S).
  - contradiction.
  - apply bind_Returned in E as (a1 & W & E).
    unfold wgWait in W. destruct (updateWG a =? 0); [|discriminate].
    injection W as <-.
    apply bind_Returned in E as ([a2 res] & U & E). cbv beta iota in E.
    injection E as <- <-. split; [|apply quiet_nil].
    apply update_apply_shape in U as (w & ws & U).
    destruct res as [e|info]; [subst a2; exact S|].
    destruct U as (-> & ->).
    change (spec (postUpdateStream (set_spec ?i _))) with i.
    rewrite (proj1 (proj2 (update_fields_keeps _ _))). exact S.
Qed.

(** X8. A stopped stream stays stopped and never delivers again:
    along every history that starts from it, with resumes and updates
    that restart its goroutines, no batch is sent to the sink, none is
    marked processed, and no event is acknowledged. *)
Theorem stop_is_final (ops : list operation) :
  forall (a a' : eventStream) (effs : list effect),
    stopped a = true ->
    execute ops a = Returned (a', effs) ->
    stopped a' = true
    /\ attempts effs = [] /\ processed_events effs = 0 /\ batchCompletes effs = [].
Proof.
  induction ops as [|o ops IH]; simpl; intros a a' effs S E.
  - returned. split; [exact S|apply quiet_nil].
  - apply bind_Returned in E as ([a1 effs1] & P & E). cbv beta iota in E.
    apply bind_Returned in E as ([a2 effs2] & X & E). injection E as <- <-.
    apply (perform_stopped _ _ _ _ S) in P as [S1 Q1].
    apply (IH _ _ _ S1) in X as [S2 Q2].
    split; [exact S2|]. apply quiet_app; assumption.
Qed.

(** X9. A suspended stream stays suspended and delivers nothing until
    it is resumed: along every history without a resume, updates
    included (whatever the request holds for the flag), no batch is
    sent to the sink, none is marked processed, and no event is
    acknowledged. *)
Theorem suspended_until_resume (ops : list operation) :
  forall (a a' : eventStream) (effs : list effect),
    Suspended (spec a) = true ->
    Forall (fun o => o <> opResume) ops ->
    execute ops a = Returned (a', effs) ->
    Suspended (spec a') = true
    /\ attempts effs = [] /\ processed_events effs = 0 /\ batchCompletes effs = [].
Proof.
  induction ops as [|o ops IH]; simpl; intros a a' effs S NR E.
  - returned. split; [exact S|apply quiet_nil].
  - apply Forall_cons in NR as [NR1 NR].
    apply bind_Returned in E as ([a1 effs1] & P & E). cbv beta iota in E.
    apply bind_Returned in E as ([a2 effs2] & X & E). injection E as <- <-.
    apply (perform_suspended _ _ _ _ S NR1) in P as [S1 Q1].
    apply (IH _ _ _ S1 NR) in X as [S2 Q2].
    split; [exact S2|]. apply quiet_app; assumption.
Qed.

End Halted.

Lemma stop_is_final_witness :
  exists (a' : eventStream) (effs : list effect),
    @execute sampleExternals
      [ opStep (stepProcessor 1 delivered); opStep (stepPoller 0 wakeTimer);
        opResume; opStep (stepProcessor 2 delivered) ] sampleStopped
    = Returned (a', effs)
    /\ stopped a' = true /\ attempts effs = [].
Proof.
  destruct (@execute sampleExternals
              [ opStep (stepProcessor 1 delivered); opStep (stepPoller 0 wakeTimer);
                opResume; opStep (stepProcessor 2 delivered) ] sampleStopped)
    as [[a' effs]| |] eqn:E; try (vm_compute in E; discriminate E).
  exists a', effs. split; [reflexivity|].
  destruct (@stop_is_final sampleExternals _ sampleStopped a' effs eq_refl E)
    as (S & A & _).
  split; assumption.
Defined.

Lemma suspended_until_resume_witness :
  exists (a' : eventStream) (effs : list effect),
    @execute sampleExternals
      [ opStep (stepPoller 0 wakeTimer); opStep (stepDispatcher 0 recvInterrupt);
        opApply (sampleUpdate "" 50); opStep (stepProcessor 1 delivered) ]
      sampleSuspended
    = Returned (a', effs)
    /\ Suspended (spec a') = true /\ BatchSize (spec a') = 50 /\ attempts effs = [].
Proof.
  destruct (@execute sampleExternals
              [ opStep (stepPoller 0 wakeTimer);
                opStep (stepDispatcher 0 recvInterrupt);
                opApply (sampleUpdate "" 50); opStep (stepProcessor 1 delivered) ]
              sampleSuspended)
    as [[a' effs]| |] eqn:E; try (vm_compute in E; discriminate E).
  exists a', effs. split; [reflexivity|].
  assert (NR : Forall (fun o => o <> opResume)
                 [ opStep (stepPoller 0 wakeTimer);
                   opStep (stepDispatcher 0 recvInterrupt);
                   opApply (sampleUpdate "" 50);
                   opStep (stepProcessor 1 delivered) ])
    by (repeat constructor; discriminate).
  destruct (@suspended_until_resume sampleExternals _ sampleSuspended a' effs
              eq_refl NR E) as (S & A & _).
  split; [exact S|]. split; [|exact A].
  vm_compute in E. injection E as <- _. reflexivity.
Defined.

(** ** Error handling: block and skip *)

Lemma frame_ErrorHandling (a a' : eventStream) :
  frame a a' -> ErrorHandling (spec a') = ErrorHandling (spec a).
Proof. intros F. exact (f_equal ErrorHandling (frame_settings _ _ F)). Qed.

(** With a sink that refuses, the retry loop returns without an error
    only when it did not try, the stream suspended or stopped. *)
Lemma retryLoop_refused (env : list retry_env) (n : Z) (events : list EventEntry) :
  Forall (fun r => retry_failed r = true) env ->
  forall (attempt : Z) (err : bool) (a a' : eventStream) (effs : list effect),
    ((attempt >? 0) = true -> err = true) ->
    retryLoop env n attempt events err a = Returned (a', false, effs) ->
    suspendOrStop a' = true.
Proof.
  induction 1 as [|r env R _ IH]; intros attempt err a a' effs A E; simpl in E.
  - destruct (suspendOrStop a) eqn:S; returned. exact S.
  - apply bind_Returned in E as (a1 & I & E).
    destruct (suspendOrStop a1) eqn:S; [returned; exact S|].
    destruct (attempt >? 0) eqn:G.
    + specialize (A eq_refl). subst err.
      apply bind_Returned in E as (timer & T & E).
      destruct timer; simpl in E; [|discriminate].
      rewrite R in E. simpl in E.
      destruct (retry_expired r); [discriminate|].
      apply bind_Returned in E as ([[a2 err2] effs2] & L & E).
      injection E as <- -> <-. eapply IH; [|exact L]. reflexivity.
    + simpl in E. rewrite R in E. simpl in E.
      destruct (retry_expired r); [discriminate|].
      apply bind_Returned in E as ([[a2 err2] effs2] & L & E).
      injection E as <- -> <-. eapply IH; [|exact L]. reflexivity.
Qed.

Lemma attemptLoop_refused (env : list attempt_env) (n : Z) (events : list eventData) :
  Forall (fun t => Forall (fun r => retry_failed r = true) (attempt_retries t)) env ->
  forall (attempt : Z) (a a' : eventStream) (ex : loop_exit) (effs : list effect),
    ErrorHandling (spec a) = ErrorHandlingBlock ->
    attemptLoop env n attempt events a = Returned (a', ex, effs) ->
    match ex with
    | loopDone _ => suspendOrStop a' = true
    | loopReturn => updateInterrupt a' = chanClosed
    end.
Proof.
  induction 1 as [|t env R _ IH]; intros attempt a a' ex effs B E; simpl in E.
  - destruct (suspendOrStop a) eqn:S; returned. exact S.
  - apply bind_Returned in E as (a1 & I & E).
    pose proof (interfere_evolves _ _ _ I) as V1.
    destruct (suspendOrStop a1) eqn:S; [returned; exact S|].
    apply bind_Returned in E as (timer & T & E).
    destruct timer; simpl in E.
    2:{ injection E as <- <- <-.
        destruct (attempt >? 0); [|discriminate].
        eapply select_wake_closed. exact T. }
    apply bind_Returned in E as ([[a2 err] effs2] & P & E). simpl in E.
    pose proof (performActionWithRetry_spec _ _ _ _ _ _ _ P) as [V2 _].
    assert (B2 : ErrorHandling (spec a2) = ErrorHandlingBlock).
    { rewrite (frame_ErrorHandling _ _ (evolves_frame _ _ _ V2)).
      stream_fields.
      rewrite (frame_ErrorHandling _ _ (evolves_frame _ _ _ V1)). exact B. }
    rewrite B2 in E.
    change (String.eqb ErrorHandlingBlock ErrorHandlingSkip) with false in E.
    rewrite orb_false_r in E.
    destruct err; simpl in E.
    + apply bind_Returned in E as ([[a3 ex3] effs3] & L & E).
      injection E as <- <- <-. eapply IH; eassumption.
    + injection E as <- <- <-.
      unfold performActionWithRetry in P.
      apply bind_Returned in P as ([[b1 err1] effs1] & L & P). simpl in P.
      apply bind_Returned in P as (b2 & D & P). injection P as <- -> <-.
      rewrite (wgDone_suspendOrStop _ _ D).
      eapply (retryLoop_refused _ _ _ R); [|exact L]. discriminate.
Qed.

Lemma attempts_only_attempts_app (atts rest : list effect) :
  attempts_only atts -> batchCompletes (atts ++ rest) = batchCompletes rest.
Proof.
  intros A. rewrite batchCompletes_app, (batchCompletes_attempts _ A). reflexivity.
Qed.

(** X10. Under the error handling "block", with a sink that refuses
    every attempt, [processBatch] acknowledges nothing, so that no
    checkpoint moves past the batch; and it comes to an end only
    because the stream was suspended or stopped, or an update
    interrupted it. *)
Theorem block_keeps_refused_batch (env : batch_env) (n : Z)
    (events : list eventData) (a a' : eventStream) (effs : list effect) :
  ErrorHandling (spec a) = ErrorHandlingBlock ->
  always_fails env ->
  events <> [] ->
  processBatch env n events a = Returned (a', effs) ->
  batchCompletes effs = []
  /\ (suspendOrStop a' = true \/ updateInterrupt a' = chanClosed).
Proof.
  intros B R NE E. unfold processBatch in E.
  destruct events as [|e events]; [contradiction|].
  set (batch := e :: events) in *.
  apply bind_Returned in E as ([[a1 ex] effs1] & L & E).
  cbv beta iota zeta in E.
  pose proof (attemptLoop_spec _ _ _ _ _ _ _ _ L) as (_ & A & _).
  apply (attemptLoop_refused _ _ _ R _ _ _ _ _ B) in L.
  destruct ex as [processed|].
  - apply bind_Returned in E as (a2 & I & E).
    apply interfere_evolves in I.
    assert (S2 : suspendOrStop a2 = true).
    { apply (frame_suspendOrStop _ _ (evolves_frame _ _ _ I)).
      destruct processed; exact L. }
    rewrite S2 in E.
    apply bind_Returned in E as (a3 & D & E). injection E as <- <-.
    split.
    + rewrite attempts_only_attempts_app by exact A. destruct processed; reflexivity.
    + left. rewrite (wgDone_suspendOrStop _ _ D). exact S2.
  - apply bind_Returned in E as (a3 & D & E). injection E as <- <-.
    split; [apply batchCompletes_attempts, A|]. right.
    apply wgDone_evolves in D.
    apply (frame_interrupt _ _ (evolves_frame _ _ _ D) L).
Qed.

(** Under "skip" the loop of [processBatch] is left after its first
    round with the batch marked processed, unless the stream is
    suspended or stopped. *)
Lemma attemptLoop_skip (env : list attempt_env) (n : Z) (events : list eventData)
    (a a' : eventStream) (ex : loop_exit) (effs : list effect) :
  ErrorHandling (spec a) = ErrorHandlingSkip ->
  attemptLoop env n 0 events a = Returned (a', ex, effs) ->
  ex = loopDone true \/ suspendOrStop a' = true.
Proof.
  intros K E. destruct env as [|t env]; simpl in E.
  - destruct (suspendOrStop a) eqn:S; returned. auto.
  - apply bind_Returned in E as (a1 & I & E).
    pose proof (interfere_evolves _ _ _ I) as V1.
    destruct (suspendOrStop a1) eqn:S; [returned; auto|].
    simpl in E.
    apply bind_Returned in E as ([[a2 err] effs2] & P & E). simpl in E.
    pose proof (performActionWithRetry_spec _ _ _ _ _ _ _ P) as [V2 _].
    assert (K2 : ErrorHandling (spec a2) = ErrorHandlingSkip).
    { rewrite (frame_ErrorHandling _ _ (evolves_frame _ _ _ V2)).
      stream_fields.
      rewrite (frame_ErrorHandling _ _ (evolves_frame _ _ _ V1)). exact K. }
    rewrite K2 in E.
    change (String.eqb ErrorHandlingSkip ErrorHandlingSkip) with true in E.
    rewrite orb_true_r in E. injection E as <- <- <-. auto.
Qed.

(** X11. Under the error handling "skip", a batch that [processBatch]
    returns from with the stream neither suspended nor stopped is
    marked processed and acknowledged, whatever the sink answered: the
    trace of the call is deliveries, the mark, and the
    acknowledgements of the batch. *)
Theorem skip_gives_up_batch (env : batch_env) (n : Z)
    (events : list eventData) (a a' : eventStream) (effs : list effect) :
  ErrorHandling (spec a) = ErrorHandlingSkip ->
  events <> [] ->
  processBatch env n events a = Returned (a', effs) ->
  suspendOrStop a' = false ->
  exists atts,
    attempts_only atts
    /\ effs = atts ++ Processed events :: acknowledgements events
    /\ inFlight a' = wrap64 (inFlight a - Z.of_nat (length events)).
Proof.
  intros K NE E S. unfold processBatch in E.
  destruct events as [|e events]; [contradiction|].
  set (batch := e :: events) in *.
  apply bind_Returned in E as ([[a1 ex] effs1] & L & E).
  cbv beta iota zeta in E.
  pose proof (attemptLoop_spec _ _ _ _ _ _ _ _ L) as (V1 & A & _).
  apply (attemptLoop_skip _ _ _ _ _ _ _ K) in L.
  destruct ex as [processed|].
  - apply bind_Returned in E as (a2 & I & E).
    apply interfere_evolves in I.
    assert (S2 : suspendOrStop a2 = false).
    { destruct (suspendOrStop a2) eqn:Q; [|reflexivity].
      apply bind_Returned in E as (a3 & D & E). injection E as <- <-.
      rewrite (wgDone_suspendOrStop _ _ D), Q in S. discriminate S. }
    rewrite S2 in E.
    apply bind_Returned in E as (a3 & D & E). injection E as <- <-.
    assert (P : processed = true).
    { destruct L as [[= ->]|L]; [reflexivity|].
      pose proof (frame_suspendOrStop _ _ (evolves_frame _ _ _ I)) as M.
      destruct processed; [reflexivity|]. rewrite (M L) in S2. discriminate. }
    subst processed. exists effs1. split; [exact A|].
    split; [rewrite <- app_assoc; reflexivity|].
    apply wgDone_evolves in D.
    rewrite (evolves_inFlight _ _ _ D), (evolves_inFlight _ _ _ I). stream_fields.
    rewrite (evolves_inFlight _ _ _ V1). reflexivity.
  - apply bind_Returned in E as (a3 & D & E). injection E as <- <-.
    destruct L as [L|L]; [discriminate|].
    rewrite (wgDone_suspendOrStop _ _ D), L in S. discriminate.
Qed.

Lemma block_keeps_refused_batch_witness :
  exists (a' : eventStream) (effs : list effect),
    processBatch (refused true) 1 [sampleEvent 7] sampleSocketStream
    = Returned (a', effs)
    /\ attempts effs = [[event (sampleEvent 7)]]
    /\ batchCompletes effs = []
    /\ suspendOrStop a' = true.
Proof.
  destruct (processBatch (refused true) 1 [sampleEvent 7] sampleSocketStream)
    as [[a' effs]| |] eqn:E; try (vm_compute in E; discriminate E).
  exists a', effs. split; [reflexivity|].
  assert (F : always_fails (refused true)).
  { unfold always_fails, refused. cbn. repeat constructor. }
  destruct (block_keeps_refused_batch (refused true) 1 [sampleEvent 7]
              sampleSocketStream a' effs eq_refl F ltac:(discriminate) E)
    as (B & _).
  vm_compute in E. injection E as <- <-.
  split; [reflexivity|]. split; [exact B|reflexivity].
Defined.

Lemma skip_gives_up_batch_witness :
  exists (a' : eventStream) (effs atts : list effect),
    processBatch (refused false) 1 [sampleEvent 7] sampleStream
    = Returned (a', effs)
    /\ suspendOrStop a' = false
    /\ attempts_only atts
    /\ effs = atts ++ Processed [sampleEvent 7] :: acknowledgements [sampleEvent 7].
Proof.
  destruct (processBatch (refused false) 1 [sampleEvent 7] sampleStream)
    as [[a' effs]| |] eqn:E; try (vm_compute in E; discriminate E).
  assert (S : suspendOrStop a' = false).
  { vm_compute in E. injection E as <- _. reflexivity. }
  destruct (skip_gives_up_batch (refused false) 1 [sampleEvent 7]
              sampleStream a' effs eq_refl ltac:(discriminate) E S)
    as (atts & A & EQ & _).
  exists a', effs, atts. split; [reflexivity|]. split; [exact S|].
  split; assumption.
Defined.

(** ** The size of the batches *)

Lemma attempts_cons_Attempted (n k : Z) (events : list EventEntry)
    (effs : list effect) :
  attempts (Attempted n k events :: effs) = events :: attempts effs.
Proof. reflexivity. Qed.

Lemma retryLoop_events (env : list retry_env) (n : Z) (events : list EventEntry) :
  forall (attempt : Z) (err : bool) (a a' : eventStream) (err' : bool)
         (effs : list effect),
    retryLoop env n attempt events err a = Returned (a', err', effs) ->
    Forall (fun evs => evs = events) (attempts effs).
Proof.
  induction env as [|r env IH]; intros attempt err a a' err' effs E; simpl in E.
  - destruct (suspendOrStop a); returned. constructor.
  - apply bind_Returned in E as (a1 & I & E).
    destruct (suspendOrStop a1); [returned; constructor|].
    apply bind_Returned in E as (timer & T & E).
    destruct timer; simpl in E; [|returned; constructor].
    destruct (negb (retry_failed r) || retry_expired r).
    + returned. rewrite attempts_cons_Attempted. repeat constructor.
    + apply bind_Returned in E as ([[a2 err2] effs2] & L & E). returned.
      rewrite attempts_cons_Attempted. constructor; [reflexivity|].
      eapply IH. exact L.
Qed.

Lemma attemptLoop_events (env : list attempt_env) (n : Z) (events : list eventData) :
  forall (attempt : Z) (a a' : eventStream) (ex : loop_exit) (effs : list effect),
    attemptLoop env n attempt events a = Returned (a', ex, effs) ->
    Forall (fun evs => evs = event <$> events) (attempts effs).
Proof.
  induction env as [|t env IH]; intros attempt a a' ex effs E; simpl in E.
  - destruct (suspendOrStop a); returned. constructor.
  - apply bind_Returned in E as (a1 & I & E).
    destruct (suspendOrStop a1); [returned; constructor|].
    apply bind_Returned in E as (timer & T & E).
    destruct timer; simpl in E; [|returned; constructor].
    apply bind_Returned in E as ([[a2 err] effs2] & P & E). simpl in E.
    assert (P2 : Forall (fun evs => evs = event <$> events) (attempts effs2)).
    { unfold performActionWithRetry in P.
      apply bind_Returned in P as ([[b1 err1] effs1] & L & P). simpl in P.
      apply bind_Returned in P as (b2 & D & P). injection P as <- <- <-.
      eapply retryLoop_events. exact L. }
    destruct (negb err || String.eqb (ErrorHandling (spec a2)) ErrorHandlingSkip).
    + returned. exact P2.
    + apply bind_Returned in E as ([[a3 ex3] effs3] & L & E). returned.
      rewrite attempts_app. apply Forall_app. split; [exact P2|].
      eapply IH. exact L.
Qed.

Lemma acknowledgements_traces (events : list eventData) :
  attempts (acknowledgements events) = []
  /\ processed_trace (acknowledgements events) = []
  /\ accepted_events (acknowledgements events) = [].
Proof.
  unfold acknowledgements.
  induction (map_to_list (callbacks events)) as [|kv l IH]; [repeat split|].
  exact IH.
Qed.

Lemma attempts_only_traces (effs : list effect) :
  attempts_only effs -> processed_trace effs = [] /\ accepted_events effs = [].
Proof.
  induction 1 as [|e effs A _ IH]; [split; reflexivity|].
  destruct e; try contradiction. exact IH.
Qed.

Lemma processed_trace_app (l1 l2 : list effect) :
  processed_trace (l1 ++ l2) = processed_trace l1 ++ processed_trace l2.
Proof.
  induction l1 as [|e l1 IH]; [reflexivity|].
  destruct e; simpl; rewrite IH; try reflexivity. apply app_assoc.
Qed.

Lemma accepted_events_app (l1 l2 : list effect) :
  accepted_events (l1 ++ l2) = accepted_events l1 ++ accepted_events l2.
Proof.
  induction l1 as [|e l1 IH]; [reflexivity|].
  destruct e; simpl; rewrite IH; reflexivity.
Qed.

Lemma processBatch_events (env : batch_env) (n : Z) (events : list eventData)
    (a a' : eventStream) (effs : list effect) :
  processBatch env n events a = Returned (a', effs) ->
  Forall (fun evs => evs = event <$> events) (attempts effs).
Proof.
  unfold processBatch. intros E.
  destruct events as [|e events].
  { apply bind_Returned in E as (a1 & D & E). injection E as <- <-. constructor. }
  set (batch := e :: events) in *.
  apply bind_Returned in E as ([[a1 ex] effs1] & L & E).
  cbv beta iota zeta in E.
  apply attemptLoop_events in L.
  destruct ex as [processed|].
  - apply bind_Returned in E as (a2 & I & E).
    assert (M : attempts (effs1 ++ (if processed then [Processed batch] else []))
                = attempts effs1).
    { rewrite attempts_app. destruct processed; apply app_nil_r. }
    destruct (suspendOrStop a2);
      apply bind_Returned in E as (a3 & D & E); injection E as <- <-.
    + rewrite M. exact L.
    + rewrite attempts_app, M.
      fold (acknowledgements batch).
      rewrite (proj1 (acknowledgements_traces batch)), app_nil_r. exact L.
  - apply bind_Returned in E as (a3 & D & E). injection E as <- <-. exact L.
Qed.

(** A turn of the processor: nothing, or the first batch of the queue
    taken and sent, and marked processed or not. *)
Lemma batchProcessor_turn (env : batch_env) (a a' : eventStream)
    (continues : bool) (effs : list effect) :
  batchProcessor env a = Returned (a', continues, effs) ->
  (effs = [] /\ batchQueue a' = batchQueue a)
  \/ exists batch rest (processed : bool),
       batchQueue a = batch :: rest
       /\ batchQueue a' = rest
       /\ Forall (fun evs => evs = event <$> batch) (attempts effs)
       /\ processed_trace effs = (if processed then batch else [])
       /\ accepted_events effs = [].
Proof.
  unfold batchProcessor. intros E.
  destruct (suspendOrStop a).
  { returned. left. split; reflexivity. }
  destruct (batchQueue a) as [|batch rest] eqn:Q.
  { destruct (updateInProgress a); [|discriminate].
    destruct (updateInterrupt a); [discriminate|].
    apply bind_Returned in E as (a1 & D & E). returned.
    apply wgDone_evolves in D. left. split; [reflexivity|].
    stream_fields. rewrite (evolves_queue _ _ _ D). exact Q. }
  cbv zeta in E.
  apply bind_Returned in E as ([a1 effs1] & P & E). returned.
  right. exists batch, rest.
  pose proof (processBatch_events _ _ _ _ _ _ P) as PE.
  destruct batch as [|e batch].
  { exists false. unfold processBatch in P.
    apply bind_Returned in P as (a2 & D & P). returned.
    apply wgDone_evolves in D.
    split; [reflexivity|]. split; [rewrite (evolves_queue _ _ _ D); reflexivity|].
    repeat split. constructor. }
  apply processBatch_spec in P as (processed & acked & atts & A & -> & V & K);
    [|discriminate].
  exists processed. split; [reflexivity|].
  split; [rewrite (evolves_queue _ _ _ V); reflexivity|].
  split; [exact PE|].
  destruct (attempts_only_traces _ A) as [A1 A2].
  destruct (acknowledgements_traces (e :: batch)) as (_ & K1 & K2).
  rewrite !processed_trace_app, !accepted_events_app, A1, A2.
  split.
  - destruct processed, acked; cbn [processed_trace app];
      rewrite ?K1, ?app_nil_r; reflexivity.
  - destruct processed, acked; cbn [accepted_events app];
      rewrite ?K2; reflexivity.
Qed.

(** A turn of the dispatcher: it leaves, or flushes its batch on the
    timeout, or takes an event, which fills the batch or not. *)
Lemma batchDispatcher_turn (r : receive) (currentBatch : list eventData)
    (a a' : eventStream) (local : option (list eventData)) (effs : list effect) :
  batchDispatcher r currentBatch a = Returned (a', local, effs) ->
  (local = None /\ effs = [] /\ batchQueue a' = batchQueue a)
  \/ (local = Some [] /\ effs = [] /\ currentBatch <> []
      /\ batchQueue a' = batchQueue a ++ [currentBatch])
  \/ exists e,
       effs = [Accepted e]
       /\ ((local = Some []
            /\ batchQueue a' = batchQueue a ++ [currentBatch ++ [e]]
            /\ Z.of_nat (length (currentBatch ++ [e])) = BatchSize (spec a))
           \/ (local = Some (currentBatch ++ [e])
               /\ batchQueue a' = batchQueue a
               /\ Z.of_nat (length (currentBatch ++ [e])) <> BatchSize (spec a))).
Proof.
  unfold batchDispatcher. intros E.
  apply bind_Returned in E as (sel & S & E).
  destruct sel as [[[timeout cb] effs1]|].
  2:{ apply bind_Returned in E as (a1 & D & E). returned.
      apply wgDone_evolves in D. left. repeat split.
      apply (evolves_queue _ _ _ D). }
  assert (C : (timeout = true /\ cb = currentBatch /\ effs1 = []
               /\ currentBatch <> [])
              \/ (timeout = false
                  /\ exists e, cb = currentBatch ++ [e] /\ effs1 = [Accepted e])).
  { destruct r as [|[e|]|]; simpl in S.
    - destruct currentBatch; returned. left. repeat split. discriminate.
    - destruct (is_closed (eventStream_chan a)); returned. right. eauto.
    - returned.
    - destruct (is_closed (updateInterrupt a)); returned. }
  destruct C as [(-> & -> & -> & NE)|(-> & e & -> & ->)]; simpl in E.
  - returned. right. left. repeat split. exact NE.
  - right. right. exists e.
    destruct (Z.eqb_spec (Z.of_nat (length (currentBatch ++ [e])))
                (BatchSize (spec a))) as [F|F]; returned;
      (split; [reflexivity|]).
    + left. repeat split. exact F.
    + right. repeat split. exact F.
Qed.

Lemma eventPoller_queue (w : wake) (a a' : eventStream) (continues : bool)
    (effs : list effect) :
  eventPoller w a = Returned (a', continues, effs) ->
  batchQueue a' = batchQueue a.
Proof.
  unfold eventPoller. intros E.
  assert (L : forall a1, wgDone (set_pollerDone true a) = Returned a1 ->
                batchQueue a1 = batchQueue a).
  { intros a1 D. apply wgDone_evolves in D. apply (evolves_queue _ _ _ D). }
  destruct (suspendOrStop a).
  - apply bind_Returned in E as (a1 & D & E). returned. apply L. exact D.
  - apply bind_Returned in E as (timer & T & E). destruct timer; simpl in E.
    + returned. reflexivity.
    + apply bind_Returned in E as (a1 & D & E). returned. apply L. exact D.
Qed.

Lemma frame_BatchSize (a a' : eventStream) :
  frame a a' -> BatchSize (spec a') = BatchSize (spec a).
Proof. intros F. exact (f_equal BatchSize (frame_settings _ _ F)). Qed.

Lemma batches_bounded_intro (a a' : eventStream) :
  BatchSize (spec a') = BatchSize (spec a) ->
  Forall (fun batch => 1 <= Z.of_nat (length batch) <= BatchSize (spec a))
         (batchQueue a') ->
  Forall (room (BatchSize (spec a))) (goroutines a') ->
  batches_bounded a'.
Proof. intros B Q G. split; rewrite B; assumption. Qed.

Lemma iterate_bounded (s : step) (a a' : eventStream) (effs : list effect) :
  batches_bounded a ->
  iterate s a = Returned (a', effs) ->
  batches_bounded a'
  /\ Forall (fun evs => 1 <= Z.of_nat (length evs) <= BatchSize (spec a))
            (attempts effs).
Proof.
  intros [BQ BH] E.
  pose proof (iterate_frame _ _ _ _ E) as [F _].
  apply frame_BatchSize in F.
  destruct s as [n w|n r|n env]; simpl in E.
  - destruct (goroutines a !! n) as [[]|] eqn:L; try discriminate.
    apply bind_Returned in E as ([[a1 c] effs1] & P & E). returned.
    pose proof (eventPoller_evolves _ _ _ _ _ P) as [_ G].
    pose proof (eventPoller_queue _ _ _ _ _ P) as Q.
    apply eventPoller_trace in P.
    split; [|destruct P as [->| ->]; constructor].
    apply (batches_bounded_intro a); [exact F| |].
    + destruct c; unfold retire; stream_fields; rewrite Q; exact BQ.
    + destruct c; unfold retire; stream_fields; rewrite G;
        [exact BH|apply Forall_delete, BH].
  - destruct (goroutines a !! n) as [[| |cb]|] eqn:L; try discriminate.
    apply bind_Returned in E as ([[a1 local] effs1] & P & E). returned.
    pose proof (batchDispatcher_accounted _ _ _ _ _ _ P) as (_ & _ & _ & G).
    assert (R : room (BatchSize (spec a)) (goBatchDispatcher cb)).
    { rewrite Forall_forall in BH. apply BH. eapply list_elem_of_lookup_2. exact L. }
    simpl in R.
    apply batchDispatcher_turn in P
      as [(-> & -> & Q)|[(-> & -> & NE & Q)|(e & -> & [(-> & Q & FU)|(-> & Q & NF)])]];
      (split; [|try constructor]);
      apply (batches_bounded_intro a); try exact F;
      unfold retire; stream_fields; rewrite ?Q, ?G.
    + exact BQ.
    + apply Forall_delete, BH.
    + apply Forall_app. split; [exact BQ|]. repeat constructor.
      * destruct cb; [contradiction|]. simpl. lia.
      * lia.
    + apply Forall_insert; [exact BH|]. simpl. lia.
    + apply Forall_app. split; [exact BQ|]. repeat constructor.
      * rewrite length_app. simpl. lia.
      * lia.
    + apply Forall_insert; [exact BH|]. simpl. rewrite length_app in FU.
      simpl in FU. lia.
    + exact BQ.
    + apply Forall_insert; [exact BH|]. simpl. rewrite length_app in *.
      simpl in *. lia.
  - destruct (goroutines a !! n) as [[]|] eqn:L; try discriminate.
    apply bind_Returned in E as ([[a1 c] effs1] & P & E). returned.
    pose proof (batchProcessor_accounted _ _ _ _ _ P) as [_ G].
    apply batchProcessor_turn in P
      as [(-> & Q)|(batch & rest & processed & Q0 & Q & AT & _)].
    + split; [|constructor].
      apply (batches_bounded_intro a); [exact F| |].
      * destruct c; unfold retire; stream_fields; rewrite Q; exact BQ.
      * destruct c; unfold retire; stream_fields; rewrite G;
          [exact BH|apply Forall_delete, BH].
    + rewrite Q0 in BQ. apply Forall_cons in BQ as [B1 BQ]. split.
      * apply (batches_bounded_intro a); [exact F| |].
        -- destruct c; unfold retire; stream_fields; rewrite Q; exact BQ.
        -- destruct c; unfold retire; stream_fields; rewrite G;
             [exact BH|apply Forall_delete, BH].
      * eapply Forall_impl; [exact AT|]. intros evs ->.
        rewrite length_fmap. exact B1.
Qed.

Section Batches.
Context `{Externals}.

(** A stream as the constructor returns it. *)
Lemma newEventStream_fresh (conf : EventstreamConf) (info : StreamInfo)
    (a : eventStream) :
  newEventStream conf (Some info) = inr a ->
  batchQueue a = []
  /\ goroutines a = [goEventPoller; goBatchProcessor; goBatchDispatcher []]
  /\ updateWG a = 3
  /\ inFlight a = 0
  /\ stopped a = false
  /\ updateInterrupt a = chanOpen
  /\ eventStream_chan a = chanOpen.
Proof.
  intros N. unfold newEventStream in N.
  destruct (String.eqb (GetID info) ""); [discriminate|].
  cbv zeta in N.
  destruct (String.eqb _ "webhook").
  - destruct (newWebhookAction _); [discriminate|].
    injection N as <-. repeat split.
  - destruct (String.eqb _ "websocket"); [|discriminate].
    destruct (from_option validateWebSocket None _); [discriminate|].
    destruct (newWebSocketAction _); [discriminate|].
    injection N as <-. repeat split.
Qed.

Lemma perform_bounded (o : operation) (a a' : eventStream) (effs : list effect) :
  no_update o ->
  batches_bounded a ->
  perform o a = Returned (a', effs) ->
  batches_bounded a'
  /\ BatchSize (spec a') = BatchSize (spec a)
  /\ Forall (fun evs => 1 <= Z.of_nat (length evs) <= BatchSize (spec a))
            (attempts effs).
Proof.
  intros NU B.
  destruct o as [s|c| |newSpec]; simpl; intros E.
  - pose proof (iterate_frame _ _ _ _ E) as [F _].
    apply (iterate_bounded _ _ _ _ B) in E as [B' A].
    split; [exact B'|]. split; [apply frame_BatchSize, F|exact A].
  - apply bind_Returned in E as (a1 & I & E). injection E as <- <-.
    apply interfere1_evolves in I.
    pose proof (frame_BatchSize _ _ (evolves_frame _ _ _ I)) as F.
    destruct B as [BQ BH].
    split; [|split; [exact F|constructor]].
    apply (batches_bounded_intro a); [exact F| |].
    + rewrite (evolves_queue _ _ _ I). exact BQ.
    + rewrite (evolves_goroutines _ _ _ I). exact BH.
  - injection E as <- <-. destruct B as [BQ BH]. unfold resume.
    destruct (negb (processorDone a) || negb (pollerDone a)); cbn [fst].
    + split; [split; assumption|]. split; [reflexivity|constructor].
    + split; [|split; [reflexivity|constructor]].
      apply (batches_bounded_intro a); [reflexivity|exact BQ|].
      unfold startEventHandlers. cbn [negb]. stream_fields.
      rewrite <- app_assoc. apply Forall_app. split; [exact BH|].
      repeat constructor.
  - contradiction.
Qed.

(** X12. Along every history of a stream from its construction in
    which no update is applied (turns of the goroutines, racing calls,
    suspends and resumes), every batch sent to the sink holds at least
    one event and at most as many as the batch size of the stream. *)
Theorem batch_sizes (conf : EventstreamConf) (info : StreamInfo)
    (a a' : eventStream) (ops : list operation) (effs : list effect) :
  newEventStream conf (Some info) = inr a ->
  0 <= BatchSize info ->
  Forall no_update ops ->
  execute ops a = Returned (a', effs) ->
  Forall (fun evs => 1 <= Z.of_nat (length evs) <= BatchSize (spec a))
         (attempts effs).
Proof.
  intros N B U E.
  assert (I : batches_bounded a).
  { destruct (newEventStream_fresh _ _ _ N) as (Q & G & _).
    pose proof (normalised_size _ (newEventStream_normalised _ _ _ N B)) as S.
    split; rewrite ?Q, ?G; repeat constructor. simpl. lia. }
  clear N B. revert a a' effs I E.
  induction U as [|o ops O U IH]; simpl; intros a a' effs I E.
  - returned. constructor.
  - apply bind_Returned in E as ([a1 effs1] & P & E). cbv beta iota in E.
    apply bind_Returned in E as ([a2 effs2] & X & E). injection E as <- <-.
    apply (perform_bounded _ _ _ _ O I) in P as (I1 & S1 & A1).
    apply (IH _ _ _ I1) in X. rewrite S1 in X.
    rewrite attempts_app. apply Forall_app. split; assumption.
Qed.

End Batches.

Lemma batch_sizes_witness :
  exists (a' : eventStream) (effs : list effect),
    @execute sampleExternals sampleDeliveries sampleStream = Returned (a', effs)
    /\ attempts effs = [[event (sampleEvent 7)]; [event (sampleEvent 8)]]
    /\ Forall (fun evs => 1 <= Z.of_nat (length evs) <= 1) (attempts effs).
Proof.
  destruct (@execute sampleExternals sampleDeliveries sampleStream)
    as [[a' effs]| |] eqn:E; try (vm_compute in E; discriminate E).
  exists a', effs. split; [reflexivity|].
  split; [vm_compute in E; injection E as _ <-; reflexivity|].
  apply (@batch_sizes sampleExternals sampleConf sampleInfo sampleStream a'
           sampleDeliveries effs).
  - vm_compute. reflexivity.
  - vm_compute. discriminate.
  - unfold sampleDeliveries. repeat constructor.
  - exact E.
Defined.

(** ** The order of the events *)

Lemma in_hand_app (gs hs : list goroutine) :
  in_hand (gs ++ hs) = in_hand gs ++ in_hand hs.
Proof.
  induction gs as [|g gs IH]; [reflexivity|].
  destruct g; simpl; rewrite IH; try reflexivity. apply app_assoc.
Qed.

Lemma dispatchers_app (gs hs : list goroutine) :
  dispatchers (gs ++ hs) = (dispatchers gs + dispatchers hs)%nat.
Proof.
  induction gs as [|g gs IH]; [reflexivity|].
  destruct g; simpl; rewrite IH; reflexivity.
Qed.

Lemma in_hand_none (gs : list goroutine) :
  dispatchers gs = 0%nat -> in_hand gs = [].
Proof.
  induction gs as [|g gs IH]; [reflexivity|].
  destruct g; simpl; intros D; try discriminate; auto.
Qed.

Lemma dispatchers_lookup (gs : list goroutine) :
  forall (n : nat) (cb : list eventData),
    gs !! n = Some (goBatchDispatcher cb) -> (1 <= dispatchers gs)%nat.
Proof.
  induction gs as [|g gs IH]; intros [|n] cb L; simpl in *; try discriminate.
  - injection L as ->. simpl. lia.
  - apply IH in L. destruct g; simpl; lia.
Qed.

(** The only dispatcher of a stream. *)
Lemma single_dispatcher (gs : list goroutine) :
  forall (n : nat) (cb : list eventData),
    (dispatchers gs <= 1)%nat ->
    gs !! n = Some (goBatchDispatcher cb) ->
    in_hand gs = cb
    /\ in_hand (delete n gs) = []
    /\ dispatchers (delete n gs) = 0%nat
    /\ forall cb',
         in_hand (<[n := goBatchDispatcher cb']> gs) = cb'
         /\ dispatchers (<[n := goBatchDispatcher cb']> gs) = dispatchers gs.
Proof.
  induction gs as [|g gs IH]; intros [|n] cb D L; simpl in *; try discriminate.
  - injection L as ->. simpl in *.
    assert (D0 : dispatchers gs = 0%nat) by lia.
    rewrite (in_hand_none _ D0), app_nil_r.
    split; [reflexivity|]. split; [reflexivity|]. split; [exact D0|].
    intros cb'. rewrite app_nil_r. split; reflexivity.
  - pose proof (dispatchers_lookup _ _ _ L) as D1.
    destruct g; simpl in *; try lia;
      destruct (IH n cb D L) as (I1 & I2 & I3 & I4);
      (split; [exact I1|]); (split; [exact I2|]); (split; [exact I3|]);
      intros cb'; destruct (I4 cb') as [J1 J2]; split; assumption.
Qed.

Lemma other_goroutine (gs : list goroutine) :
  forall (n : nat) (g : goroutine),
    gs !! n = Some g ->
    (forall cb, g <> goBatchDispatcher cb) ->
    in_hand (delete n gs) = in_hand gs
    /\ dispatchers (delete n gs) = dispatchers gs.
Proof.
  induction gs as [|h gs IH]; intros [|n] g L N; simpl in *; try discriminate.
  - injection L as ->. destruct g; try (split; reflexivity).
    exfalso. eapply N. reflexivity.
  - destruct (IH n g L N) as [I1 I2].
    destruct h; simpl; rewrite ?I1, ?I2; split; reflexivity.
Qed.

(** A turn of a goroutine of a stream with one dispatcher at most: what
    is marked processed comes off the front of what is pending, and
    what is accepted goes to its end. *)
Lemma iterate_ordered (s : step) (a a' : eventStream) (effs : list effect) :
  (dispatchers (goroutines a) <= 1)%nat ->
  iterate s a = Returned (a', effs) ->
  (dispatchers (goroutines a') <= 1)%nat
  /\ sublist (processed_trace effs ++ pending a')
             (pending a ++ accepted_events effs).
Proof.
  intros D E. unfold pending.
  destruct s as [n w|n r|n env]; simpl in E.
  - destruct (goroutines a !! n) as [[]|] eqn:L; try discriminate.
    apply bind_Returned in E as ([[a1 c] effs1] & P & E). returned.
    pose proof (eventPoller_evolves _ _ _ _ _ P) as [_ G].
    pose proof (eventPoller_queue _ _ _ _ _ P) as Q.
    destruct (other_goroutine _ _ _ L ltac:(discriminate)) as [O1 O2].
    apply eventPoller_trace in P.
    assert (T : processed_trace effs = [] /\ accepted_events effs = [])
      by (destruct P as [->| ->]; split; reflexivity).
    destruct T as [-> ->]. rewrite app_nil_r. cbn [app].
    destruct c; unfold retire; stream_fields; rewrite ?Q, G, ?O1, ?O2;
      (split; [exact D|reflexivity]).
  - destruct (goroutines a !! n) as [[| |cb]|] eqn:L; try discriminate.
    apply bind_Returned in E as ([[a1 local] effs1] & P & E). returned.
    pose proof (batchDispatcher_accounted _ _ _ _ _ _ P) as (_ & _ & _ & G).
    destruct (single_dispatcher _ _ _ D L) as (H1 & H2 & H3 & H4).
    apply batchDispatcher_turn in P
      as [(-> & -> & Q)|[(-> & -> & NE & Q)|(e & -> & [(-> & Q & FU)|(-> & Q & NF)])]];
      unfold retire; stream_fields; rewrite ?Q, G;
      try (destruct (H4 []) as [J1 J2]);
      try (destruct (H4 (cb ++ [e])) as [K1 K2]);
      rewrite ?H1, ?H2, ?H3, ?J1, ?J2, ?K1, ?K2;
      cbn [processed_trace accepted_events app];
      (split; [lia|]);
      rewrite ?concat_app; cbn [concat]; rewrite ?app_nil_r, <- ?app_assoc;
      try reflexivity.
    apply sublist_inserts_r. reflexivity.
  - destruct (goroutines a !! n) as [[]|] eqn:L; try discriminate.
    apply bind_Returned in E as ([[a1 c] effs1] & P & E). returned.
    pose proof (batchProcessor_accounted _ _ _ _ _ P) as [_ G].
    destruct (other_goroutine _ _ _ L ltac:(discriminate)) as [O1 O2].
    assert (GA : in_hand (goroutines (if c then a1 else retire n a1))
                 = in_hand (goroutines a)
                 /\ dispatchers (goroutines (if c then a1 else retire n a1))
                    = dispatchers (goroutines a)
                 /\ batchQueue (if c then a1 else retire n a1) = batchQueue a1).
    { destruct c; unfold retire; stream_fields; rewrite G, ?O1, ?O2; repeat split. }
    destruct GA as (-> & -> & ->). split; [exact D|].
    apply batchProcessor_turn in P
      as [(-> & ->)|(batch & rest & processed & -> & -> & _ & -> & ->)].
    + rewrite app_nil_r. reflexivity.
    + rewrite app_nil_r. cbn [concat]. rewrite <- app_assoc.
      destruct processed; [reflexivity|].
      apply sublist_inserts_l. reflexivity.
Qed.

Section Order.
Context `{Externals}.

Lemma perform_ordered (o : operation) (a a' : eventStream) (effs : list effect) :
  (dispatchers (goroutines a) <= 1)%nat ->
  match o with opApply _ => counted a | _ => True end ->
  perform o a = Returned (a', effs) ->
  (dispatchers (goroutines a') <= 1)%nat
  /\ sublist (processed_trace effs ++ pending a')
             (pending a ++ accepted_events effs).
Proof.
  intros D K.
  destruct o as [s|c| |newSpec]; simpl; intros E.
  - eapply iterate_ordered; eassumption.
  - apply bind_Returned in E as (a1 & I & E). injection E as <- <-.
    apply interfere1_evolves in I. unfold pending.
    rewrite (evolves_queue _ _ _ I), (evolves_goroutines _ _ _ I), app_nil_r.
    split; [exact D|reflexivity].
  - injection E as <- <-. unfold resume, pending.
    destruct (negb (processorDone a) || negb (pollerDone a)); cbn [fst];
      rewrite app_nil_r; [split; [exact D|reflexivity]|].
    unfold startEventHandlers. cbn [negb]. stream_fields.
    rewrite <- app_assoc, in_hand_app, dispatchers_app. simpl.
    rewrite app_nil_r. split; [lia|reflexivity].
  - apply bind_Returned in E as (a1 & W & E).
    unfold wgWait in W. destruct (updateWG a =? 0) eqn:Z0; [|discriminate].
    injection W as <-. apply Z.eqb_eq in Z0.
    apply bind_Returned in E as ([a2 res] & U & E). cbv beta iota in E.
    injection E as <- <-.
    assert (G : goroutines a = []).
    { unfold counted in K. rewrite Z0 in K.
      destruct (goroutines a); [reflexivity|]. simpl in K. lia. }
    apply update_apply_shape in U as (w & ws & U). unfold pending.
    destruct res as [e|info].
    + subst a2. stream_fields. rewrite app_nil_r.
      split; [exact D|reflexivity].
    + destruct U as (_ & ->).
      unfold postUpdateStream, startEventHandlers. cbn [negb]. stream_fields.
      rewrite G. simpl. rewrite !app_nil_r. split; [lia|reflexivity].
Qed.

Lemma perform_counted (o : operation) (a a' : eventStream) (effs : list effect) :
  no_resume o -> counted a ->
  perform o a = Returned (a', effs) -> counted a'.
Proof.
  intros NR K.
  destruct o as [s|c| |newSpec]; simpl; intros E.
  - apply iterate_frame in E as [_ C]. auto.
  - apply bind_Returned in E as (a1 & I & E). injection E as <- <-.
    apply interfere1_evolves in I. unfold counted in *.
    rewrite (evolves_goroutines _ _ _ I), (evolves_WG _ _ _ I). lia.
  - contradiction.
  - apply bind_Returned in E as (a1 & W & E).
    unfold wgWait in W. destruct (updateWG a =? 0) eqn:Z0; [|discriminate].
    injection W as <-. apply Z.eqb_eq in Z0.
    apply bind_Returned in E as ([a2 res] & U & E). cbv beta iota in E.
    injection E as <- <-.
    assert (G : goroutines a = []).
    { unfold counted in K. rewrite Z0 in K.
      destruct (goroutines a); [reflexivity|]. simpl in K. lia. }
    apply update_apply_shape in U as (w & ws & U).
    destruct res as [e|info].
    + subst a2. exact K.
    + destruct U as (_ & ->). unfold counted.
      unfold postUpdateStream, startEventHandlers. cbn [negb]. stream_fields.
      rewrite G. simpl. lia.
Qed.

Lemma execute_ordered (K : eventStream -> Prop) (allowed : operation -> Prop) :
  (forall o a a' effs,
     allowed o -> K a -> perform o a = Returned (a', effs) -> K a') ->
  (forall newSpec a, allowed (opApply newSpec) -> K a -> counted a) ->
  forall ops,
    Forall allowed ops ->
    forall (a a' : eventStream) (effs : list effect),
      K a ->
      (dispatchers (goroutines a) <= 1)%nat ->
      execute ops a = Returned (a', effs) ->
      sublist (processed_trace effs ++ pending a')
              (pending a ++ accepted_events effs).
Proof.
  intros KP KC ops U.
  induction U as [|o ops O U IH]; simpl; intros a a' effs KA D E.
  - returned. rewrite app_nil_r. reflexivity.
  - apply bind_Returned in E as ([a1 effs1] & P & E). cbv beta iota in E.
    apply bind_Returned in E as ([a2 effs2] & X & E). injection E as <- <-.
    pose proof (KP _ _ _ _ O KA P) as K1.
    apply perform_ordered in P as [D1 S1]; [|exact D|].
    2:{ destruct o; try exact I. eapply KC; eassumption. }
    apply (IH _ _ _ K1 D1) in X.
    rewrite processed_trace_app, accepted_events_app, <- app_assoc.
    transitivity (processed_trace effs1 ++ pending a1 ++ accepted_events effs2).
    + apply sublist_app; [reflexivity|exact X].
    + rewrite !app_assoc. apply sublist_app; [exact S1|reflexivity].
Qed.

(** X13. Along every history of a stream from its construction in
    which no update is applied, or in which there is no resume, the
    events of the batches marked processed, in the order of the marks,
    are a subsequence of the events that the dispatcher accepted, in
    the order in which it accepted them: batches are processed first
    in, first out, no event is marked twice, and none that was not
    accepted before. *)
Theorem processed_in_order (conf : EventstreamConf) (info : StreamInfo)
    (a a' : eventStream) (ops : list operation) (effs : list effect) :
  newEventStream conf (Some info) = inr a ->
  Forall no_update ops \/ Forall no_resume ops ->
  execute ops a = Returned (a', effs) ->
  sublist (processed_trace effs) (accepted_events effs).
Proof.
  intros N U E.
  destruct (newEventStream_fresh _ _ _ N) as (Q & G & W & _).
  assert (D : (dispatchers (goroutines a) <= 1)%nat) by (rewrite G; simpl; lia).
  assert (P0 : pending a = []) by (unfold pending; rewrite Q, G; reflexivity).
  assert (S : sublist (processed_trace effs ++ pending a')
                      (pending a ++ accepted_events effs)).
  { destruct U as [U|U].
    - apply (execute_ordered (fun _ => True) no_update) with (ops := ops);
        auto; contradiction.
    - apply (execute_ordered counted no_resume) with (ops := ops); auto.
      + apply perform_counted.
      + unfold counted. rewrite G, W. simpl. lia. }
  rewrite P0 in S. cbn [app] in S.
  transitivity (processed_trace effs ++ pending a'); [|exact S].
  apply sublist_inserts_r. reflexivity.
Qed.

End Order.

Lemma processed_in_order_witness :
  exists (a' : eventStream) (effs : list effect),
    @execute sampleExternals sampleDeliveries sampleStream = Returned (a', effs)
    /\ processed_trace effs = [sampleEvent 7; sampleEvent 8]
    /\ sublist (processed_trace effs) (accepted_events effs).
Proof.
  destruct (@execute sampleExternals sampleDeliveries sampleStream)
    as [[a' effs]| |] eqn:E; try (vm_compute in E; discriminate E).
  exists a', effs. split; [reflexivity|].
  split; [vm_compute in E; injection E as _ <-; reflexivity|].
  apply (@processed_in_order sampleExternals sampleConf sampleInfo sampleStream a'
           sampleDeliveries effs).
  - vm_compute. reflexivity.
  - left. unfold sampleDeliveries. repeat constructor.
  - exact E.
Defined.

(** ** The checkpoint of a stream *)

Lemma last_with_cons (id : string) (sub : subscription) (subs : list subscription) :
  last_with id (sub :: subs)
  = match last_with id subs with
    | Some x => Some x
    | None => if decide (info_ID (info sub) = id) then Some sub else None
    end.
Proof.
  unfold last_with. rewrite filter_cons.
  destruct (decide (info_ID (info sub) = id)); [|destruct (last _); reflexivity].
  apply last_cons.
Qed.

(** X14. After the pass of the poller that records the checkpoint, the
    checkpoint holds for every subscription of the stream its high
    water mark, and every other entry as it was: the pass only adds
    and overwrites, the entry of a subscription that is gone stays. *)
Theorem recordCheckpoint_entries (subs : list subscription) :
  forall (checkpoint : gmap string Z) (changed : bool) (id : string),
    (recordCheckpoint checkpoint changed subs).1 !! id
    = match last_with id subs with
      | Some sub => Some (blockHWM sub)
      | None => checkpoint !! id
      end.
Proof.
  induction subs as [|sub subs IH]; intros checkpoint changed id; [reflexivity|].
  cbn [recordCheckpoint]. rewrite IH, last_with_cons.
  destruct (last_with id subs); [reflexivity|].
  destruct (decide (info_ID (info sub) = id)) as [<-|N].
  - apply lookup_insert_eq.
  - apply lookup_insert_ne. exact N.
Qed.

Section Resets.
Context `{SubscriptionMethods}.

Lemma pollSubscription_checkpoint (checkpoint : option (gmap string Z))
    (sub : subscription) :
  (pollSubscription checkpoint sub).1
  = if resetRequested sub then delete (info_ID (info sub)) <$> checkpoint
    else checkpoint.
Proof.
  unfold pollSubscription. destruct (resetRequested sub); reflexivity.
Qed.

(** X15. The loop of the poller over the subscriptions removes from
    the checkpoint the entries of the subscriptions for which a reset
    is requested, so that their filters restart from the initial block
    and not from the checkpoint, and leaves every other entry. *)
Theorem pollSubscriptions_checkpoint (subs : list subscription) :
  forall (checkpoint : gmap string Z),
    exists checkpoint',
      (pollSubscriptions (Some checkpoint) subs).1 = Some checkpoint'
      /\ forall id,
           checkpoint' !! id
           = if reset_requested id subs then None else checkpoint !! id.
Proof.
  induction subs as [|sub subs IH]; intros checkpoint.
  - exists checkpoint. split; reflexivity.
  - cbn [pollSubscriptions].
    pose proof (pollSubscription_checkpoint (Some checkpoint) sub) as P.
    destruct (pollSubscription (Some checkpoint) sub) as [c1 sub1].
    cbn [fst] in P. subst c1.
    set (c1 := if resetRequested sub
               then delete (info_ID (info sub)) checkpoint else checkpoint).
    assert (C : (if resetRequested sub
                 then delete (info_ID (info sub)) <$> Some checkpoint
                 else Some checkpoint) = Some c1).
    { subst c1. destruct (resetRequested sub); reflexivity. }
    rewrite C. destruct (IH c1) as (c2 & E & L).
    destruct (pollSubscriptions (Some c1) subs) as [c3 subs1].
    cbn [fst] in *. subst c3. exists c2. split; [reflexivity|].
    intros id. rewrite L. cbn [reset_requested existsb].
    fold (reset_requested id subs).
    destruct (reset_requested id subs); [rewrite orb_true_r; reflexivity|].
    rewrite orb_false_r. subst c1.
    destruct (resetRequested sub); [|rewrite andb_false_r; reflexivity].
    rewrite andb_true_r.
    destruct (decide (info_ID (info sub) = id)) as [<-|N].
    + rewrite bool_decide_eq_true_2 by reflexivity. apply lookup_delete_eq.
    + rewrite bool_decide_eq_false_2 by exact N. apply lookup_delete_ne. exact N.
Qed.

End Resets.

(** ** What a restart recovers *)

Lemma normalise_fixed `{Externals} (s : StreamInfo) :
  normalised s -> normalise s = s.
Proof.
  intros [[S1 S2] T D C E]. unfold MaxBatchSize in *.
  destruct s as [cr id na pa su ty bs bt eh rt br wh ws ts tc].
  cbn [BatchSize BatchTimeoutMS BlockedRetryDelaySec TimestampCacheSize
       ErrorHandling] in *.
  unfold normalise, MaxBatchSize. info_fields.
  destruct (Z.eqb_spec bs 0); [lia|].
  destruct (bs >? 1000) eqn:G; [rewrite Z.gtb_ltb in G; apply Z.ltb_lt in G; lia|].
  info_fields.
  destruct (Z.eqb_spec bt 0); [contradiction|]. info_fields.
  destruct (Z.eqb_spec br 0); [contradiction|]. info_fields.
  destruct E as [-> | ->];
    [ replace (String.eqb (ToLower ErrorHandlingBlock) ErrorHandlingBlock)
        with true by (vm_compute; reflexivity)
    | replace (String.eqb (ToLower ErrorHandlingSkip) ErrorHandlingBlock)
        with false by (vm_compute; reflexivity) ];
    info_fields; destruct (Z.eqb_spec tc 0); try contradiction; reflexivity.
Qed.

Section Restart.
Context `{Externals}.

Lemma newEventStream_type (conf : EventstreamConf) (info : StreamInfo)
    (a : eventStream) :
  newEventStream conf (Some info) = inr a ->
  plain (spec a) = plain (set_Type (ToLower (Type_ (normalise info))) (normalise info)).
Proof.
  unfold newEventStream.
  destruct (String.eqb (GetID info) ""); [discriminate|].
  set (s := set_Type _ _).
  destruct (String.eqb (Type_ s) "webhook").
  - destruct (newWebhookAction (Webhook s)); [discriminate|].
    intros E. inversion E. reflexivity.
  - destruct (String.eqb (Type_ s) "websocket"); [|discriminate].
    destruct (from_option validateWebSocket None (WebSocket s)); [discriminate|].
    destruct (newWebSocketAction (WebSocket s)); [discriminate|].
    intros E. inversion E. reflexivity.
Qed.

(** The type of a stream that the constructor returned. *)
Lemma newEventStream_accepted_type (conf : EventstreamConf) (info : StreamInfo)
    (a : eventStream) :
  newEventStream conf (Some info) = inr a ->
  Type_ (spec a) = "webhook" \/ Type_ (spec a) = "websocket".
Proof.
  unfold newEventStream.
  destruct (String.eqb (GetID info) ""); [discriminate|].
  set (s := set_Type _ _).
  destruct (String.eqb (Type_ s) "webhook") eqn:W.
  - destruct (newWebhookAction (Webhook s)); [discriminate|].
    intros E. inversion E. left. apply String.eqb_eq. exact W.
  - destruct (String.eqb (Type_ s) "websocket") eqn:S; [|discriminate].
    destruct (from_option validateWebSocket None (WebSocket s)); [discriminate|].
    destruct (newWebSocketAction (WebSocket s)); [discriminate|].
    intros E. inversion E. right. apply String.eqb_eq. exact S.
Qed.

(** X16. The specification of a stream, as any history from its
    construction leaves it (with batch sizes that are values of
    [uint64]), is one that the constructor does not change: when
    [newEventStream] accepts it again, as it does at a restart for the
    persisted specification, the new stream has the same plain fields,
    the suspended flag included; only the webhook and WebSocket
    sections are what the action constructors return. *)
Theorem restart_keeps_specification (conf conf' : EventstreamConf)
    (info : StreamInfo) (a a1 a2 : eventStream) (ops : list operation)
    (effs : list effect) :
  newEventStream conf (Some info) = inr a ->
  0 <= BatchSize info ->
  unsigned_sizes ops ->
  execute ops a = Returned (a1, effs) ->
  newEventStream conf' (Some (spec a1)) = inr a2 ->
  plain (spec a2) = plain (spec a1).
Proof.
  intros N B U E R.
  pose proof (execute_normalised _ U _ _ _
                (newEventStream_normalised _ _ _ N B) E) as NS.
  pose proof (execute_immutable _ _ _ _ E) as IM.
  apply newEventStream_type in R. rewrite R.
  rewrite (normalise_fixed _ NS).
  assert (T : ToLower (Type_ (spec a1)) = Type_ (spec a1)).
  { assert (T1 : Type_ (spec a1) = Type_ (spec a)).
    { unfold immutable in IM. congruence. }
    rewrite T1.
    destruct (newEventStream_accepted_type _ _ _ N) as [W|W];
      rewrite W; reflexivity. }
  rewrite T. destruct (spec a1); reflexivity.
Qed.

End Restart.

Lemma restart_keeps_specification_witness :
  exists (a1 a2 : eventStream) (effs : list effect),
    @execute sampleExternals sampleHistory sampleStream = Returned (a1, effs)
    /\ @newEventStream sampleExternals sampleConf (Some (spec a1)) = inr a2
    /\ plain (spec a2) = plain (spec a1).
Proof.
  destruct (@execute sampleExternals sampleHistory sampleStream)
    as [[a1 effs]| |] eqn:E; try (vm_compute in E; discriminate E).
  destruct (@newEventStream sampleExternals sampleConf (Some (spec a1)))
    as [e|a2] eqn:R.
  { exfalso. vm_compute in E. injection E as <- _. vm_compute in R. discriminate R. }
  exists a1, a2, effs. split; [reflexivity|]. split; [exact R|].
  apply (@restart_keeps_specification sampleExternals sampleConf sampleConf
           sampleInfo sampleStream a1 a2 sampleHistory effs).
  - vm_compute. reflexivity.
  - vm_compute. discriminate.
  - unfold unsigned_sizes, sampleHistory. repeat constructor.
    vm_compute. discriminate.
  - exact E.
  - exact R.
Defined.

(** ** Adding a stream *)

Lemma normalise_keeps `{Externals} (s : StreamInfo) :
  ID (normalise s) = ID s /\ Path (normalise s) = Path s
  /\ CreatedISO8601 (normalise s) = CreatedISO8601 s.
Proof.
  unfold normalise.
  repeat match goal with
  | |- context [if ?c then _ else _] => destruct c
  end; repeat split.
Qed.

Section AddStreamFacts.
Context `{Externals}.

(** X17. An [AddStream] that succeeds returns a specification with the
    identifier "es-" followed by the fresh UUID, the path of that
    identifier and the time of the call, whatever the request held in
    these fields, and within the ranges of the constructor; the stream
    is registered under the identifier, running its three goroutines,
    its specification is the one returned and the one persisted under
    the identifier, and no other stream of the registry is touched. *)
Theorem AddStream_registers (uuid now : string) (put_fails : bool)
    (body : StreamInfo) (s s' : subscriptionMGR) (info : StreamInfo) :
  AddStream uuid now put_fails (Some body) s = Returned (s', inr info) ->
  ID info = streamIDPrefix +:+ uuid
  /\ Path info = StreamPathPrefix +:+ "/" +:+ streamIDPrefix +:+ uuid
  /\ CreatedISO8601 info = now
  /\ (0 <= BatchSize body -> normalised info)
  /\ StreamByID (ID info) s' = inr info
  /\ (exists stream,
        streams s' !! ID info = Some stream
        /\ spec stream = info
        /\ goroutines stream
           = [goEventPoller; goBatchProcessor; goBatchDispatcher []])
  /\ (exists kv',
        db s' = Some kv' /\ records kv' !! ID info = Some (streamRecord info))
  /\ forall id, id <> ID info -> streams s' !! id = streams s !! id.
Proof.
  unfold AddStream. intros E.
  destruct (newEventStream (config s) (Some (stamp uuid now body)))
    as [e|stream] eqn:N; [discriminate|].
  cbv zeta in E.
  apply bind_Returned in E as ([s1 stored] & S & E). cbv beta iota in E.
  destruct stored as [e|streamInfo]; [discriminate|]. injection E as <- <-.
  unfold storeStream in S. cbn [db put_stream set_streams] in S.
  destruct (db s) as [kv|] eqn:D; [|discriminate].
  destruct put_fails; [discriminate|]. injection S as <- <-.
  pose proof (newEventStream_spec _ _ _ N) as (t & w & ws & SP).
  destruct (normalise_keeps (stamp uuid now body)) as (K1 & K2 & K3).
  assert (I : ID (spec stream) = streamIDPrefix +:+ uuid).
  { rewrite SP. info_fields. rewrite K1. reflexivity. }
  split; [exact I|].
  split; [rewrite SP; info_fields; rewrite K2; reflexivity|].
  split; [rewrite SP; info_fields; rewrite K3; reflexivity|].
  split.
  { intros B. eapply newEventStream_normalised; [exact N|exact B]. }
  split.
  { unfold StreamByID, streamByID. cbn [streams set_db put_stream set_streams].
    rewrite lookup_insert_eq. reflexivity. }
  split.
  { exists stream. cbn [streams set_db put_stream set_streams].
    split; [apply lookup_insert_eq|]. split; [reflexivity|].
    apply (newEventStream_fresh _ _ _ N). }
  split.
  { eexists. split; [reflexivity|]. cbn [records Put]. apply lookup_insert_eq. }
  intros id NE. cbn [streams set_db put_stream set_streams].
  apply lookup_insert_ne. congruence.
Qed.

(** X18. An [AddStream] that fails does so in one of three ways: the
    body does not decode, status 400, nothing changed; the constructor
    rejects the specification (an unknown type, a webhook without URL,
    an invalid distribution mode), status 500, nothing changed; or the
    store refuses the record, status 500 with the store error, and
    then the stream is registered all the same, with nothing
    persisted. *)
Theorem AddStream_failure (uuid now : string) (put_fails : bool)
    (body : option StreamInfo) (s s' : subscriptionMGR) (err : RestError) :
  AddStream uuid now put_fails body s = Returned (s', inl err) ->
  (body = None
   /\ err = NewRestError RESTGatewayEventStreamInvalid 400 /\ s' = s)
  \/ (exists decoded e,
        body = Some decoded
        /\ newEventStream (config s) (Some (stamp uuid now decoded)) = inl e
        /\ err = NewRestError e 500 /\ s' = s)
  \/ (exists decoded stream,
        body = Some decoded
        /\ newEventStream (config s) (Some (stamp uuid now decoded)) = inr stream
        /\ put_fails = true
        /\ err = NewRestError EventStreamsCreateStreamStoreFailed 500
        /\ streams s' = <[ID (spec stream) := stream]> (streams s)
        /\ db s' = db s).
Proof.
  unfold AddStream. intros E.
  destruct body as [decoded|]; [|injection E as <- <-; left; auto].
  destruct (newEventStream (config s) (Some (stamp uuid now decoded)))
    as [e|stream] eqn:N.
  { injection E as <- <-. right. left. eauto 10. }
  cbv zeta in E.
  apply bind_Returned in E as ([s1 stored] & S & E). cbv beta iota in E.
  destruct stored as [e|streamInfo]; [|discriminate]. injection E as <- <-.
  unfold storeStream in S. cbn [db put_stream set_streams] in S.
  destruct (db s) as [kv|] eqn:D; [|discriminate].
  destruct put_fails; [|discriminate]. injection S as <- <-.
  right. right. exists decoded, stream.
  split; [reflexivity|]. split; [exact N|].
  repeat split. cbn [db put_stream set_streams]. exact D.
Qed.

End AddStreamFacts.

Lemma AddStream_registers_witness :
  exists (s' : subscriptionMGR) (info : StreamInfo),
    @AddStream sampleExternals "0001" "2021-02-03T04:05:06Z" false
      (Some sampleSocketInfo) sampleManager
    = Returned (s', inr info)
    /\ ID info = "es-0001"
    /\ Path info = "/eventstreams/es-0001"
    /\ StreamByID "es-0001" s' = inr info
    /\ StreamByID "es-1" s' = StreamByID "es-1" sampleManager.
Proof.
  destruct (@AddStream sampleExternals "0001" "2021-02-03T04:05:06Z" false
              (Some sampleSocketInfo) sampleManager)
    as [[s' [e|info]]| |] eqn:E; try (vm_compute in E; discriminate E).
  exists s', info. split; [reflexivity|].
  destruct (@AddStream_registers sampleExternals _ _ _ _ _ _ _ E)
    as (I & P & _ & _ & S & _ & _ & O).
  split; [exact I|]. split; [exact P|].
  split; [rewrite I in S; exact S|].
  unfold StreamByID, streamByID. rewrite O; [reflexivity|].
  rewrite I. discriminate.
Defined.

Lemma AddStream_failure_witness :
  exists (s' : subscriptionMGR) (stream : eventStream),
    @AddStream sampleExternals "0001" "2021-02-03T04:05:06Z" true
      (Some sampleSocketInfo) sampleManager
    = Returned (s', inl (NewRestError EventStreamsCreateStreamStoreFailed 500))
    /\ streams s' !! "es-0001" = Some stream
    /\ db s' = db sampleManager.
Proof.
  destruct (@AddStream sampleExternals "0001" "2021-02-03T04:05:06Z" true
              (Some sampleSocketInfo) sampleManager)
    as [[s' [err|info]]| |] eqn:E; try (vm_compute in E; discriminate E).
  destruct (@AddStream_failure sampleExternals _ _ _ _ _ _ _ E)
    as [(B & _)|[(decoded & e & B & N & _)|(decoded & stream & B & N & _ & -> & S & D)]].
  - discriminate B.
  - exfalso. injection B as <-. vm_compute in N. discriminate N.
  - exists s', stream. split; [reflexivity|]. split; [|exact D].
    rewrite S. injection B as <-.
    assert (I : ID (spec stream) = "es-0001").
    { vm_compute in N. injection N as <-. reflexivity. }
    rewrite I. apply lookup_insert_eq.
Defined.

(** ** Deleting a stream *)

Lemma db_Delete_inv (delete_error : string -> option error) (key : string)
    (s s' : subscriptionMGR) (err : option error) :
  db_Delete delete_error key s = Returned (s', err) ->
  subscriptions s' = subscriptions s
  /\ streams s' = streams s
  /\ err = delete_error key
  /\ exists kv,
       db s = Some kv
       /\ db s' = Some (match delete_error key with
                        | Some _ => kv
                        | None => Delete key kv
                        end).
Proof.
  unfold db_Delete. destruct (db s) as [kv|] eqn:D; [|discriminate].
  destruct (delete_error key); intros [= <- <-]; repeat split; eauto.
Qed.

Lemma checkpoint_key_inj (id id' : string) :
  checkpointIDPrefix +:+ id = checkpointIDPrefix +:+ id' -> id = id'.
Proof. intros E. injection E as E. exact E. Qed.

Lemma checkpoint_key_other (id : string) : checkpointIDPrefix +:+ id <> id.
Proof.
  intros E.
  change (checkpointIDPrefix +:+ id)
    with (String "c" (String "p" (String "-" id))) in E.
  apply (f_equal String.length) in E. simpl in E. lia.
Qed.

Section DeleteStreamFacts.
Context `{SubscriptionMethods}.

Lemma deleteSubscriptions_spec (delete_error : string -> option error)
    (id : string) (keys : list string) :
  forall s s1,
    (forall k sub, subscriptions s !! k = Some sub -> info_ID (info sub) = k) ->
    deleteSubscriptions delete_error id keys s = Returned s1 ->
    streams s1 = streams s
    /\ forall k,
         subscriptions s1 !! k
         = if decide (k ∈ keys) then subscriptions s !! k ≫= unbound id
           else subscriptions s !! k.
Proof.
  induction keys as [|k0 keys IH]; intros s s1 K E; simpl in E.
  - injection E as <-. split; [reflexivity|]. intros k.
    rewrite decide_False by apply not_elem_of_nil. reflexivity.
  - assert (M : forall k, k <> k0 -> (k ∈ k0 :: keys) <-> (k ∈ keys)).
    { intros k NE. rewrite elem_of_cons. tauto. }
    destruct (subscriptions s !! k0) as [sub|] eqn:L.
    + destruct (decide (info_Stream (info sub) = id)) as [B|B].
      * apply bind_Returned in E as ([s2 err] & DS & E). cbv beta iota in E.
        unfold deleteSubscription in DS.
        apply db_Delete_inv in DS as (S2 & T2 & _).
        cbn [subscriptions streams set_subscriptions] in S2, T2.
        rewrite (K _ _ L) in S2.
        apply IH in E as [T R].
        2:{ intros k sub' L'. rewrite S2 in L'.
            apply lookup_delete_Some in L' as [_ L']. eapply K. exact L'. }
        split; [congruence|]. intros k. rewrite R, S2.
        destruct (decide (k = k0)) as [->|NE].
        -- rewrite lookup_delete_eq, L.
           rewrite (decide_True _ _ (list_elem_of_here k0 keys)).
           cbn. unfold unbound.
           destruct (decide (info_Stream (info sub) = id)); [|contradiction].
           destruct (decide (k0 ∈ keys)); reflexivity.
        -- rewrite lookup_delete_ne by congruence.
           destruct (decide (k ∈ keys)) as [I|I].
           ++ rewrite decide_True by (apply M; assumption). reflexivity.
           ++ rewrite decide_False by (rewrite M; assumption). reflexivity.
      * apply IH in E as [T R]; [|exact K]. split; [exact T|].
        intros k. rewrite R.
        destruct (decide (k = k0)) as [->|NE].
        -- rewrite (decide_True _ _ (list_elem_of_here k0 keys)), L.
           cbn. unfold unbound.
           destruct (decide (info_Stream (info sub) = id)); [contradiction|].
           destruct (decide (k0 ∈ keys)); reflexivity.
        -- destruct (decide (k ∈ keys)) as [I|I].
           ++ rewrite decide_True by (apply M; assumption). reflexivity.
           ++ rewrite decide_False by (rewrite M; assumption). reflexivity.
    + apply IH in E as [T R]; [|exact K]. split; [exact T|].
      intros k. rewrite R.
      destruct (decide (k = k0)) as [->|NE].
      -- rewrite (decide_True _ _ (list_elem_of_here k0 keys)), L.
         destruct (decide (k0 ∈ keys)); reflexivity.
      -- destruct (decide (k ∈ keys)) as [I|I].
         ++ rewrite decide_True by (apply M; assumption). reflexivity.
         ++ rewrite decide_False by (rewrite M; assumption). reflexivity.
Qed.

(** X19. A [DeleteStream] of a registered stream that returns, with
    whatever status, has removed the stream from the registry and with
    it every subscription bound to it, and has left the other streams
    and subscriptions; the stream had not been stopped before.  When
    the status is success, the record of the stream is gone from the
    store, and so is its checkpoint unless the store refused that
    deletion. *)
Theorem DeleteStream_cascade (delete_error : string -> option error)
    (id : string) (s s' : subscriptionMGR) (stream : eventStream)
    (res : RestError + string) :
  keyed s ->
  streams s !! id = Some stream ->
  DeleteStream delete_error id s = Returned (s', res) ->
  streams s' = delete id (streams s)
  /\ (forall k, subscriptions s' !! k = subscriptions s !! k ≫= unbound id)
  /\ subscriptionsForStream id s' = []
  /\ eventStream_chan stream = chanOpen
  /\ (res = inr id <-> delete_error id = None)
  /\ (res = inr id ->
      exists kv',
        db s' = Some kv'
        /\ records kv' !! id = None
        /\ (delete_error (checkpointIDPrefix +:+ id) = None ->
            records kv' !! (checkpointIDPrefix +:+ id) = None)).
Proof.
  intros [KS KT] L E. unfold DeleteStream, streamByID in E. rewrite L in E.
  cbv zeta in E. rewrite (KT _ _ L) in E.
  apply bind_Returned in E as (s1 & DS & E).
  apply (deleteSubscriptions_spec _ _ _ _ _ KS) in DS as [T1 S1].
  apply bind_Returned in E as (stream' & ST & E).
  assert (CH : eventStream_chan stream = chanOpen).
  { unfold stop in ST. stream_fields.
    destruct (eventStream_chan stream); [reflexivity|discriminate]. }
  apply bind_Returned in E as ([s2 err] & D1 & E). cbv beta iota in E.
  apply db_Delete_inv in D1 as (S2 & T2 & -> & kv & D & D2).
  cbn [subscriptions streams db set_streams] in S2, T2, D, D2.
  assert (SUBS : forall k, subscriptions s1 !! k = subscriptions s !! k ≫= unbound id).
  { intros k. rewrite S1.
    destruct (decide (k ∈ (map_to_list (subscriptions s)).*1)) as [I|I];
      [reflexivity|].
    destruct (subscriptions s !! k) as [sub|] eqn:LK; [|reflexivity].
    exfalso. apply I. apply list_elem_of_fmap. exists (k, sub).
    split; [reflexivity|]. apply elem_of_map_to_list. exact LK. }
  assert (NONE : forall s3, subscriptions s3 = subscriptions s1 ->
                   subscriptionsForStream id s3 = []).
  { intros s3 E3. unfold subscriptionsForStream. rewrite E3.
    destruct (filter _ _) as [|x l] eqn:F; [reflexivity|]. exfalso.
    assert (X : x ∈ filter (fun sub => info_Stream (info sub) = id)
                  (map_to_list (subscriptions s1)).*2)
      by (rewrite F; apply list_elem_of_here).
    apply list_elem_of_filter in X as [B X].
    apply list_elem_of_fmap in X as ([k sub] & -> & X).
    apply elem_of_map_to_list in X. rewrite SUBS in X. cbn [snd] in B.
    destruct (subscriptions s !! k) as [sub0|]; [|discriminate].
    cbn in X. unfold unbound in X.
    destruct (decide (info_Stream (info sub0) = id)); [discriminate|].
    injection X as ->. contradiction. }
  destruct (delete_error id) as [e|] eqn:DE.
  - injection E as <- <-.
    split; [congruence|]. split; [intros k; rewrite S2; apply SUBS|].
    split; [apply NONE; exact S2|]. split; [exact CH|].
    split; [split; discriminate|discriminate].
  - apply bind_Returned in E as (s3 & DC & E). injection E as <- <-.
    unfold deleteCheckpoint in DC.
    apply bind_Returned in DC as ([s4 err4] & D3 & DC). cbv beta iota in DC.
    injection DC as <-.
    apply db_Delete_inv in D3 as (S3 & T3 & _ & kv2 & D3 & D4).
    rewrite D2 in D3. injection D3 as <-.
    split; [congruence|].
    split; [intros k; rewrite S3, S2; apply SUBS|].
    split; [apply NONE; congruence|]. split; [exact CH|].
    split; [split; reflexivity|]. intros _.
    eexists. split; [exact D4|].
    destruct (delete_error (checkpointIDPrefix +:+ id)); cbn [records Delete].
    + split; [apply lookup_delete_eq|discriminate].
    + split.
      * rewrite lookup_delete_ne by apply checkpoint_key_other.
        apply lookup_delete_eq.
      * intros _. apply lookup_delete_eq.
Qed.

End DeleteStreamFacts.

Lemma DeleteStream_cascade_witness :
  exists s' : subscriptionMGR,
    @DeleteStream sampleMethods (fun _ => None) "es-2" sampleRegistry
    = Returned (s', inr "es-2")
    /\ streams s' !! "es-2" = None
    /\ subscriptions s' !! "sb-2" = None
    /\ subscriptions s' !! "sb-1" = Some (sampleSubscription 5).
Proof.
  destruct (@DeleteStream sampleMethods (fun _ => None) "es-2" sampleRegistry)
    as [[s' res]| |] eqn:E; try (vm_compute in E; discriminate E).
  assert (K : keyed sampleRegistry).
  { split; intros k x L.
    - destruct (decide (k = "sb-1")) as [->|N1];
        [vm_compute in L; injection L as <-; reflexivity|].
      destruct (decide (k = "sb-2")) as [->|N2];
        [vm_compute in L; injection L as <-; reflexivity|].
      unfold sampleRegistry in L. cbn [subscriptions] in L.
      rewrite lookup_insert_ne, lookup_singleton_ne in L by congruence.
      discriminate L.
    - destruct (decide (k = "es-1")) as [->|N1];
        [vm_compute in L; injection L as <-; reflexivity|].
      destruct (decide (k = "es-2")) as [->|N2];
        [vm_compute in L; injection L as <-; reflexivity|].
      unfold sampleRegistry in L. cbn [streams] in L.
      rewrite lookup_insert_ne, lookup_singleton_ne in L by congruence.
      discriminate L. }
  assert (L : streams sampleRegistry !! "es-2" = Some sampleSocketStream)
    by (vm_compute; reflexivity).
  destruct (@DeleteStream_cascade sampleMethods _ _ _ _ _ _ K L E)
    as (T & S & _ & _ & R & _).
  exists s'. split; [rewrite (proj2 R eq_refl); reflexivity|].
  split; [rewrite T; apply lookup_delete_eq|].
  split; rewrite S; vm_compute; reflexivity.
Defined.

(** ** A stream that is not registered *)

Section UnknownStream.
Context `{Externals} `{SubscriptionMethods}.

(** X20. For an identifier that is not in the registry, every
    operation on a stream answers status 404 with the stream-not-found
    error and leaves the manager as it is; [UpdateStream] does so
    before it looks at the body, so that a body that does not decode
    is a 404 too. *)
Theorem unknown_stream (id : string) (s : subscriptionMGR) :
  streams s !! id = None ->
  StreamByID id s = inl (NewRestError (EventStreamsStreamNotFound id) 404)
  /\ (forall sched put_fails body,
        UpdateStream sched put_fails id body s
        = Returned (s, inl (NewRestError (EventStreamsStreamNotFound id) 404)))
  /\ (forall put_fails,
        SuspendStream put_fails id s
        = Returned (s, inl (NewRestError (EventStreamsStreamNotFound id) 404)))
  /\ (forall put_fails,
        ResumeStream put_fails id s
        = Returned (s, inl (NewRestError (EventStreamsStreamNotFound id) 404)))
  /\ (forall delete_error,
        DeleteStream delete_error id s
        = Returned (s, inl (NewRestError (EventStreamsStreamNotFound id) 404))).
Proof.
  intros L.
  unfold StreamByID, UpdateStream, SuspendStream, ResumeStream, DeleteStream,
    streamByID.
  rewrite L. repeat split.
Qed.

End UnknownStream.

Lemma unknown_stream_witness :
  @UpdateStream sampleExternals quiesce false "es-9" None sampleManager
  = Returned (sampleManager,
              inl (NewRestError (EventStreamsStreamNotFound "es-9") 404)).
Proof.
  apply (@unknown_stream sampleExternals sampleMethods "es-9" sampleManager).
  vm_compute. reflexivity.
Defined.

(** ** The checkpoint in the store *)

(** X21. A checkpoint that [storeCheckpoint] wrote for a stream is the
    one [loadCheckpoint] returns for that stream when the store reads;
    the write changes no other key of the store, so the checkpoint of
    every other stream loads as before, whether the store reads or
    not; after [deleteCheckpoint] the stream loads an empty
    checkpoint; and a read that fails gives an error and no
    checkpoint, whatever is stored. *)
Theorem checkpoint_round_trip (id : string) (checkpoint : gmap string Z)
    (s s' : subscriptionMGR) :
  storeCheckpoint false id checkpoint s = Returned s' ->
  loadCheckpoint false id s' = Returned (Some checkpoint, false)
  /\ loadCheckpoint true id s' = Returned (None, true)
  /\ (forall get_fails id',
        id' <> id ->
        loadCheckpoint get_fails id' s' = loadCheckpoint get_fails id' s)
  /\ (exists kv kv',
        db s = Some kv /\ db s' = Some kv'
        /\ forall k, k <> checkpointIDPrefix +:+ id ->
                     records kv' !! k = records kv !! k)
  /\ (forall s'',
        deleteCheckpoint (fun _ => None) id s' = Returned s'' ->
        loadCheckpoint false id s'' = Returned (Some ∅, false)).
Proof.
  unfold storeCheckpoint. destruct (db s) as [kv|] eqn:D; [|discriminate].
  intros [= <-]. unfold loadCheckpoint. cbn [db set_db records Put].
  rewrite D, lookup_insert_eq. split; [reflexivity|]. split; [reflexivity|].
  split.
  { intros get_fails id' NE. destruct get_fails; [reflexivity|].
    rewrite lookup_insert_ne; [reflexivity|].
    intros E. apply checkpoint_key_inj in E. congruence. }
  split.
  { eexists _, _. split; [reflexivity|]. split; [reflexivity|].
    intros k NE. cbn [records Put]. apply lookup_insert_ne. congruence. }
  intros s'' DC. unfold deleteCheckpoint, db_Delete in DC.
  cbn [db set_db] in DC. cbn in DC. injection DC as <-.
  cbn [db set_db records Delete Put]. rewrite lookup_delete_eq. reflexivity.
Qed.

Lemma checkpoint_round_trip_witness :
  exists s' : subscriptionMGR,
    storeCheckpoint false "es-1" {[ "sb-1" := 7 ]} sampleManager = Returned s'
    /\ loadCheckpoint false "es-1" s' = Returned (Some {[ "sb-1" := 7 ]}, false)
    /\ loadCheckpoint false "es-2" s' = loadCheckpoint false "es-2" sampleManager.
Proof.
  destruct (storeCheckpoint false "es-1" {[ "sb-1" := 7 ]} sampleManager)
    as [s'| |] eqn:E; try (vm_compute in E; discriminate E).
  exists s'. split; [reflexivity|].
  destruct (checkpoint_round_trip _ _ _ _ E) as (L & _ & O & _).
  split; [exact L|]. apply O. discriminate.
Defined.

(** ** Close, the first time *)


Section CloseFacts.
Context `{SubscriptionMethods}.


End CloseFacts.


(** ** Recovery of the streams *)

Section RecoveryFacts.
Context `{Externals}.
Variable foreign : record -> option StreamInfo.

Lemma recoverStream_fold (conf : EventstreamConf) (l : list (string * record)) :
  forall acc : gmap string eventStream,
    NoDup l.*1 ->
    (forall k r, (k, r) ∈ l -> String.prefix streamIDPrefix k = true ->
                 exists info, r = streamRecord info /\ ID info = k) ->
    forall k,
      foldl (recoverStream foreign conf) acc l !! k
      = match recovered conf k ((list_to_map l : gmap string record) !! k) with
        | Some a => Some a
        | None => acc !! k
        end.
Proof.
  induction l as [|[k0 r0] l IH]; intros acc ND W k.
  - cbn. rewrite lookup_empty. reflexivity.
  - cbn [foldl]. apply NoDup_cons in ND as [NI ND]. cbn [fmap list_fmap fst] in NI.
    rewrite IH; [|exact ND|intros k' r' I; apply W; right; exact I].
    rewrite list_to_map_cons.
    assert (A : forall k', k' <> k0 ->
                  recoverStream foreign conf acc (k0, r0) !! k' = acc !! k').
    { intros k' NE. unfold recoverStream. cbn [fst snd].
      destruct (String.prefix streamIDPrefix k0) eqn:P; [|reflexivity].
      destruct (W k0 r0 (list_elem_of_here _ _) P) as (info & -> & I).
      cbn [unmarshalStream].
      destruct (newEventStream conf (Some info)); [reflexivity|].
      rewrite I. apply lookup_insert_ne. congruence. }
    destruct (decide (k = k0)) as [->|NE].
    + rewrite lookup_insert_eq.
      rewrite (not_elem_of_list_to_map_1 _ _ NI). cbn [recovered].
      unfold recoverStream. cbn [fst snd].
      destruct (String.prefix streamIDPrefix k0) eqn:P.
      * destruct (W k0 r0 (list_elem_of_here _ _) P) as (info & -> & I).
        cbn [unmarshalStream].
        destruct (newEventStream conf (Some info)); [reflexivity|].
        rewrite I. apply lookup_insert_eq.
      * destruct r0; reflexivity.
    + rewrite lookup_insert_ne by congruence. rewrite (A k NE). reflexivity.
Qed.

(** X23. On a manager without streams whose store holds, under the
    keys that begin with "es-", specifications under their
    identifiers, [recoverStreams] registers exactly the streams that
    the constructor builds from these records, each under its key; a
    record that the constructor rejects is skipped, the others are
    recovered all the same, and records under other keys are not
    looked at. *)
Theorem recoverStreams_registry (s : subscriptionMGR) (kv : KVStore) :
  db s = Some kv ->
  streams s = ∅ ->
  stream_records kv ->
  exists s',
    recoverStreams foreign s = Returned s'
    /\ (forall k, streams s' !! k = recovered (config s) k (records kv !! k))
    /\ db s' = db s
    /\ subscriptions s' = subscriptions s.
Proof.
  intros D E W. unfold recoverStreams. rewrite D.
  eexists. split; [reflexivity|]. cbn [streams db subscriptions set_streams].
  split; [|split; [exact D|reflexivity]].
  intros k. rewrite recoverStream_fold.
  - rewrite list_to_map_to_list, E, lookup_empty.
    destruct (recovered (config s) k (records kv !! k)); reflexivity.
  - apply NoDup_fst_map_to_list.
  - intros k' r I. apply elem_of_map_to_list in I. apply W. exact I.
Qed.

End RecoveryFacts.

Lemma recoverStreams_registry_witness :
  exists s' : subscriptionMGR,
    @recoverStreams sampleExternals (fun _ => None) (set_streams ∅ sampleManager)
    = Returned s'
    /\ streams s' !! "es-1" = Some sampleStream.
Proof.
  destruct (@recoverStreams_registry sampleExternals (fun _ => None)
              (set_streams ∅ sampleManager)
              {| records := {["es-1" := streamRecord (spec sampleStream)]};
                 closes := 0 |} eq_refl eq_refl)
    as (s' & R & L & _).
  - intros k r L P. cbn [records] in L.
    apply lookup_singleton_Some in L as [<- <-].
    eexists. split; reflexivity.
  - exists s'. split; [exact R|]. rewrite L. vm_compute. reflexivity.
Defined.

(** ** The polling interval *)

Section PollingInterval.
Context `{Externals}.

(** X24. Every stream constructed with the configuration of a manager
    that [NewSubscriptionManager] built has as polling interval the
    configured number of seconds, one second when that is zero or
    negative, multiplied as a [time.Duration], that is in [int64], and
    replaced by ten milliseconds when the product is zero.  Up to
    9223372036 seconds the product does not wrap: the stream polls at
    the configured interval, one second at least, and the ten
    milliseconds never apply. *)
Theorem polling_interval (conf : EventstreamConf) (info : StreamInfo)
    (a : eventStream) :
  newEventStream (config (NewSubscriptionManager conf)) (Some info) = inr a ->
  pollingInterval a
  = (let interval := wrap_int64 (Z.max 1 (PollingIntervalSec conf) * second) in
     if interval =? 0 then 10 * millisecond else interval)
  /\ (PollingIntervalSec conf <= 9223372036 ->
      pollingInterval a = Z.max 1 (PollingIntervalSec conf) * second)
  /\ allowPrivateIPs a = WebhooksAllowPrivateIPs conf.
Proof.
  intros N.
  assert (P : pollingInterval a
              = (let interval :=
                   wrap_int64
                     (PollingIntervalSec (config (NewSubscriptionManager conf))
                      * second) in
                 if interval =? 0 then 10 * millisecond else interval)
              /\ allowPrivateIPs a
                 = WebhooksAllowPrivateIPs (config (NewSubscriptionManager conf))).
  { unfold newEventStream in N.
    destruct (String.eqb (GetID info) ""); [discriminate|].
    cbv zeta in N.
    destruct (String.eqb _ "webhook").
    - destruct (newWebhookAction _); [discriminate|].
      injection N as <-. split; reflexivity.
    - destruct (String.eqb _ "websocket"); [|discriminate].
      destruct (from_option validateWebSocket None _); [discriminate|].
      destruct (newWebSocketAction _); [discriminate|].
      injection N as <-. split; reflexivity. }
  destruct P as [P Q].
  assert (C : PollingIntervalSec (config (NewSubscriptionManager conf))
              = Z.max 1 (PollingIntervalSec conf)
              /\ WebhooksAllowPrivateIPs (config (NewSubscriptionManager conf))
                 = WebhooksAllowPrivateIPs conf).
  { unfold NewSubscriptionManager. cbn [config].
    destruct (Z.leb_spec (PollingIntervalSec conf) 0) as [L|L];
      cbn [PollingIntervalSec WebhooksAllowPrivateIPs].
    - rewrite Z.max_l by lia. split; reflexivity.
    - rewrite Z.max_r by lia. split; reflexivity. }
  destruct C as [C1 C2]. rewrite C1 in P. rewrite C2 in Q.
  split; [exact P|]. split; [|exact Q].
  intros B. rewrite P. cbv zeta.
  assert (W : wrap_int64 (Z.max 1 (PollingIntervalSec conf) * second)
              = Z.max 1 (PollingIntervalSec conf) * second).
  { unfold wrap_int64, second.
    rewrite Z.mod_small by lia. lia. }
  rewrite W. unfold second.
  destruct (Z.eqb_spec (Z.max 1 (PollingIntervalSec conf) * 1000000000) 0);
    [lia|reflexivity].
Qed.

End PollingInterval.

Lemma polling_interval_witness :
  exists a : eventStream,
    @newEventStream sampleExternals
      (config (NewSubscriptionManager
                 {| PollingIntervalSec := 0; WebhooksAllowPrivateIPs := true |}))
      (Some sampleInfo) = inr a
    /\ pollingInterval a = second.
Proof.
  destruct (@newEventStream sampleExternals
              (config (NewSubscriptionManager
                         {| PollingIntervalSec := 0;
                            WebhooksAllowPrivateIPs := true |}))
              (Some sampleInfo)) as [e|a] eqn:N;
    [vm_compute in N; discriminate N|].
  exists a. split; [reflexivity|].
  apply (@polling_interval sampleExternals _ _ _ N). vm_compute. discriminate.
Defined.

(** ** Events for a stopped stream *)

Lemma wgDone_channel (a a' : eventStream) :
  wgDone a = Returned a' -> channel_closed a -> channel_closed a'.
Proof.
  unfold wgDone. destruct (updateWG a <? 1); intros E; returned. auto.
Qed.

Lemma interfere1_channel (c : control) (a a' : eventStream) :
  interfere1 c a = Returned a' -> channel_closed a -> channel_closed a'.
Proof.
  unfold channel_closed. destruct c; simpl; intros E C.
  - returned. exact C.
  - unfold stop in E. stream_fields. rewrite C in E. discriminate.
  - unfold update_interrupt, close_updateInterrupt, preUpdateStream in E.
    stream_fields. destruct (updateInterrupt a); returned. exact C.
Qed.

Lemma interfere_channel (cs : list control) :
  forall a a', interfere cs a = Returned a' ->
               channel_closed a -> channel_closed a'.
Proof.
  induction cs as [|c cs IH]; simpl; intros a a' E C; returned; [exact C|].
  eapply IH; [eassumption|]. eapply interfere1_channel; eassumption.
Qed.

Lemma retryLoop_channel (env : list retry_env) (n : Z) (events : list EventEntry) :
  forall (attempt : Z) (err : bool) (a a' : eventStream) (err' : bool)
         (effs : list effect),
    retryLoop env n attempt events err a = Returned (a', err', effs) ->
    channel_closed a -> channel_closed a'.
Proof.
  induction env as [|r env IH]; intros attempt err a a' err' effs E C; simpl in E.
  - destruct (suspendOrStop a); returned. exact C.
  - apply bind_Returned in E as (a1 & I & E).
    apply (interfere_channel _ _ _ I) in C.
    destruct (suspendOrStop a1); [returned; exact C|].
    apply bind_Returned in E as (timer & T & E).
    destruct timer; simpl in E; [|returned; exact C].
    destruct (negb (retry_failed r) || retry_expired r).
    + returned. exact C.
    + apply bind_Returned in E as ([[a2 err2] effs2] & L & E). returned.
      eapply IH; eassumption.
Qed.

Lemma attemptLoop_channel (env : list attempt_env) (n : Z)
    (events : list eventData) :
  forall (attempt : Z) (a a' : eventStream) (ex : loop_exit) (effs : list effect),
    attemptLoop env n attempt events a = Returned (a', ex, effs) ->
    channel_closed a -> channel_closed a'.
Proof.
  induction env as [|t env IH]; intros attempt a a' ex effs E C; simpl in E.
  - destruct (suspendOrStop a); returned. exact C.
  - apply bind_Returned in E as (a1 & I & E).
    apply (interfere_channel _ _ _ I) in C.
    destruct (suspendOrStop a1); [returned; exact C|].
    apply bind_Returned in E as (timer & T & E).
    destruct timer; simpl in E; [|returned; exact C].
    apply bind_Returned in E as ([[a2 err] effs2] & P & E). simpl in E.
    assert (C2 : channel_closed a2).
    { unfold performActionWithRetry in P.
      apply bind_Returned in P as ([[b1 err1] effs1] & L & P). simpl in P.
      apply bind_Returned in P as (b2 & D & P). injection P as <- <- <-.
      eapply wgDone_channel; [exact D|].
      eapply retryLoop_channel; [exact L|]. exact C. }
    destruct (negb err || String.eqb (ErrorHandling (spec a2)) ErrorHandlingSkip).
    + returned. exact C2.
    + apply bind_Returned in E as ([[a3 ex3] effs3] & L & E). returned.
      eapply IH; eassumption.
Qed.

Lemma processBatch_channel (env : batch_env) (n : Z) (events : list eventData)
    (a a' : eventStream) (effs : list effect) :
  processBatch env n events a = Returned (a', effs) ->
  channel_closed a -> channel_closed a'.
Proof.
  unfold processBatch. intros E C.
  destruct events as [|e events].
  { apply bind_Returned in E as (a1 & D & E). injection E as <- <-.
    eapply wgDone_channel; eassumption. }
  apply bind_Returned in E as ([[a1 ex] effs1] & L & E).
  cbv beta iota zeta in E.
  apply (attemptLoop_channel _ _ _ _ _ _ _ _ L) in C.
  destruct ex as [processed|].
  - apply bind_Returned in E as (a2 & I & E).
    assert (C2 : channel_closed a2).
    { eapply interfere_channel; [exact I|]. destruct processed; exact C. }
    destruct (suspendOrStop a2);
      apply bind_Returned in E as (a3 & D & E); injection E as <- <-;
      eapply wgDone_channel; eassumption.
  - apply bind_Returned in E as (a3 & D & E). injection E as <- <-.
    eapply wgDone_channel; eassumption.
Qed.

Lemma iterate_channel (s : step) (a a' : eventStream) (effs : list effect) :
  iterate s a = Returned (a', effs) -> channel_closed a -> channel_closed a'.
Proof.
  destruct s as [n w|n r|n env]; simpl; intros E C.
  - destruct (goroutines a !! n) as [[]|] eqn:L; try discriminate.
    apply bind_Returned in E as ([[a1 c] effs1] & P & E). returned.
    assert (C1 : channel_closed a1).
    { unfold eventPoller in P.
      destruct (suspendOrStop a).
      - apply bind_Returned in P as (b & D & P). returned.
        eapply wgDone_channel; [exact D|exact C].
      - apply bind_Returned in P as (timer & T & P). destruct timer; simpl in P.
        + returned. exact C.
        + apply bind_Returned in P as (b & D & P). returned.
          eapply wgDone_channel; [exact D|exact C]. }
    destruct c; exact C1.
  - destruct (goroutines a !! n) as [[]|] eqn:L; try discriminate.
    apply bind_Returned in E as ([[a1 local] effs1] & P & E). returned.
    assert (C1 : channel_closed a1).
    { unfold batchDispatcher in P.
      apply bind_Returned in P as (sel & S & P).
      destruct sel as [[[timeout cb] effs2]|].
      - destruct (timeout || (Z.of_nat (length cb) =? BatchSize (spec a)));
          [destruct (negb timeout)|]; returned; exact C.
      - apply bind_Returned in P as (b & D & P). returned.
        eapply wgDone_channel; [exact D|exact C]. }
    destruct local; exact C1.
  - destruct (goroutines a !! n) as [[]|] eqn:L; try discriminate.
    apply bind_Returned in E as ([[a1 c] effs1] & P & E). returned.
    assert (C1 : channel_closed a1).
    { unfold batchProcessor in P.
      destruct (suspendOrStop a); [returned; exact C|].
      destruct (batchQueue a) as [|batch rest].
      - destruct (updateInProgress a); [|discriminate].
        destruct (updateInterrupt a); [discriminate|].
        apply bind_Returned in P as (b & D & P). returned.
        apply (wgDone_channel _ _ D C).
      - cbv zeta in P.
        apply bind_Returned in P as ([b effs2] & B & P). returned.
        eapply processBatch_channel; [exact B|exact C]. }
    destruct c; exact C1.
Qed.

Section StoppedChannel.
Context `{Externals}.

Lemma perform_channel (o : operation) (a a' : eventStream) (effs : list effect) :
  perform o a = Returned (a', effs) -> channel_closed a -> channel_closed a'.
Proof.
  destruct o as [s|c| |newSpec]; simpl; intros E C.
  - eapply iterate_channel; eassumption.
  - apply bind_Returned in E as (a1 & I & E). injection E as <- <-.
    eapply interfere1_channel; eassumption.
  - injection E as <- <-. unfold resume.
    destruct (negb (processorDone a) || negb (pollerDone a)); exact C.
  - apply bind_Returned in E as (a1 & W & E).
    unfold wgWait in W. destruct (updateWG a =? 0); [|discriminate].
    injection W as <-.
    apply bind_Returned in E as ([a2 res] & U & E). cbv beta iota in E.
    injection E as <- <-.
    apply update_apply_shape in U as (w & ws & U).
    destruct res as [e|info]; [subst a2; exact C|].
    destruct U as (_ & ->). exact C.
Qed.

(** X25. Once a stream is stopped, as [Close] and [DeleteStream] leave
    it, its event channel is closed and nothing opens it again: after
    every history that follows, with resumes and updates, [handleEvent]
    panics on the send, and a second [stop] panics on the close. *)
Theorem event_after_stop_panics (ops : list operation) :
  forall (a0 a a' : eventStream) (effs : list effect) (e : eventData),
    stop a0 = Returned a ->
    execute ops a = Returned (a', effs) ->
    handleEvent e a' = Panicked "send on closed channel"
    /\ stop a' = Panicked "close of closed channel".
Proof.
  intros a0 a a' effs e S E.
  assert (C : channel_closed a).
  { unfold stop in S. stream_fields.
    destruct (eventStream_chan a0); returned. reflexivity. }
  clear S. revert a a' effs C E.
  induction ops as [|o ops IH]; simpl; intros a a' effs C E.
  - returned. unfold handleEvent, stop, channel_closed in *. stream_fields.
    rewrite C. split; reflexivity.
  - apply bind_Returned in E as ([a1 effs1] & P & E). cbv beta iota in E.
    apply bind_Returned in E as ([a2 effs2] & X & E). injection E as <- <-.
    eapply IH; [|exact X]. eapply perform_channel; eassumption.
Qed.

End StoppedChannel.

Lemma event_after_stop_panics_witness :
  exists (a' : eventStream) (effs : list effect),
    stop sampleStream = Returned sampleStopped
    /\ @execute sampleExternals
         [ opStep (stepProcessor 1 delivered); opStep (stepPoller 0 wakeTimer);
           opResume; opStep (stepProcessor 2 delivered) ] sampleStopped
       = Returned (a', effs)
    /\ handleEvent (sampleEvent 7) a' = Panicked "send on closed channel".
Proof.
  destruct (@execute sampleExternals
              [ opStep (stepProcessor 1 delivered); opStep (stepPoller 0 wakeTimer);
                opResume; opStep (stepProcessor 2 delivered) ] sampleStopped)
    as [[a' effs]| |] eqn:E; try (vm_compute in E; discriminate E).
  exists a', effs. split; [vm_compute; reflexivity|]. split; [reflexivity|].
  assert (S : stop sampleStream = Returned sampleStopped) by (vm_compute; reflexivity).
  exact (proj1 (@event_after_stop_panics sampleExternals _ _ _ _ _
                  (sampleEvent 7) S E)).
Defined.
